(** * zodfig: the config merge-and-override model of [packages/zodfig/src/index.ts]

    Part I is the model, Part II its lemmas and theorems.  The model has
    three layers.

    - [Tree]: configuration data as JavaScript values seen as trees; the
      [merge-deep] package that [ZodFig.merge] and [ZodFig.override] call,
      with the [arr-union] and [clone-deep] packages it calls, after their
      published sources (merge-deep 3.0.3); the [ZodFig] class over them;
      and, in [Spec], the deep merge as the specification words it.
    - [Store]: the same class and packages over a heap of objects with
      identity and a [frozen] flag, for what depends on aliasing:
      [Object.freeze], the overrider of [overrideAync], an object held twice.
    - [Cli]: [run] as a function into a trace of effects, and [go] with the
      file watcher and the timer as a transition system over the variables
      of the closure.

    The libraries are modelled on data whose objects have the prototype
    [Object.prototype] and property names of their own: a property name that
    [Object.prototype] also defines ([toString], [constructor], [__proto__],
    ...) is read, cloned or enumerated through the prototype chain, which
    the model does not have.  The predicates [ordinary] (on trees) and
    [Store.plain] (on the heap) delimit that data; [ordinary_key] also leaves
    out [_isBuffer], the mark by which kind-of takes an object for a buffer,
    which the model does follow ([isBuffer]).

    [Tree] and [Store] are two readings of the same lines.  Part II relates
    them through shapes, the trees of objects a call has built in the heap:
    where the data is plain and no array of the second operand holds the
    same object twice, [merge] and [override] on the heap read back as
    [merge] and [override] on trees. *)

From Stdlib Require Import ZArith.
From stdpp Require Import gmap strings list fin_maps pretty.

#[local] Set Warnings "-register-all".
#[local] Open Scope string_scope.
#[local] Open Scope list_scope.
#[local] Open Scope nat_scope.

(** * Part I: the model *)

(** ** JavaScript values as trees *)

(** A number: an integer, or [NaN], the one value that is not [===] to
    itself.  (Fractions and the infinities are truthy and [===] to themselves
    only, as a non-zero integer is; nothing else of a number is looked at.) *)
Inductive number :=
  | Finite (z : Z)
  | NaN.

Bind Scope Z_scope with number.
Coercion Finite : Z >-> number.

(** A configuration value.  An object is a finite map from its own enumerable
    property names to values; its prototype is [Object.prototype].  Every
    array and object occurrence in a tree is an object of its own: two
    occurrences are never the same reference.  (A heap in which one object
    is held twice is a matter for [Store].) *)
Inductive value :=
  | VUndef
  | VNull
  | VBool (b : bool)
  | VNum (n : number)
  | VStr (s : string)
  | VArr (elems : list value)
  | VObj (fields : gmap string value).


(** JavaScript truthiness, the test of [if (x)] and of [!x]. *)
Definition truthy (v : value) : bool :=
  match v with
  | VUndef | VNull => false
  | VBool b => b
  | VNum (Finite z) => negb (z =? 0)%Z
  | VNum NaN => false
  | VStr s => negb (String.eqb s "")
  | VArr _ | VObj _ => true
  end.

(** is-buffer, which kind-of asks before it calls a value an object: of the
    three tests, [!!val._isBuffer] is the one a value without functions can
    pass. *)
Definition isBuffer (val : value) : bool :=
  match val with
  | VObj m => truthy (default VUndef (m !! "_isBuffer"))
  | _ => false
  end.

(** merge-deep's [isObject]: [typeOf(val) === 'object' || typeOf(val) ===
    'function'], with kind-of's [typeOf], for which an object that passes
    is-buffer is a ['buffer']. *)
Definition isObject (val : value) : bool :=
  match val with VObj _ => negb (isBuffer val) | _ => false end.

(** [Array.isArray]. *)
Definition isArray (val : value) : bool :=
  match val with VArr _ => true | _ => false end.

(** [x ?? y]. *)
Definition nullish_or (x y : value) : value :=
  match x with VUndef | VNull => y | _ => x end.

(** [x === y].  Primitives compare by value, and [NaN] is equal to nothing;
    arrays and objects compare by reference, and two occurrences in a tree
    are different references. *)
Definition strict_eq (x y : value) : bool :=
  match x, y with
  | VUndef, VUndef => true
  | VNull, VNull => true
  | VBool a, VBool b => Bool.eqb a b
  | VNum (Finite a), VNum (Finite b) => (a =? b)%Z
  | VStr a, VStr b => String.eqb a b
  | _, _ => false
  end.

(** The own enumerable properties a [for (key in obj)] loop visits: the
    fields of an object, the indices of an array. *)
Definition own_props (obj : value) : gmap string value :=
  match obj with
  | VObj m => m
  | VArr l => list_to_map (imap (λ i x, (pretty i, x)) l)
  | _ => ∅
  end.

(** The names of the properties of [Object.prototype], which every object
    inherits: [obj[key]] finds them when [obj] has no property [key] of its
    own, is-plain-object reads [constructor], and an assignment to
    [__proto__] sets the prototype. *)
Definition inherited_names : list string :=
  ["constructor"; "__defineGetter__"; "__defineSetter__"; "hasOwnProperty";
   "__lookupGetter__"; "__lookupSetter__"; "isPrototypeOf";
   "propertyIsEnumerable"; "toString"; "valueOf"; "__proto__";
   "toLocaleString"].

(** A property name behind which there is the object's own property and
    nothing else. *)
Definition ordinary_key (key : string) : bool :=
  negb (existsb (String.eqb key) ("_isBuffer" :: inherited_names)).

(** Every object of [v], at any depth, below fields and in sequences, has
    ordinary property names only. *)
Fixpoint ordinaryb (v : value) : bool :=
  match v with
  | VArr l => forallb ordinaryb l
  | VObj m =>
      bool_decide
        (map_Forall (λ key ok, ordinary_key key && ok = true)
           (ordinaryb <$> m))
  | _ => true
  end.

Definition ordinary (v : value) : Prop := ordinaryb v = true.

(** ** Exceptions and the outcome of a call *)

(** What a [catch] clause can receive, by the classes index.ts tells apart
    with [instanceof]. *)
Inductive exn :=
  | ZodError (errors : list string)
  | KnownError (message : string)
  | OtherError (what : string).

(** A call returns, or throws; for an async function, its promise is
    fulfilled or rejected. *)
Inductive completion (A : Type) :=
  | Returns (a : A)
  | Throws (e : exn).
Arguments Returns {A} a.
Arguments Throws {A} e.

(** ** arr-union *)

Module ArrUnion.

(** [init.indexOf(ele) >= 0]. *)
Definition found (init : list value) (ele : value) : bool :=
  existsb (strict_eq ele) init.

(** The body of the inner loop: [if (init.indexOf(ele) >= 0) continue;
    init.push(ele)]. *)
Definition push_new (init : list value) (ele : value) : list value :=
  if found init ele then init else init ++ [ele].

(** One argument: skipped when falsy, wrapped in an array when it is not
    one, then pushed element by element. *)
Definition add_arg (init : list value) (arg : value) : list value :=
  if truthy arg then
    foldl push_new init (match arg with VArr l => l | _ => [arg] end)
  else init.

(** [union(init, ...args)]. *)
Definition union (init : list value) (args : list value) : list value :=
  foldl add_arg init args.

End ArrUnion.

(** ** merge-deep *)

Module MergeDeep.

(** [isValidKey]. *)
Definition isValidKey (key : string) : bool :=
  negb (String.eqb key "__proto__")
  && negb (String.eqb key "constructor")
  && negb (String.eqb key "prototype").

(** [clone-deep] builds a copy, property by property ([res[key] =
    cloneDeep(val)]) and element by element, of what it takes for a plain
    object or an array, and returns everything else as it is.  For a value
    that is [ordinary] the copy is structurally equal (an assignment to
    [__proto__] would set the prototype of the copy); on trees, which have
    no identity, it is the value. *)
Definition clone (val : value) : value := val.

(** The [for (key in obj)] loop of [merge(target, obj)], given for every key
    of [obj] the function from the old [target[key]] to the new one: invalid
    keys are skipped, keys of [target] that [obj] lacks stay.  [target[key]]
    is the own property of [target], or [undefined]: so JavaScript reads it
    for every [key] that is not one of [inherited_names]. *)
Definition merge_loop (assign : gmap string (value → value))
    (target : gmap string value) : gmap string value :=
  base.merge
    (λ newVal f,
       match f with
       | Some f => Some (f (default VUndef newVal))
       | None => newVal
       end)
    target
    (filter (λ kf, isValidKey kf.1 = true) assign).

(** The value assigned to [target[key]], from [oldVal = obj[key]] and
    [newVal = target[key]] (named as in merge-deep):
    [[
      if (isObject(newVal) && isObject(oldVal)) target[key] = merge(newVal, oldVal);
      else if (Array.isArray(newVal)) target[key] = union([], newVal, oldVal);
      else target[key] = clone(oldVal);
    ]] *)
Fixpoint assign (oldVal : value) (newVal : value) {struct oldVal} : value :=
  match newVal, oldVal with
  | VObj t, VObj o =>
      if isObject newVal && isObject oldVal
      then VObj (merge_loop (assign <$> o) t)
      else clone oldVal
  | VArr _, _ => VArr (ArrUnion.union [] [newVal; oldVal])
  | _, _ => clone oldVal
  end.

(** [merge(target, obj)]. *)
Definition merge (target : gmap string value) (obj : value)
    : gmap string value :=
  merge_loop (assign <$> own_props obj) target.

(** [mergeDeep({}, ...objects)]: every call of index.ts passes a new empty
    object first, so [target = clone({})]; then each argument that is an
    object or an array is merged into [target], the others are skipped. *)
Definition mergeDeep (objects : list value) : value :=
  VObj (foldl
          (λ target val,
             if isObject val || isArray val then merge target val
             else target)
          ∅ objects).

End MergeDeep.

(** ** The ZodFig class on trees *)

Module Tree.
Section ZodFig.

(** The zod object schema and its [merge] method are taken as given. *)
Context {schema : Type} (schema_merge : schema → schema → schema).

(** [class ZodFig { readonly _schema; readonly _config }].  The
    constructor's [Object.freeze] leaves the value as it is (see [Store] for
    what it changes). *)
Record ZodFig := new_ZodFig { _schema : schema; _config : value }.

(** [merge(merging)]. *)
Definition merge (this merging : ZodFig) : ZodFig :=
  new_ZodFig
    (schema_merge (_schema this) (_schema merging))
    (MergeDeep.mergeDeep
       [nullish_or (_config this) (VObj ∅);
        nullish_or (_config merging) (VObj ∅)]).

(** [override(config)]. *)
Definition override (this : ZodFig) (config : value) : ZodFig :=
  new_ZodFig (_schema this) (MergeDeep.mergeDeep [_config this; config]).

(** [overrideAync(overrider)]: [this.override(await overrider(this._config))].
    The overrider is given by the outcome of its promise. *)
Definition overrideAync (this : ZodFig)
    (overrider : value → completion value) : completion ZodFig :=
  match overrider (_config this) with
  | Returns config => Returns (override this config)
  | Throws e => Throws e
  end.

End ZodFig.
End Tree.

Arguments Tree.ZodFig schema : clear implicits.

(** ** Field paths and data values *)

(** The value found by following the field names [path] from [v]. *)
Fixpoint at_path (v : value) (path : list string) : option value :=
  match path with
  | [] => Some v
  | key :: path' =>
      match v with
      | VObj m => m !! key ≫= λ x, at_path x path'
      | _ => None
      end
  end.

(** [path] is a field path of [v]. *)
Definition has_path (v : value) (path : list string) : Prop :=
  path ≠ [] ∧ is_Some (at_path v path).

(** A data value of a ConfigUnit: a mapping, or absent. *)
Definition is_data (d : value) : Prop :=
  match d with VUndef | VNull | VObj _ => True | _ => False end.


(** The fields of a data value, none when it is absent. *)
Definition data_fields (d : value) : gmap string value :=
  match d with VObj m => m | _ => ∅ end.







(** ** The deep merge as the specification words it *)

Module Spec.



End Spec.

(** ** Objects with identity: the heap *)

Module Store.

(** A location of the heap: the identity of an object or array. *)
Abbreviation loc := nat.

(** A value as a variable or a property holds it: a primitive, or a
    reference to an object or array of the heap. *)
Inductive val :=
  | Undef
  | Null
  | Bool (b : bool)
  | Num (n : number)
  | Str (s : string)
  | Ref (l : loc).

(** What an object is made of: the properties of a plain object, the
    elements of an array. *)
Inductive body :=
  | Object (props : gmap string val)
  | Array (elems : list val).

(** An object of the heap, with the flag that [Object.freeze] sets. *)
Record cell := Cell { frozen : bool; content : body }.

(** The heap: the cell of location [l] is [h !! l]; a new object goes to
    the end. *)
Abbreviation heap := (list cell).

(** An object or array literal, or [new]. *)
Definition alloc (h : heap) (b : body) : heap * loc :=
  (h ++ [Cell false b], length h).

Definition truthy (v : val) : bool :=
  match v with
  | Undef | Null => false
  | Bool b => b
  | Num (Finite z) => negb (z =? 0)%Z
  | Num NaN => false
  | Str s => negb (String.eqb s "")
  | Ref _ => true
  end.

(** is-buffer on the properties of an object: [!!val._isBuffer]. *)
Definition isBuffer (m : gmap string val) : bool :=
  truthy (default Undef (m !! "_isBuffer")).

(** merge-deep's [isObject]: an object that kind-of does not take for a
    buffer. *)
Definition isObject (h : heap) (v : val) : bool :=
  match v with
  | Ref l =>
      match h !! l with
      | Some (Cell _ (Object m)) => negb (isBuffer m)
      | _ => false
      end
  | _ => false
  end.

(** is-plain-object, of an object whose prototype is [Object.prototype]:
    [typeof o.constructor === 'function'] holds of the inherited
    [constructor] and fails when [o] has a property [constructor] of its own
    (no value here is a function). *)
Definition isPlainObject (m : gmap string val) : bool :=
  bool_decide (m !! "constructor" = None).

Definition isArray (h : heap) (v : val) : bool :=
  match v with
  | Ref l => match h !! l with Some (Cell _ (Array _)) => true | _ => false end
  | _ => false
  end.

(** [x === y]: references are equal when they are the same location. *)
Definition strict_eq (x y : val) : bool :=
  match x, y with
  | Undef, Undef => true
  | Null, Null => true
  | Bool a, Bool b => Bool.eqb a b
  | Num (Finite a), Num (Finite b) => (a =? b)%Z
  | Str a, Str b => String.eqb a b
  | Ref a, Ref b => Nat.eqb a b
  | _, _ => false
  end.

(** The own enumerable properties of [v]. *)
Definition props_of (h : heap) (v : val) : gmap string val :=
  match v with
  | Ref l =>
      match h !! l with
      | Some (Cell _ (Object m)) => m
      | Some (Cell _ (Array es)) => list_to_map (imap (λ i x, (pretty i, x)) es)
      | None => ∅
      end
  | _ => ∅
  end.

(** [v[key]]. *)
Definition get (h : heap) (v : val) (key : string) : val :=
  default Undef (props_of h v !! key).

(** The elements of an array. *)
Definition elems_of (h : heap) (v : val) : list val :=
  match v with
  | Ref l => match h !! l with Some (Cell _ (Array es)) => es | _ => [] end
  | _ => []
  end.

(** [Object.freeze(v)]: sets the flag of the object [v] refers to, and of
    that object only; a primitive is left alone. *)
Definition freeze (h : heap) (v : val) : heap :=
  match v with
  | Ref l => alter (λ c, Cell true (content c)) l h
  | _ => h
  end.

(** [target[key] = v] on a plain object, in code that is not strict: on a
    frozen object the assignment changes nothing. *)
Definition set (h : heap) (target : val) (key : string) (v : val) : heap :=
  match target with
  | Ref l =>
      match h !! l with
      | Some (Cell false (Object m)) =>
          <[l := Cell false (Object (<[key := v]> m))]> h
      | _ => h
      end
  | _ => h
  end.

(** [target[key] = v] in strict code: on a frozen object the assignment
    throws a TypeError ([None]). *)
Definition set_strict (h : heap) (target : val) (key : string) (v : val)
    : option heap :=
  match target with
  | Ref l =>
      match h !! l with
      | Some (Cell true _) => None
      | _ => Some (set h target key v)
      end
  | _ => Some (set h target key v)
  end.

(** [delete target[key]]. *)
Definition delete_prop (h : heap) (target : val) (key : string) : heap :=
  match target with
  | Ref l =>
      match h !! l with
      | Some (Cell false (Object m)) =>
          <[l := Cell false (Object (delete key m))]> h
      | _ => h
      end
  | _ => h
  end.

(** [target.push(v)]. *)
Definition push (h : heap) (target : val) (v : val) : heap :=
  match target with
  | Ref l =>
      match h !! l with
      | Some (Cell false (Array es)) => <[l := Cell false (Array (es ++ [v]))]> h
      | _ => h
      end
  | _ => h
  end.

(** [target[i] = v] on an array; past the end the array grows, the holes
    reading as [undefined]. *)
Definition set_index (h : heap) (target : val) (i : nat) (v : val) : heap :=
  match target with
  | Ref l =>
      match h !! l with
      | Some (Cell false (Array es)) =>
          let es' :=
            if decide (i < length es) then <[i := v]> es
            else es ++ replicate (i - length es) Undef ++ [v] in
          <[l := Cell false (Array es')]> h
      | _ => h
      end
  | _ => h
  end.

(** What a program holding references can do to the heap. *)
Inductive mutation :=
  | Assign (target : val) (key : string) (v : val)
  | Delete (target : val) (key : string)
  | Push (target : val) (v : val)
  | AssignIndex (target : val) (i : nat) (v : val)
  | Freeze (target : val)
  | New (b : body).

Definition mutate (h : heap) (m : mutation) : heap :=
  match m with
  | Assign target key v => set h target key v
  | Delete target key => delete_prop h target key
  | Push target v => push h target v
  | AssignIndex target i v => set_index h target i v
  | Freeze target => freeze h target
  | New b => fst (alloc h b)
  end.

(** The tree a value stands for, read through at most [fuel] references. *)
Fixpoint snapshot (fuel : nat) (h : heap) (v : val) : value :=
  match v with
  | Undef => VUndef
  | Null => VNull
  | Bool b => VBool b
  | Num n => VNum n
  | Str s => VStr s
  | Ref l =>
      match fuel with
      | 0 => VUndef
      | S fuel =>
          match h !! l with
          | Some (Cell _ (Object m)) => VObj (snapshot fuel h <$> m)
          | Some (Cell _ (Array es)) => VArr (snapshot fuel h <$> es)
          | None => VUndef
          end
      end
  end.

(** [v] and everything reachable from it exists in [h], within [n]
    references (no cycle, no dangling reference), and every object reached
    has ordinary property names only. *)
Fixpoint plain (n : nat) (h : heap) (v : val) : Prop :=
  match v with
  | Ref l =>
      match n with
      | 0 => False
      | S n =>
          match h !! l with
          | Some (Cell _ (Object m)) =>
              map_Forall (λ key x, ordinary_key key = true ∧ plain n h x) m
          | Some (Cell _ (Array es)) => Forall (plain n h) es
          | None => False
          end
      end
  | _ => True
  end.

Fixpoint plainb (n : nat) (h : heap) (v : val) : bool :=
  match v with
  | Ref l =>
      match n with
      | 0 => false
      | S n =>
          match h !! l with
          | Some (Cell _ (Object m)) =>
              bool_decide
                (map_Forall (λ key x, ordinary_key key && plainb n h x = true)
                   m)
          | Some (Cell _ (Array es)) => forallb (plainb n h) es
          | None => false
          end
      end
  | _ => true
  end.

(** With respect to a base heap [hb], the heap before a call: a value is
    new when it is a primitive or refers to an object made after [hb]. *)
Definition fresh_or_prim (hb : heap) (v : val) : Prop :=
  match v with Ref l => length hb ≤ l | _ => True end.

(** No object made after [hb] is frozen, and none has a property that
    refers to an object of [hb] that [isObject] accepts. *)
Definition closed_above (hb h : heap) : Prop :=
  (∀ l c, length hb ≤ l → h !! l = Some c → frozen c = false)
  ∧ ∀ l fz m key l',
      length hb ≤ l → h !! l = Some (Cell fz (Object m)) →
      m !! key = Some (Ref l') → l' < length hb →
      isObject hb (Ref l') = false.

(** What is a plain object in [h] is one in [h']. *)
Definition keeps_objects (h h' : heap) : Prop :=
  ∀ v, isObject h v = true → isObject h' v = true.

(** *** clone-deep, arr-union and merge-deep on the heap

    [None] is a call that does not return: a recursion deeper than [fuel],
    or the TypeError of an assignment to a property of a frozen object
    (merge-deep is strict code). *)

Module Lib.

(** [cloneDeep(val)]: what kind-of calls an object and is-plain-object
    accepts is copied into a new object, property by property; an array is
    copied element by element; everything else is returned as it is: a
    primitive, and also an object that passes is-buffer or has a property
    [constructor] of its own, which the result then shares. *)
Fixpoint cloneDeep (fuel : nat) (h : heap) (v : val) : option (heap * val) :=
  match v with
  | Ref l =>
      match fuel with
      | 0 => None
      | S fuel =>
          match h !! l with
          | Some (Cell _ (Object m)) =>
              if negb (isBuffer m) && isPlainObject m then
                let '(h, res) := alloc h (Object ∅) in
                h ← map_fold
                      (λ key v acc,
                         h ← acc;
                         '(h, c) ← cloneDeep fuel h v;
                         Some (set h (Ref res) key c))
                      (Some h) m;
                Some (h, Ref res)
              else Some (h, v)
          | Some (Cell _ (Array es)) =>
              let '(h, res) := alloc h (Array []) in
              h ← foldl
                    (λ acc v,
                       h ← acc;
                       '(h, c) ← cloneDeep fuel h v;
                       Some (push h (Ref res) c))
                    (Some h) es;
              Some (h, Ref res)
          | None => None
          end
      end
  | _ => Some (h, v)
  end.

(** arr-union's [init.indexOf(ele) >= 0]. *)
Definition found (init : list val) (ele : val) : bool :=
  existsb (strict_eq ele) init.

Definition push_new (init : list val) (ele : val) : list val :=
  if found init ele then init else init ++ [ele].

Definition add_arg (h : heap) (init : list val) (arg : val) : list val :=
  if truthy arg then
    foldl push_new init (if isArray h arg then elems_of h arg else [arg])
  else init.

(** [union([], ...args)]: the new array [[]] with what is pushed to it. *)
Definition union (h : heap) (args : list val) : heap * val :=
  let '(h, res) := alloc h (Array (foldl (add_arg h) [] args)) in
  (h, Ref res).

(** [merge(target, obj)], for a [target] that is a plain object.
    [target[key]] is read among the own properties of [target]. *)
Fixpoint merge (fuel : nat) (h : heap) (target : val) (obj : val)
    : option heap :=
  match fuel with
  | 0 => None
  | S fuel =>
      map_fold
        (λ key oldVal acc,
           h ← acc;
           if MergeDeep.isValidKey key then
             let newVal := get h target key in
             if isObject h newVal && isObject h oldVal then
               h ← merge fuel h newVal oldVal;
               set_strict h target key newVal
             else if isArray h newVal then
               let '(h, r) := union h [newVal; oldVal] in
               set_strict h target key r
             else
               '(h, r) ← cloneDeep fuel h oldVal;
               set_strict h target key r
           else Some h)
        (Some h) (props_of h obj)
  end.

(** [mergeDeep(orig, ...objects)]. *)
Definition mergeDeep (fuel : nat) (h : heap) (orig : val) (objects : list val)
    : option (heap * val) :=
  let '(h, orig) :=
    if isObject h orig || isArray h orig then (h, orig)
    else let '(h, l) := alloc h (Object ∅) in (h, Ref l) in
  '(h, target) ← cloneDeep fuel h orig;
  h ← foldl
        (λ acc v,
           h ← acc;
           if isObject h v || isArray h v then merge fuel h target v
           else Some h)
        (Some h) objects;
  Some (h, target).

End Lib.

(** *** The ZodFig class on the heap *)

Section ZodFig.

Context {schema : Type} (schema_merge : schema → schema → schema).

(** An instance: its two [readonly] fields.  [_config] is a reference into
    the heap (or [undefined]). *)
Record ZodFig := Instance { _schema : schema; _config : val }.

(** [constructor(_schema, _config) { if (this._config) Object.freeze(this._config); }] *)
Definition new_ZodFig (h : heap) (s : schema) (c : val) : heap * ZodFig :=
  (if truthy c then freeze h c else h, Instance s c).

(** [x ?? {}]. *)
Definition or_empty_object (h : heap) (x : val) : heap * val :=
  match x with
  | Undef | Null => let '(h, l) := alloc h (Object ∅) in (h, Ref l)
  | _ => (h, x)
  end.

(** [merge(merging)]. *)
Definition merge (fuel : nat) (h : heap) (this merging : ZodFig)
    : option (heap * ZodFig) :=
  let s := schema_merge (_schema this) (_schema merging) in
  let '(h, orig) := alloc h (Object ∅) in
  let '(h, x) := or_empty_object h (_config this) in
  let '(h, y) := or_empty_object h (_config merging) in
  '(h, r) ← Lib.mergeDeep fuel h (Ref orig) [x; y];
  Some (new_ZodFig h s r).

(** [override(config)]. *)
Definition override (fuel : nat) (h : heap) (this : ZodFig) (config : val)
    : option (heap * ZodFig) :=
  let '(h, orig) := alloc h (Object ∅) in
  '(h, r) ← Lib.mergeDeep fuel h (Ref orig) [_config this; config];
  Some (new_ZodFig h (_schema this) r).

(** An overrider: from the heap and the data it is passed, what it does to
    the heap and how its promise settles. *)
Definition overrider := heap → val → list mutation * completion val.

(** [overrideAync(overrider)]. *)
Definition overrideAync (fuel : nat) (h : heap) (this : ZodFig)
    (f : overrider) : option (heap * completion ZodFig) :=
  let '(ms, settled) := f h (_config this) in
  let h := foldl mutate h ms in
  match settled with
  | Returns config =>
      '(h, u) ← override fuel h this config; Some (h, Returns u)
  | Throws e => Some (h, Throws e)
  end.

End ZodFig.

End Store.

Arguments Store.ZodFig schema : clear implicits.

(** ** The command line: [run] and [go] *)

Module Cli.

(** What [run] does to the outside, in order. *)
Inductive effect :=
  | ConsoleLog (line : string)
  | ConsoleLogErrors (errors : list string)
  | ConsoleLogJson (parsed : value)
  | ConsoleLogThrown (e : exn)
  | Require (filepath : string)
  | CallFactory
  | Parse (config : value)
  | Write (parsed : value).

(** A computation: the effects so far, and how it completed. *)
Definition M (A : Type) : Type := list effect * completion A.

Definition ret {A : Type} (a : A) : M A := ([], Returns a).

Definition bind {A B : Type} (m : M A) (k : A → M B) : M B :=
  match m with
  | (t, Returns a) => let '(t', r) := k a in (t ++ t', r)
  | (t, Throws e) => (t, Throws e)
  end.

#[local] Instance M_ret : MRet M := @ret.
#[local] Instance M_bind : MBind M := λ A B k m, bind m k.

(** One effect. *)
Definition emit (e : effect) : M unit := ([e], Returns tt).

(** [throw e]. *)
Definition throw {A : Type} (e : exn) : M A := ([], Throws e).

(** A call into a collaborator, after the effect that records it. *)
Definition call {A : Type} (e : effect) (c : completion A) : M A :=
  ([e], c).

(** [try { body } catch (e) { handler }]. *)
Definition try_catch {A : Type} (body : M A) (handler : exn → M A) : M A :=
  match body with
  | (t, Returns a) => (t, Returns a)
  | (t, Throws e) => let '(t', r) := handler e in (t ++ t', r)
  end.

(** How a block ends when it does not throw: at its end, or by [return]. *)
Inductive control := Fallthrough | Return.

Section Run.

(** The collaborators: the schema's [parse], [fs.existsSync], [require]
    (after [delete require.cache[filepath]]) and [write]. *)
Context {schema : Type}.
Context (parse : schema → value → completion value).
Context (existsSync : string → bool).

(** What a config file exports as [default]: a function, given by the
    outcome of awaiting its call ([None]: a value that is not a ZodFig, on
    which [zodfig._schema.parse] is a TypeError), or something else. *)
Inductive exported :=
  | Function (called : completion (option (Tree.ZodFig schema)))
  | NotFunction.

Context (require : string → completion exported).
Context (write : value → completion unit).

(** The module variable [isWatching]; the binding of the identifier [runIn],
    which index.ts neither declares nor imports ([None]: there is none, and
    evaluating it is a ReferenceError); the imported [INITIAL_WORKING_DIR]. *)
Context (isWatching : bool).
Context (runIn : option string).
Context (INITIAL_WORKING_DIR : string).

(** The [try] block of [run]. *)
Definition run_try (filepath : string) (print : bool) : M control :=
  if negb (existsSync filepath) then mret Return
  else
    emit (ConsoleLog ("Writing config for " +:+ filepath));;
    fn ← call (Require filepath) (require filepath);
    match fn with
    | NotFunction =>
        throw (KnownError
                 ("Expected " +:+ filepath +:+ " to export default function."))
    | Function called =>
        zodfig ← call CallFactory called;
        match zodfig with
        | None => throw (OtherError "TypeError")
        | Some zodfig =>
            parsed ← call (Parse (Tree._config zodfig))
                       (parse (Tree._schema zodfig) (Tree._config zodfig));
            (if print then emit (ConsoleLogJson parsed) else mret tt);;
            call (Write parsed) (write parsed);;
            emit (ConsoleLog ("Config files written for " +:+ filepath));;
            mret Fallthrough
        end
    end.

(** The [catch] clause of [run]. *)
Definition run_catch (e : exn) : M control :=
  match e with
  | ZodError errors =>
      emit (ConsoleLog
              ("Zod validation error"
               +:+ (if decide (1 < length errors) then "s" else "")));;
      emit (ConsoleLogErrors errors);;
      mret Fallthrough
  | KnownError message =>
      emit (ConsoleLog message);;
      mret Fallthrough
  | OtherError _ =>
      emit (ConsoleLogThrown e);;
      mret Fallthrough
  end.

(** The statement after the [try] statement, lines 175 to 177:
    [if (isWatching && runIn === INITIAL_WORKING_DIR) console.log(...)]. *)
Definition run_after : M unit :=
  if isWatching then
    match runIn with
    | None => throw (OtherError "ReferenceError")
    | Some dir =>
        if String.eqb dir INITIAL_WORKING_DIR
        then emit (ConsoleLog "Waiting for changes...")
        else mret tt
    end
  else mret tt.

(** [run(filepath, print)]: the [try] statement, then the statement after
    it, which a [return] inside the [try] skips. *)
Definition run (filepath : string) (print : bool) : M unit :=
  c ← try_catch (run_try filepath print) run_catch;
  match c with
  | Return => mret tt
  | Fallthrough => run_after
  end.

End Run.

(** *** [go] and the watcher *)

(** The double quote character. *)
Definition quote : string := String (Ascii.ascii_of_nat 34) EmptyString.

(** The variables [go] closes over ([going], [shouldRego], [activeCmd]), the
    module variable [isWatching], the [ready] flag of each file's watcher, and
    the event loop around them: the [setTimeout(go, 0)] callbacks not yet
    called, the calls of [run] awaited and not yet settled, the file of every
    [run] started so far, the calls of [go] that ended in an exception,
    whether the process is over, and the console. *)
Record state := State {
  going : bool;
  shouldRego : bool;
  activeCmd : option string;
  isWatching : bool;
  ready : string → bool;
  timers : nat;
  in_flight : nat;
  runs : list (option string);
  rejected : nat;
  exited : bool;
  console : list string
}.

Definition initial : state :=
  State false false None false (λ _, false) 0 0 [] 0 false [].

(** Assignments to one variable. *)
Definition set_going (b : bool) (st : state) : state :=
  State b (shouldRego st) (activeCmd st) (isWatching st) (ready st)
    (timers st) (in_flight st) (runs st) (rejected st) (exited st)
    (console st).

Definition set_shouldRego (b : bool) (st : state) : state :=
  State (going st) b (activeCmd st) (isWatching st) (ready st)
    (timers st) (in_flight st) (runs st) (rejected st) (exited st)
    (console st).

Definition set_activeCmd (c : option string) (st : state) : state :=
  State (going st) (shouldRego st) c (isWatching st) (ready st)
    (timers st) (in_flight st) (runs st) (rejected st) (exited st)
    (console st).

Definition set_isWatching (b : bool) (st : state) : state :=
  State (going st) (shouldRego st) (activeCmd st) b (ready st)
    (timers st) (in_flight st) (runs st) (rejected st) (exited st)
    (console st).

Definition set_ready (file : string) (st : state) : state :=
  State (going st) (shouldRego st) (activeCmd st) (isWatching st)
    (λ f, if String.eqb f file then true else ready st f)
    (timers st) (in_flight st) (runs st) (rejected st) (exited st)
    (console st).

Definition set_timers (n : nat) (st : state) : state :=
  State (going st) (shouldRego st) (activeCmd st) (isWatching st) (ready st)
    n (in_flight st) (runs st) (rejected st) (exited st) (console st).

(** [await run(filepath, ...)]: a run starts. *)
Definition start_run (filepath : option string) (st : state) : state :=
  State (going st) (shouldRego st) (activeCmd st) (isWatching st) (ready st)
    (timers st) (S (in_flight st)) (runs st ++ [filepath]) (rejected st)
    (exited st) (console st).

(** The awaited run is over. *)
Definition end_run (st : state) : state :=
  State (going st) (shouldRego st) (activeCmd st) (isWatching st) (ready st)
    (timers st) (pred (in_flight st)) (runs st) (rejected st) (exited st)
    (console st).

(** A call of [go] ends in an exception: its promise is rejected.  Nothing
    handles it ([command.parse()] drops the promise of the action, the
    watcher's handler and [setTimeout] drop that of [go]), and Node, from
    version 15, ends the process on an unhandled rejection. *)
Definition reject (st : state) : state :=
  State (going st) (shouldRego st) (activeCmd st) (isWatching st) (ready st)
    (timers st) (in_flight st) (runs st) (S (rejected st)) true
    (console st).

(** [process.exit()]. *)
Definition exit (st : state) : state :=
  State (going st) (shouldRego st) (activeCmd st) (isWatching st) (ready st)
    (timers st) (in_flight st) (runs st) (rejected st) true (console st).

(** [console.log(line)]. *)
Definition log (line : string) (st : state) : state :=
  State (going st) (shouldRego st) (activeCmd st) (isWatching st) (ready st)
    (timers st) (in_flight st) (runs st) (rejected st) (exited st)
    (console st ++ [line]).

(** [if (activeCmd) { console.log(`Stopping ...`); activeCmd.childProc.kill(...) }] *)
Definition stop_activeCmd (st : state) : state :=
  match activeCmd st with
  | Some name =>
      log ("Stopping " +:+ quote +:+ name +:+ quote +:+ " via SIGTERM") st
  | None => st
  end.

(** At most one run is awaited at a time, and while one is awaited [going]
    is set. *)
Definition one_run_at_a_time (st : state) : Prop :=
  in_flight st ≤ 1 ∧ (in_flight st = 1 → going st = true).

(** [going] is set while nothing is awaited and no timer is due. *)
Definition wedged (st : state) : Prop :=
  going st = true ∧ in_flight st = 0 ∧ timers st = 0.

(** What the event loop delivers: the action's own call [await
    go(configFiles)] (line 142); an event [eventName] of chokidar on [file];
    the [ready] event of a file's watcher; the awaited [run] fulfilled, or
    rejected; a [setTimeout(go, 0)] callback that is due. *)
Inductive event :=
  | Started
  | Fs (file : string) (eventName : string)
  | Ready (file : string)
  | RunSettled
  | RunRejected
  | TimerFired.

Section Go.

(** The action's arguments ([command] is [None] when it is falsy), the
    scanned files and the imported [TOOL_NAME]. *)
Context (command : option string) (watch : bool) (configFiles : list string).
Context (TOOL_NAME : string).

(** [go(filepaths)] up to its [await], lines 77 to 90; [filepaths] is [None]
    when [go] is called without argument, and then [filepaths[0]] is a
    TypeError. *)
Definition go (filepaths : option (list string)) (st : state) : state :=
  if going st then set_shouldRego true st
  else
    let st := if shouldRego st then set_shouldRego false st else st in
    let st := stop_activeCmd st in
    let st := set_going true st in
    let st := set_isWatching watch st in
    match filepaths with
    | None => reject st
    | Some filepaths => start_run (head filepaths) st
    end.

(** [go] after its [await], lines 91 to 109.  (The child's [exit] handler
    only acts when [watch] is off.) *)
Definition go_resume (st : state) : state :=
  let st := end_run st in
  let spawned :=
    match command with
    | Some command =>
        Some
          (set_activeCmd (Some command)
             (log (match activeCmd st with Some _ => "re-" | None => "" end
                   +:+ "running " +:+ quote +:+ command +:+ quote)
                st))
    | None => if watch then Some st else None
    end in
  match spawned with
  | None => exit st
  | Some st =>
      let st :=
        if shouldRego st then set_timers (S (timers st)) st else st in
      set_going false st
  end.

(** The handler of the watcher of [file], lines 119 to 137. *)
Definition on_all (file eventName : string) (st : state) : state :=
  if String.eqb eventName "add" || String.eqb eventName "change" then
    if String.eqb eventName "add" && negb (ready st file) then st
    else
      go (Some configFiles)
        (log ("Detected " +:+ eventName +:+ " for " +:+ TOOL_NAME +:+ ".ts")
           st)
  else
    exit
      (stop_activeCmd
         (log ("Detected " +:+ eventName +:+ " for " +:+ TOOL_NAME
               +:+ ".ts (halting watch)")
            st)).

(** One turn of the event loop.  An event that cannot happen in [st] (an
    event of a file that is not watched, a settled run when none is awaited,
    a timer when none is set, anything after the exit) leaves it as it is. *)
Definition step (st : state) (ev : event) : state :=
  if exited st then st
  else
    match ev with
    | Started => go (Some configFiles) st
    | Fs file eventName =>
        if watch && existsb (String.eqb file) configFiles
        then on_all file eventName st
        else st
    | Ready file =>
        if watch && existsb (String.eqb file) configFiles
        then set_ready file st
        else st
    | RunSettled =>
        match in_flight st with
        | 0 => st
        | S _ => go_resume st
        end
    | RunRejected =>
        match in_flight st with
        | 0 => st
        | S _ => reject (end_run st)
        end
    | TimerFired =>
        match timers st with
        | 0 => st
        | S n => go None (set_timers n st)
        end
    end.

(** The state after a sequence of events. *)
Definition exec (st : state) (evs : list event) : state := foldl step st evs.

End Go.

End Cli.

(** ** Concrete inputs *)

Module Examples.

Definition no_schema_merge (_ _ : unit) : unit := tt.

Definition db_host : Tree.ZodFig unit :=
  Tree.new_ZodFig tt
    (VObj {[ "db" := VObj {[ "host" := VStr "h1"; "port" := VNum 1 ]} ]}).

Definition db_port : Tree.ZodFig unit :=
  Tree.new_ZodFig tt (VObj {[ "db" := VObj {[ "port" := VNum 2 ]} ]}).

Definition x_y : Tree.ZodFig unit :=
  Tree.new_ZodFig tt (VObj {[ "x" := VNum 1; "y" := VNum 2 ]}).

Definition tags_ab : Tree.ZodFig unit :=
  Tree.new_ZodFig tt (VObj {[ "tags" := VArr [VStr "a"; VStr "b"] ]}).

Definition tags_x : Tree.ZodFig unit :=
  Tree.new_ZodFig tt (VObj {[ "tags" := VArr [VStr "x"] ]}).


(** Collaborators of [run]: only [zodfig.ts] exists; it exports a factory
    that returns [db_host]. *)
Definition existsSync (filepath : string) : bool :=
  String.eqb filepath "zodfig.ts".

Definition require (filepath : string)
    : completion (Cli.exported (schema:=unit)) :=
  Returns (Cli.Function (Returns (Some db_host))).

Definition write (parsed : value) : completion unit := Returns tt.

(** A schema that accepts every value as it is, and one that rejects every
    value. *)
Definition parse_any (_ : unit) (config : value) : completion value :=
  Returns config.

Definition parse_none (_ : unit) (config : value) : completion value :=
  Throws (ZodError ["db.port: Expected string, received number"]).

(** A heap with the data [{db: {port: 1}}]: the nested object at location 0,
    the data object at location 1. *)
Definition nested_heap : Store.heap :=
  [Store.Cell false (Store.Object {[ "port" := Store.Num 1 ]});
   Store.Cell false (Store.Object {[ "db" := Store.Ref 0 ]})].

(** The unit constructed with that data, and the heap after its
    construction. *)
Definition nested_unit : Store.heap * Store.ZodFig unit :=
  Store.new_ZodFig nested_heap tt (Store.Ref 1).


(** [d.db = null], an assignment to a top-level field. *)
Definition write_top : Store.mutation :=
  Store.Assign (Store.Ref 1) "db" Store.Null.

(** An overrider that writes into the nested object of the data it is
    passed, and then fails. *)
Definition failing_overrider : Store.overrider :=
  λ h config,
    ([Store.Assign (Store.get h config "db") "port" (Store.Num 2)],
     Throws (OtherError "boom")).

(** An overrider that returns a new object [{tags: ['x']}]. *)
Definition tags_overrider : Store.overrider :=
  λ h config,
    ([Store.New (Store.Array [Store.Str "x"]);
      Store.New (Store.Object {[ "tags" := Store.Ref (length h) ]})],
     Returns (Store.Ref (S (length h)))).

(** A heap with the data [{tags: ['a', 'b']}] at location 1, and its unit. *)
Definition tags_heap : Store.heap :=
  [Store.Cell false (Store.Array [Store.Str "a"; Store.Str "b"]);
   Store.Cell false (Store.Object {[ "tags" := Store.Ref 0 ]})].

Definition tags_unit : Store.heap * Store.ZodFig unit :=
  Store.new_ZodFig tags_heap tt (Store.Ref 1).

(** A heap in which the sequence of [c]'s field [t] holds the same object
    twice: the object [{id: 1}] at location 0; [a]'s data [{t: [0]}] at
    location 2, [b]'s data [{}] at location 3, [c]'s data [{t: [o, o]}] at
    location 5. *)
Definition shared_heap : Store.heap :=
  [Store.Cell false (Store.Object {[ "id" := Store.Num 1 ]});
   Store.Cell false (Store.Array [Store.Num 0]);
   Store.Cell false (Store.Object {[ "t" := Store.Ref 1 ]});
   Store.Cell false (Store.Object ∅);
   Store.Cell false (Store.Array [Store.Ref 0; Store.Ref 0]);
   Store.Cell false (Store.Object {[ "t" := Store.Ref 4 ]})].

(** The same, with two objects [{id: 1}], at locations 0 and 6. *)
Definition unshared_heap : Store.heap :=
  [Store.Cell false (Store.Object {[ "id" := Store.Num 1 ]});
   Store.Cell false (Store.Array [Store.Num 0]);
   Store.Cell false (Store.Object {[ "t" := Store.Ref 1 ]});
   Store.Cell false (Store.Object ∅);
   Store.Cell false (Store.Array [Store.Ref 0; Store.Ref 6]);
   Store.Cell false (Store.Object {[ "t" := Store.Ref 4 ]});
   Store.Cell false (Store.Object {[ "id" := Store.Num 1 ]})].

Definition unit_a : Store.ZodFig unit := Store.Instance tt (Store.Ref 2).
Definition unit_b : Store.ZodFig unit := Store.Instance tt (Store.Ref 3).
Definition unit_c : Store.ZodFig unit := Store.Instance tt (Store.Ref 5).

(** The data of [(a.merge(b)).merge(c)] and of [a.merge(b.merge(c))], read
    back as trees. *)
Definition merge_left (h : Store.heap) (a b c : Store.ZodFig unit)
    : option value :=
  '(h, ab) ← Store.merge no_schema_merge 4 h a b;
  '(h, r) ← Store.merge no_schema_merge 4 h ab c;
  Some (Store.snapshot 4 h (Store._config r)).

Definition merge_right (h : Store.heap) (a b c : Store.ZodFig unit)
    : option value :=
  '(h, bc) ← Store.merge no_schema_merge 4 h b c;
  '(h, r) ← Store.merge no_schema_merge 4 h a bc;
  Some (Store.snapshot 4 h (Store._config r)).

End Examples.

(** ** Notions used to state further properties *)

(** A value that [===] compares by value: neither an object nor an array. *)
Definition is_primitive (v : value) : bool :=
  match v with VObj _ | VArr _ => false | _ => true end.

(** [l] without the elements that are [===] to an earlier element of [l]:
    the element [e] at index [j] stays unless one of the [j] elements before
    it is [===] to it. *)
Definition without_repeats (l : list value) : list value :=
  omap (λ je, if existsb (strict_eq je.2) (take je.1 l) then None
              else Some je.2)
    (imap pair l).

(** What arr-union adds for one argument: its elements if it is an array,
    nothing if it is falsy, itself otherwise. *)
Definition added (y : value) : list value :=
  match y with
  | VArr ys => ys
  | _ => if truthy y then [y] else []
  end.

(** The properties of an argument that [mergeDeep] merges: those of an
    object or an array, none of a value that it skips. *)
Definition merged_props (val : value) : gmap string value :=
  if isObject val || isArray val then own_props val else ∅.

(** The effect of [console.log(JSON.stringify(parsed, null, 2))], which
    [run] makes when [print] is set. *)
Definition is_json_log (e : Cli.effect) : bool :=
  match e with Cli.ConsoleLogJson _ => true | _ => false end.

(** An event that takes the [default] branch of the watcher's handler: an
    event of chokidar on a watched file that is neither [add] nor
    [change]. *)
Definition halts_watch (configFiles : list string) (ev : Cli.event) : bool :=
  match ev with
  | Cli.Fs file eventName =>
      existsb (String.eqb file) configFiles
      && negb (String.eqb eventName "add" || String.eqb eventName "change")
  | _ => false
  end.

(** The event of chokidar [eventName] on each of [files], in order. *)
Definition fs_events (eventName : string) (files : list string)
    : list Cli.event :=
  (λ file, Cli.Fs file eventName) <$> files.


(** ** Shapes: what a call has built in the heap *)

(** The objects and arrays that a call of clone-deep or merge-deep has made,
    as a tree: a node is a new object or array at its location, a leaf is a
    value the call did not make (a primitive, or a reference to an object
    that existed before the call). *)
Inductive shape :=
  | SLeaf (v : Store.val)
  | SObj (l : nat) (fields : gmap string shape)
  | SArr (l : nat) (elems : list shape).

Fixpoint ssize (s : shape) : nat :=
  match s with
  | SLeaf _ => 1
  | SObj _ fs => S (map_fold (λ _ n acc, n + acc) 0 (ssize <$> fs))
  | SArr _ es => S (sum_list (ssize <$> es))
  end.

(** The value that refers to a shape. *)
Definition root (s : shape) : Store.val :=
  match s with
  | SLeaf v => v
  | SObj l _ | SArr l _ => Store.Ref l
  end.

(** The locations of the nodes of a shape. *)
Fixpoint locs (s : shape) : gset nat :=
  match s with
  | SLeaf _ => ∅
  | SObj l fs => {[ l ]} ∪ ⋃ (map_to_list (locs <$> fs)).*2
  | SArr l es => {[ l ]} ∪ ⋃ (locs <$> es)
  end.

(** The tree a shape stands for, given the trees of its leaves. *)
Fixpoint tree_of (leaf : Store.val → value) (s : shape) : value :=
  match s with
  | SLeaf v => leaf v
  | SObj _ fs => VObj (tree_of leaf <$> fs)
  | SArr _ es => VArr (tree_of leaf <$> es)
  end.

(** The heap holds the nodes of the shape, unfrozen, each with the roots of
    its children as properties or elements; no object node has a property
    [_isBuffer]. *)
Inductive realizes (h : Store.heap) : shape → Prop :=
  | realizes_leaf v : realizes h (SLeaf v)
  | realizes_obj l fs :
      h !! l = Some (Store.Cell false (Store.Object (root <$> fs))) →
      (∀ key s, fs !! key = Some s → realizes h s) →
      fs !! "_isBuffer" = None →
      realizes h (SObj l fs)
  | realizes_arr l es :
      h !! l = Some (Store.Cell false (Store.Array (root <$> es))) →
      (∀ i s, es !! i = Some s → realizes h s) →
      realizes h (SArr l es).

(** No node occurs twice in the shape. *)
Inductive sep : shape → Prop :=
  | sep_leaf v : sep (SLeaf v)
  | sep_obj l fs :
      (∀ key s, fs !! key = Some s → sep s) →
      (∀ key s, fs !! key = Some s → l ∉ locs s) →
      (∀ k1 k2 s1 s2, k1 ≠ k2 → fs !! k1 = Some s1 → fs !! k2 = Some s2 →
         locs s1 ## locs s2) →
      sep (SObj l fs)
  | sep_arr l es :
      (∀ i s, es !! i = Some s → sep s) →
      (∀ i s, es !! i = Some s → l ∉ locs s) →
      (∀ i j s1 s2, i ≠ j → es !! i = Some s1 → es !! j = Some s2 →
         locs s1 ## locs s2) →
      sep (SArr l es).

(** Every leaf of the shape satisfies [P]. *)
Inductive leaves (P : Store.val → Prop) : shape → Prop :=
  | leaves_leaf v : P v → leaves P (SLeaf v)
  | leaves_obj l fs :
      (∀ key s, fs !! key = Some s → leaves P s) → leaves P (SObj l fs)
  | leaves_arr l es :
      (∀ i s, es !! i = Some s → leaves P s) → leaves P (SArr l es).

(** A primitive value of the heap. *)
Definition is_prim (v : Store.val) : Prop :=
  match v with Store.Ref _ => False | _ => True end.

(** The locations a list of values refers to. *)
Definition refs (vs : list Store.val) : list nat :=
  omap (λ v, match v with Store.Ref l => Some l | _ => None end) vs.

(** No array met on the way down the fields of [v], within [n] references,
    holds the same reference twice. *)
Fixpoint distinct_refs (n : nat) (h : Store.heap) (v : Store.val) : Prop :=
  match v, n with
  | Store.Ref l, S n =>
      match h !! l with
      | Some (Store.Cell _ (Store.Object m)) =>
          map_Forall (λ _ x, distinct_refs n h x) m
      | Some (Store.Cell _ (Store.Array es)) => NoDup (refs es)
      | None => True
      end
  | _, _ => True
  end.

Fixpoint distinct_refsb (n : nat) (h : Store.heap) (v : Store.val) : bool :=
  match v, n with
  | Store.Ref l, S n =>
      match h !! l with
      | Some (Store.Cell _ (Store.Object m)) =>
          bool_decide (map_Forall (λ _ x, distinct_refsb n h x = true) m)
      | Some (Store.Cell _ (Store.Array es)) => bool_decide (NoDup (refs es))
      | None => true
      end
  | _, _ => true
  end.

(** The shapes of a list have no node in common. *)
Fixpoint disjoint_shapes (ss : list shape) : Prop :=
  match ss with
  | [] => True
  | s :: ss => Forall (λ s', locs s ## locs s') ss ∧ disjoint_shapes ss
  end.

(** * Part II: lemmas and theorems *)

(** ** Induction on values *)




(** ** Ordinary values *)

Lemma ordinary_field (m : gmap string value) (key : string) (x : value) :
  ordinary (VObj m) → m !! key = Some x →
  ordinary_key key = true ∧ ordinary x.
Proof.
  unfold ordinary. cbn [ordinaryb]. intros Hm Hx.
  apply bool_decide_eq_true in Hm.
  specialize (Hm key (ordinaryb x)). rewrite lookup_fmap, Hx in Hm.
  apply andb_true_iff, Hm. reflexivity.
Qed.


Lemma ordinary_elem (l : list value) (x : value) :
  ordinary (VArr l) → x ∈ l → ordinary x.
Proof.
  unfold ordinary. cbn [ordinaryb]. rewrite forallb_forall.
  intros H Hx. apply H, list_elem_of_In, Hx.
Qed.

Lemma ordinary_array (l : list value) :
  (∀ x, x ∈ l → ordinary x) → ordinary (VArr l).
Proof.
  intros H. unfold ordinary. cbn [ordinaryb]. apply forallb_forall.
  intros x Hx. apply H, list_elem_of_In, Hx.
Qed.

(** An ordinary object has no [_isBuffer] mark: it is an object for
    kind-of. *)
Lemma ordinary_no_mark (m : gmap string value) :
  ordinary (VObj m) → m !! "_isBuffer" = None.
Proof.
  intros Hm. destruct (m !! "_isBuffer") as [x|] eqn:Hx; [|reflexivity].
  destruct (ordinary_field m _ x Hm Hx) as [Hk _]. discriminate Hk.
Qed.

Lemma ordinary_isObject (m : gmap string value) :
  ordinary (VObj m) → isObject (VObj m) = true.
Proof.
  intros Hm. unfold isObject, isBuffer. rewrite (ordinary_no_mark m Hm).
  reflexivity.
Qed.


Lemma ordinary_empty : ordinary (VObj ∅).
Proof. reflexivity. Qed.

(** The decimal numeral of a number starts with a digit. *)
Lemma pretty_N_go_head (x : N) :
  ∀ s c s', pretty_N_go x s = String c s' →
    s = String c s' ∨ ∃ d, (d < 10)%N ∧ c = pretty_N_char d.
Proof.
  induction (N.lt_wf_0 x) as [x _ IH]; intros s c s' H.
  assert (x = 0 ∨ 0 < x)%N as [->|Hx] by lia.
  - rewrite pretty_N_go_0 in H. auto.
  - rewrite pretty_N_go_step in H by exact Hx.
    apply IH in H; [|apply N.div_lt; [exact Hx|reflexivity]].
    destruct H as [H|H]; [|right; exact H]. right.
    injection H as <- _. exists (x `mod` 10)%N. split; [|reflexivity].
    apply N.mod_lt. discriminate.
Qed.

(** The index of an array element is an ordinary property name. *)
Lemma ordinary_key_index (i : nat) : ordinary_key (pretty i) = true.
Proof.
  unfold pretty, pretty_nat, pretty, pretty_N.
  destruct (decide (N.of_nat i = 0%N)); [reflexivity|].
  destruct (pretty_N_go (N.of_nat i) "") as [|c s'] eqn:E; [reflexivity|].
  apply pretty_N_go_head in E as [E | (d & Hd & ->)]; [discriminate E|].
  assert (d = 0 ∨ d = 1 ∨ d = 2 ∨ d = 3 ∨ d = 4 ∨ d = 5 ∨ d = 6 ∨ d = 7
          ∨ d = 8 ∨ d = 9)%N as Hcases by lia.
  repeat (destruct Hcases as [->|Hcases]; [reflexivity|]).
  subst d. reflexivity.
Qed.

(** ** Equations of merge-deep on trees *)

Lemma lookup_merge_loop (fs : gmap string (value → value))
    (target : gmap string value) (key : string) :
  MergeDeep.merge_loop fs target !! key =
    match (if MergeDeep.isValidKey key then fs !! key else None) with
    | Some f => Some (f (default VUndef (target !! key)))
    | None => target !! key
    end.
Proof.
  unfold MergeDeep.merge_loop. rewrite lookup_merge.
  destruct (MergeDeep.isValidKey key) eqn:Hv.
  - destruct (fs !! key) as [f|] eqn:Hf.
    + rewrite (map_lookup_filter_Some_2 _ _ key f Hf Hv).
      destruct (target !! key); reflexivity.
    + rewrite (map_lookup_filter_None_2 _ fs key) by (left; exact Hf).
      destruct (target !! key); reflexivity.
  - rewrite (map_lookup_filter_None_2 _ fs key).
    + destruct (target !! key); reflexivity.
    + right. intros f _. simpl. rewrite Hv. discriminate.
Qed.

Lemma lookup_merge_object (target obj : gmap string value) (key : string) :
  MergeDeep.merge target (VObj obj) !! key =
    match (if MergeDeep.isValidKey key then obj !! key else None) with
    | Some oldVal =>
        Some (MergeDeep.assign oldVal (default VUndef (target !! key)))
    | None => target !! key
    end.
Proof.
  unfold MergeDeep.merge. rewrite lookup_merge_loop. simpl own_props.
  rewrite lookup_fmap.
  destruct (MergeDeep.isValidKey key); [destruct (obj !! key)|]; reflexivity.
Qed.

Lemma assign_objects (o t : gmap string value) :
  isObject (VObj t) = true → isObject (VObj o) = true →
  MergeDeep.assign (VObj o) (VObj t) = VObj (MergeDeep.merge t (VObj o)).
Proof. intros Ht Ho. cbn [MergeDeep.assign]. rewrite Ht, Ho. reflexivity. Qed.

(** Assigning over a value that is neither an object nor an array stores the
    incoming value. *)
Lemma assign_over_terminal (oldVal newVal : value) :
  isObject newVal = false → isArray newVal = false →
  MergeDeep.assign oldVal newVal = oldVal.
Proof.
  intros Ho Ha.
  destruct newVal, oldVal; try reflexivity; try discriminate Ha.
  cbn [MergeDeep.assign]. rewrite Ho. reflexivity.
Qed.

Lemma lookup_filter_valid (m : gmap string value) (key : string) :
  filter (λ kv, MergeDeep.isValidKey kv.1 = true) m !! key =
    if MergeDeep.isValidKey key then m !! key else None.
Proof.
  destruct (MergeDeep.isValidKey key) eqn:Hv.
  - destruct (m !! key) as [x|] eqn:Hx.
    + exact (map_lookup_filter_Some_2 _ _ key x Hx Hv).
    + apply map_lookup_filter_None_2. left. exact Hx.
  - apply map_lookup_filter_None_2. right. intros x _. simpl.
    rewrite Hv. discriminate.
Qed.

(** Merging an object into the empty target keeps its valid keys. *)
Lemma merge_into_empty (obj : gmap string value) :
  MergeDeep.merge ∅ (VObj obj)
    = filter (λ kv, MergeDeep.isValidKey kv.1 = true) obj.
Proof.
  apply map_eq. intros key.
  rewrite lookup_merge_object, lookup_empty, lookup_filter_valid.
  destruct (MergeDeep.isValidKey key); [|reflexivity].
  destruct (obj !! key); [|reflexivity].
  rewrite assign_over_terminal; reflexivity.
Qed.


Lemma mergeDeep_two_objects (x y : gmap string value) :
  isObject (VObj x) = true → isObject (VObj y) = true →
  MergeDeep.mergeDeep [VObj x; VObj y] =
    VObj (MergeDeep.merge
            (filter (λ kv, MergeDeep.isValidKey kv.1 = true) x) (VObj y)).
Proof.
  intros Hx Hy. unfold MergeDeep.mergeDeep. cbn [foldl].
  rewrite Hx, Hy. cbn [orb]. rewrite merge_into_empty. reflexivity.
Qed.

(** ** Field paths *)




Lemma has_path_first_key (d : value) (path : list string) :
  has_path d path → ∃ key, is_Some (data_fields d !! key) ∧ head path = Some key.
Proof.
  intros [Hne [x Hx]]. destruct path as [|key path]; [contradiction|].
  exists key. split; [|reflexivity].
  destruct d; try discriminate Hx. simpl in *.
  destruct (fields !! key); [eauto | discriminate Hx].
Qed.

Lemma has_path_of_field (d : value) (key : string) :
  is_data d → is_Some (data_fields d !! key) → has_path d [key].
Proof.
  intros Hd [x Hx]. split; [discriminate|].
  destruct d; simpl in *; try contradiction;
    try (rewrite lookup_empty in Hx; discriminate).
  rewrite Hx. simpl. eauto.
Qed.

Lemma no_common_path_of_fields (da db dc : value) :
  dom (data_fields da) ∩ dom (data_fields db) ∩ dom (data_fields dc)
    = (∅ : gset string) →
  ∀ path, ¬ (has_path da path ∧ has_path db path ∧ has_path dc path).
Proof.
  intros Hdom path (Ha & Hb & Hc).
  apply has_path_first_key in Ha as (ka & Hka & Ea).
  apply has_path_first_key in Hb as (kb & Hkb & Eb).
  apply has_path_first_key in Hc as (kc & Hkc & Ec).
  assert (kb = ka) by congruence. assert (kc = ka) by congruence. subst.
  apply elem_of_dom in Hka, Hkb, Hkc.
  assert (ka ∈ (∅ : gset string)) as Hin by (rewrite <- Hdom; set_solver).
  set_solver.
Qed.

(** ** The code against the specification's deep merge *)



Lemma ordinary_data (d : value) :
  ordinary d → ordinary (VObj (data_fields d)).
Proof. destruct d; cbn [data_fields]; auto using ordinary_empty. Qed.



Lemma nullish_or_data (d : value) :
  is_data d → nullish_or d (VObj ∅) = VObj (data_fields d).
Proof. destruct d; simpl; intros; (reflexivity || contradiction). Qed.




(** The data that [mergeDeep] makes of ordinary data has no [_isBuffer]
    mark. *)
Lemma isObject_merge_data (x y : gmap string value) :
  ordinary (VObj x) → ordinary (VObj y) →
  isObject
    (VObj (MergeDeep.merge
             (filter (λ kv, MergeDeep.isValidKey kv.1 = true) x) (VObj y)))
  = true.
Proof.
  intros Hx Hy. unfold isObject, isBuffer.
  rewrite lookup_merge_object, lookup_filter_valid.
  rewrite (ordinary_no_mark x Hx), (ordinary_no_mark y Hy). reflexivity.
Qed.

(** ** Deciding the side conditions *)





(** ** Facts about arr-union *)

Lemma strict_eq_true (x y : value) : strict_eq x y = true → x = y.
Proof.
  destruct x as [| | |[]| | |], y as [| | |[]| | |]; simpl; try discriminate;
    intros H; try reflexivity.
  - apply Bool.eqb_prop in H. congruence.
  - apply Z.eqb_eq in H. congruence.
  - apply String.eqb_eq in H. congruence.
Qed.

Lemma found_elem_of (init : list value) (ele : value) :
  ArrUnion.found init ele = true → ele ∈ init.
Proof.
  unfold ArrUnion.found. intros H. apply existsb_exists in H.
  destruct H as (x & Hx & Heq). apply strict_eq_true in Heq. subst x.
  apply list_elem_of_In. exact Hx.
Qed.

Lemma elem_of_push_all (l init : list value) (e : value) :
  e ∈ foldl ArrUnion.push_new init l ↔ e ∈ init ∨ e ∈ l.
Proof.
  revert init. induction l as [|a l IH]; intros init; simpl.
  - rewrite elem_of_nil. tauto.
  - rewrite IH, elem_of_cons. unfold ArrUnion.push_new.
    destruct (ArrUnion.found init a) eqn:Hf.
    + apply found_elem_of in Hf. split; [tauto|].
      intros [H | [-> | H]]; tauto.
    + rewrite elem_of_app, list_elem_of_singleton. tauto.
Qed.



(** What is found among the elements pushed so far is what is [===] to an
    element met so far. *)
Lemma found_push_all (l : list value) :
  ∀ init e,
    ArrUnion.found (foldl ArrUnion.push_new init l) e
    = existsb (strict_eq e) (init ++ l).
Proof.
  induction l as [|a l IH]; intros init e; cbn [foldl].
  - rewrite app_nil_r. reflexivity.
  - rewrite IH. unfold ArrUnion.push_new.
    destruct (ArrUnion.found init a) eqn:Hf.
    + rewrite !existsb_app. cbn [existsb].
      destruct (strict_eq e a) eqn:He; [|reflexivity].
      apply strict_eq_true in He. subst e.
      unfold ArrUnion.found in Hf. rewrite Hf. reflexivity.
    + rewrite <- app_assoc. reflexivity.
Qed.

Lemma without_repeats_snoc (l : list value) (a : value) :
  without_repeats (l ++ [a])
  = without_repeats l ++ (if existsb (strict_eq a) l then [] else [a]).
Proof.
  unfold without_repeats. rewrite imap_app, omap_app. f_equal.
  - apply list_omap_ext. apply Forall2_same_length_lookup. split; [reflexivity|].
    intros i x y Hx Hy. rewrite Hx in Hy. injection Hy as <-.
    apply list_lookup_imap_Some in Hx as (e & He & ->). cbn [fst snd].
    rewrite take_app_le; [reflexivity|].
    apply lookup_lt_Some in He. lia.
  - cbn [imap]. rewrite Nat.add_0_r. cbn [omap list_omap fst snd].
    assert (take (length l) (l ++ [a]) = l) as ->
      by (rewrite take_app_le by lia; apply firstn_all).
    destruct (existsb (strict_eq a) l); reflexivity.
Qed.

(** Pushing the elements of [l] that are not there onto the empty array
    leaves [l] without its repeats. *)
Lemma push_all_without_repeats (l : list value) :
  foldl ArrUnion.push_new [] l = without_repeats l.
Proof.
  induction l as [|a l IH] using rev_ind; [reflexivity|].
  rewrite foldl_app, without_repeats_snoc. cbn [foldl].
  pose proof (found_push_all l [] a) as Hf. rewrite IH in *.
  unfold ArrUnion.push_new. rewrite Hf. cbn [app].
  destruct (existsb (strict_eq a) l); [rewrite app_nil_r|]; reflexivity.
Qed.



(** ** The claims about the data of merge and override *)

Section TreeClaims.

Context {schema : Type} (schema_merge : schema → schema → schema).
Implicit Types a b c u : Tree.ZodFig schema.




(** C7 (amended).  For all ConfigUnits [a], [b], [c] whose data are trees
    (mappings or absent, no object occurring twice) and ordinary, and such
    that no field path is shared among all three, [(a.merge(b)).merge(c)]
    and [a.merge(b.merge(c))] have equal data. *)
Theorem merge_data_associative a b c :
  is_data (Tree._config a) → is_data (Tree._config b) →
  is_data (Tree._config c) →
  ordinary (Tree._config a) → ordinary (Tree._config b) →
  ordinary (Tree._config c) →
  (∀ path, ¬ (has_path (Tree._config a) path ∧ has_path (Tree._config b) path
              ∧ has_path (Tree._config c) path)) →
  Tree._config (Tree.merge schema_merge (Tree.merge schema_merge a b) c)
    = Tree._config (Tree.merge schema_merge a (Tree.merge schema_merge b c)).
Proof.
  intros Ha Hb Hc Hoa Hob Hoc Hdisj.
  apply ordinary_data in Hoa, Hob, Hoc.
  assert (Hkey : ∀ key, ¬ (is_Some (data_fields (Tree._config a) !! key)
                           ∧ is_Some (data_fields (Tree._config b) !! key)
                           ∧ is_Some (data_fields (Tree._config c) !! key))).
  { intros key (Hka & Hkb & Hkc). apply (Hdisj [key]).
    auto using has_path_of_field. }
  unfold Tree.merge. cbn [Tree._config Tree._schema].
  rewrite (nullish_or_data _ Ha), (nullish_or_data _ Hb),
    (nullish_or_data _ Hc).
  rewrite !(mergeDeep_two_objects (data_fields _) (data_fields _))
    by (apply ordinary_isObject; assumption).
  cbn [nullish_or].
  rewrite !mergeDeep_two_objects
    by (first [apply ordinary_isObject; assumption
              |apply isObject_merge_data; assumption]).
  f_equal.
  apply map_eq. intros key. specialize (Hkey key).
  rewrite !lookup_merge_object, !lookup_filter_valid,
    !lookup_merge_object, !lookup_filter_valid.
  destruct (MergeDeep.isValidKey key); [|reflexivity].
  destruct (data_fields (Tree._config a) !! key) as [x|],
           (data_fields (Tree._config b) !! key) as [y|],
           (data_fields (Tree._config c) !! key) as [z|]; cbn [default];
    try reflexivity.
  all: try (exfalso; apply Hkey; eauto; fail).
  all: rewrite ?(assign_over_terminal _ VUndef) by reflexivity.
  all: reflexivity.
Qed.

End TreeClaims.

(** The spec's examples, evaluated. *)
Example override_terminal_example :
  Tree._config (Tree.override Examples.x_y (VObj {[ "x" := VNum 5 ]}))
  = VObj {[ "x" := VNum 5; "y" := VNum 2 ]}.
Proof. vm_compute. reflexivity. Qed.

Example merge_structured_example :
  Tree._config
    (Tree.merge Examples.no_schema_merge Examples.db_host Examples.db_port)
  = VObj {[ "db" := VObj {[ "host" := VStr "h1"; "port" := VNum 2 ]} ]}.
Proof. vm_compute. reflexivity. Qed.

Example override_tags_example :
  Tree._config
    (Tree.override Examples.tags_ab (VObj {[ "tags" := VArr [VStr "x"] ]}))
  = VObj {[ "tags" := VArr [VStr "a"; VStr "b"; VStr "x"] ]}.
Proof. vm_compute. reflexivity. Qed.

(** What kind-of takes for a buffer is not merged: at top level it is
    skipped, below it is replaced. *)
Example override_of_marked_data_example :
  Tree._config
    (Tree.override
       (Tree.new_ZodFig tt (VObj {[ "_isBuffer" := VBool true; "x" := VNum 1 ]}))
       (VObj ∅))
  = VObj ∅.
Proof. vm_compute. reflexivity. Qed.

Example override_of_marked_field_example :
  Tree._config
    (Tree.override
       (Tree.new_ZodFig tt
          (VObj {[ "db" := VObj {[ "_isBuffer" := VBool true;
                                   "port" := VNum 1 ]} ]}))
       (VObj {[ "db" := VObj {[ "host" := VStr "h" ]} ]}))
  = VObj {[ "db" := VObj {[ "host" := VStr "h" ]} ]}.
Proof. vm_compute. reflexivity. Qed.

(** The union drops the repeats of either sequence, but not those of [NaN],
    which [indexOf] never finds. *)
Example override_repeats_example :
  Tree._config
    (Tree.override
       (Tree.new_ZodFig tt
          (VObj {[ "t" := VArr [VNum 1; VNum 1; VNum 2; VNum NaN] ]}))
       (VObj {[ "t" := VArr [VNum 2; VNum NaN] ]}))
  = VObj {[ "t" := VArr [VNum 1; VNum 2; VNum NaN; VNum NaN] ]}.
Proof. vm_compute. reflexivity. Qed.







Lemma merge_data_associative_witness :
  Tree._config
    (Tree.merge Examples.no_schema_merge
       (Tree.merge Examples.no_schema_merge Examples.x_y Examples.db_host)
       Examples.db_port)
  = Tree._config
      (Tree.merge Examples.no_schema_merge Examples.x_y
         (Tree.merge Examples.no_schema_merge Examples.db_host
            Examples.db_port)).
Proof.
  apply (merge_data_associative Examples.no_schema_merge
           Examples.x_y Examples.db_host Examples.db_port).
  - exact I.
  - exact I.
  - exact I.
  - reflexivity.
  - reflexivity.
  - reflexivity.
  - apply no_common_path_of_fields. vm_compute. reflexivity.
Defined.

(** ** The claims about [run] *)

Section RunClaims.

Context {schema : Type} (schema_merge : schema → schema → schema).
Context (parse : schema → value → completion value).
Context (existsSync : string → bool).
Context (require : string → completion (Cli.exported (schema:=schema))).
Context (write : value → completion unit).
Context (isWatching : bool) (runIn : option string).
Context (INITIAL_WORKING_DIR : string).
Implicit Types a b u : Tree.ZodFig schema.

#[local] Ltac run_unfold :=
  unfold Cli.run, Cli.run_try, Cli.run_catch, Cli.run_after, Cli.try_catch,
    mbind, Cli.M_bind, Cli.bind, mret, Cli.M_ret, Cli.ret, Cli.emit, Cli.call,
    Cli.throw.

(** The [try] statement of [run] never throws: it ends by [return] without
    any effect when the file is missing, at its end otherwise. *)
Lemma run_try_catch_returns (filepath : string) (print : bool) :
  ∃ t c,
    Cli.try_catch (Cli.run_try parse existsSync require write filepath print)
      Cli.run_catch = (t, Returns c)
    ∧ (existsSync filepath = true → c = Cli.Fallthrough)
    ∧ (existsSync filepath = false → t = [] ∧ c = Cli.Return).
Proof.
  run_unfold.
  destruct (existsSync filepath); simpl.
  - destruct (require filepath) as [[called|]|[]]; simpl;
      try (eexists _, _; split; [reflexivity|split; [reflexivity|discriminate]]).
    destruct called as [[u|]|[]]; simpl;
      try (eexists _, _; split; [reflexivity|split; [reflexivity|discriminate]]).
    destruct (parse (Tree._schema u) (Tree._config u)) as [parsed|[]]; simpl;
      try (eexists _, _; split; [reflexivity|split; [reflexivity|discriminate]]).
    destruct print, (write parsed) as [[]|[]]; simpl;
      eexists _, _; (split; [reflexivity|split; [reflexivity|discriminate]]).
  - eexists _, _. split; [reflexivity|]. split; [discriminate|]. auto.
Qed.

(** Outside watch mode, or with [runIn] bound, [run] returns normally
    whatever the file, the factory, the schema and the writer do. *)
Lemma run_returns_unless_unbound (filepath : string) (print : bool) :
  isWatching = false ∨ is_Some runIn →
  snd (Cli.run parse existsSync require write isWatching runIn
         INITIAL_WORKING_DIR filepath print) = Returns tt.
Proof.
  intros Hw.
  destruct (run_try_catch_returns filepath print) as (t & c & Htry & _ & _).
  unfold Cli.run. unfold mbind at 1, Cli.M_bind, Cli.bind. rewrite Htry.
  destruct c; simpl; [|reflexivity].
  unfold Cli.run_after.
  destruct Hw as [-> | [dir ->]]; simpl; [reflexivity|].
  destruct isWatching; simpl; [|reflexivity].
  destruct (String.eqb dir INITIAL_WORKING_DIR); reflexivity.
Qed.

(** C6 (the code at the failing input).  In watch mode, with no binding of
    [runIn], [run] on a file that exists raises, whatever the file exports
    and whatever the factory, the schema and the writer do: the statement
    after the [try] statement evaluates [runIn]. *)
Theorem run_raises_in_watch_mode (filepath : string) (print : bool) :
  existsSync filepath = true →
  snd (Cli.run parse existsSync require write true None INITIAL_WORKING_DIR
         filepath print) = Throws (OtherError "ReferenceError").
Proof.
  intros Hex.
  destruct (run_try_catch_returns filepath print) as (t & c & Htry & Hc & _).
  unfold Cli.run. unfold mbind at 1, Cli.M_bind, Cli.bind. rewrite Htry.
  rewrite (Hc Hex). reflexivity.
Qed.

(** C10.  For every filepath that does not exist, [run] returns at once: no
    effect at all (nothing loaded, validated, written or printed) and no
    exception. *)
Theorem run_missing_file_is_silent (filepath : string) (print : bool) :
  existsSync filepath = false →
  Cli.run parse existsSync require write isWatching runIn INITIAL_WORKING_DIR
    filepath print = ([], Returns tt).
Proof.
  intros Hex. unfold Cli.run, Cli.run_try. rewrite Hex. reflexivity.
Qed.

(** C8.  The class never validates.  For every ConfigUnit [a], whatever its
    schema makes of its data: construction stores the data as given, [merge]
    and [override] store what merge-deep computes, and [overrideAync] fails
    only with the exception of the overrider itself.  Validation happens
    where [run] calls the schema's [parse] on the unit's data: when [parse]
    rejects the data of the unit the factory returns, the errors are printed
    and nothing is written. *)
Theorem validation_is_deferred a b (p : value)
    (overrider : value → completion value) :
  Tree._config (Tree.new_ZodFig (Tree._schema a) (Tree._config a))
    = Tree._config a
  ∧ Tree._config (Tree.merge schema_merge a b)
    = MergeDeep.mergeDeep [nullish_or (Tree._config a) (VObj ∅);
                           nullish_or (Tree._config b) (VObj ∅)]
  ∧ Tree._config (Tree.override a p)
    = MergeDeep.mergeDeep [Tree._config a; p]
  ∧ (∀ config, overrider (Tree._config a) = Returns config →
       Tree.overrideAync a overrider = Returns (Tree.override a config))
  ∧ (∀ e, Tree.overrideAync a overrider = Throws e →
       overrider (Tree._config a) = Throws e)
  ∧ (∀ (filepath : string) (print : bool) (errors : list string),
       existsSync filepath = true →
       require filepath = Returns (Cli.Function (Returns (Some a))) →
       parse (Tree._schema a) (Tree._config a) = Throws (ZodError errors) →
       fst (Cli.run parse existsSync require write isWatching runIn
              INITIAL_WORKING_DIR filepath print)
       = [Cli.ConsoleLog ("Writing config for " +:+ filepath);
          Cli.Require filepath;
          Cli.CallFactory;
          Cli.Parse (Tree._config a);
          Cli.ConsoleLog
            ("Zod validation error"
             +:+ (if decide (1 < length errors) then "s" else ""));
          Cli.ConsoleLogErrors errors]
         ++ fst (Cli.run_after isWatching runIn INITIAL_WORKING_DIR)).
Proof.
  repeat split.
  - intros config Hc. unfold Tree.overrideAync. rewrite Hc. reflexivity.
  - intros e. unfold Tree.overrideAync.
    destruct (overrider (Tree._config a)); [discriminate|]. congruence.
  - intros filepath print errors Hex Hreq Hparse.
    run_unfold. rewrite Hex, Hreq. simpl. rewrite Hparse. simpl.
    destruct isWatching; [|reflexivity].
    destruct runIn as [dir|]; [|reflexivity].
    destruct (String.eqb dir INITIAL_WORKING_DIR); reflexivity.
Qed.

End RunClaims.

Lemma run_raises_in_watch_mode_witness :
  snd (Cli.run Examples.parse_any Examples.existsSync Examples.require
         Examples.write true None "/repo" "zodfig.ts" false)
    = Throws (OtherError "ReferenceError").
Proof.
  apply (run_raises_in_watch_mode Examples.parse_any Examples.existsSync
           Examples.require Examples.write "/repo" "zodfig.ts" false).
  reflexivity.
Defined.

(** The effects of that run: the config is written, then the call raises. *)
Example run_in_watch_mode_example :
  Cli.run Examples.parse_any Examples.existsSync Examples.require
    Examples.write true None "/repo" "zodfig.ts" false
  = ([Cli.ConsoleLog "Writing config for zodfig.ts";
      Cli.Require "zodfig.ts";
      Cli.CallFactory;
      Cli.Parse (Tree._config Examples.db_host);
      Cli.Write (Tree._config Examples.db_host);
      Cli.ConsoleLog "Config files written for zodfig.ts"],
     Throws (OtherError "ReferenceError")).
Proof. reflexivity. Qed.

Lemma run_missing_file_is_silent_witness :
  Cli.run Examples.parse_any Examples.existsSync Examples.require
    Examples.write true None "/repo" "missing.ts" true
  = ([], Returns tt).
Proof.
  apply (run_missing_file_is_silent Examples.parse_any Examples.existsSync
           Examples.require Examples.write true None "/repo" "missing.ts"
           true).
  reflexivity.
Defined.

(** The run of a file whose factory returns a unit that its schema
    rejects. *)
Lemma validation_is_deferred_witness :
  fst (Cli.run Examples.parse_none Examples.existsSync Examples.require
         Examples.write false None "/repo" "zodfig.ts" false)
  = [Cli.ConsoleLog ("Writing config for " +:+ "zodfig.ts");
     Cli.Require "zodfig.ts";
     Cli.CallFactory;
     Cli.Parse (Tree._config Examples.db_host);
     Cli.ConsoleLog
       ("Zod validation error"
        +:+ (if decide
                  (1 < length ["db.port: Expected string, received number"])
             then "s" else ""));
     Cli.ConsoleLogErrors ["db.port: Expected string, received number"]]
    ++ fst (Cli.run_after false None "/repo").
Proof.
  apply (validation_is_deferred Examples.no_schema_merge Examples.parse_none
           Examples.existsSync Examples.require Examples.write false None
           "/repo" Examples.db_host Examples.db_port (VObj ∅)
           (λ _, Returns (VObj ∅)));
    reflexivity.
Defined.

(** ** The claims about [go] *)

Ltac go_eval :=
  cbv beta iota zeta delta
    [Cli.step Cli.on_all Cli.go Cli.go_resume Cli.stop_activeCmd
     Cli.set_going Cli.set_shouldRego Cli.set_activeCmd Cli.set_isWatching
     Cli.set_ready Cli.set_timers Cli.start_run Cli.end_run Cli.reject
     Cli.exit Cli.log Cli.going Cli.shouldRego Cli.activeCmd Cli.isWatching
     Cli.ready Cli.timers Cli.in_flight Cli.runs Cli.rejected Cli.exited
     Cli.console Cli.one_run_at_a_time Cli.wedged Nat.pred andb orb negb].

Section GoClaims.

Context (command : option string) (watch : bool) (configFiles : list string).
Context (TOOL_NAME : string).

Lemma step_one_run_at_a_time (st : Cli.state) (ev : Cli.event) :
  Cli.one_run_at_a_time st →
  Cli.one_run_at_a_time (Cli.step command watch configFiles TOOL_NAME st ev).
Proof.
  destruct st as [g r a w rd t n rs rj ex c]. intros [Hle Hg].
  cbv [Cli.in_flight Cli.going] in Hle, Hg.
  assert (Hn : g = false → n = 0).
  { intros ->. destruct n as [|[|n]]; [reflexivity| |lia].
    specialize (Hg eq_refl). discriminate. }
  destruct ex; [go_eval; auto|].
  destruct ev as [|file eventName|file| | |].
  - destruct g; [go_eval; auto|]. rewrite (Hn eq_refl).
    destruct r, a; go_eval; auto.
  - destruct watch; [|go_eval; auto].
    destruct (existsb (String.eqb file) configFiles) eqn:Hin;
      [|go_eval; rewrite Hin; auto].
    destruct (String.eqb eventName "add") eqn:Hadd,
             (String.eqb eventName "change") eqn:Hchg,
             (rd file) eqn:Hrd;
      try (go_eval; rewrite Hin, ?Hadd, ?Hchg, ?Hrd; destruct a; auto; fail);
      (destruct g; [go_eval; rewrite Hin, ?Hadd, ?Hchg, ?Hrd; go_eval; auto|];
       rewrite (Hn eq_refl);
       destruct r, a; go_eval; rewrite Hin, ?Hadd, ?Hchg, ?Hrd; go_eval;
       auto).
  - destruct watch, (existsb (String.eqb file) configFiles) eqn:Hin;
      go_eval; rewrite ?Hin; auto.
  - destruct n as [|n]; [go_eval; auto|].
    destruct command, watch, r; go_eval; split; try lia; intros; lia.
  - destruct n as [|n]; [go_eval; auto|]. go_eval. split; [lia|].
    intros; lia.
  - destruct t as [|t]; [go_eval; auto|].
    destruct g; [go_eval; auto|]. destruct r, a; go_eval; auto.
Qed.

Lemma exec_one_run_at_a_time (evs : list Cli.event) (st : Cli.state) :
  Cli.one_run_at_a_time st →
  Cli.one_run_at_a_time (Cli.exec command watch configFiles TOOL_NAME st evs).
Proof.
  revert st. induction evs as [|ev evs IH]; intros st H; simpl; [exact H|].
  apply IH, step_one_run_at_a_time, H.
Qed.

(** The part of C9 that holds: whatever the events, at most one run is in
    flight. *)
Lemma at_most_one_run_in_flight (evs : list Cli.event) :
  Cli.in_flight
    (Cli.exec command watch configFiles TOOL_NAME Cli.initial evs) ≤ 1.
Proof.
  apply (exec_one_run_at_a_time evs Cli.initial). split; simpl; [lia|].
  discriminate.
Qed.

(** No event gets the loop out of a wedged state, and none starts a run
    there. *)
Lemma step_wedged (st : Cli.state) (ev : Cli.event) :
  Cli.wedged st →
  Cli.wedged (Cli.step command watch configFiles TOOL_NAME st ev)
  ∧ Cli.runs (Cli.step command watch configFiles TOOL_NAME st ev)
    = Cli.runs st
  ∧ Cli.rejected (Cli.step command watch configFiles TOOL_NAME st ev)
    = Cli.rejected st.
Proof.
  destruct st as [g r a w rd t n rs rj ex c].
  cbv [Cli.wedged Cli.going Cli.in_flight Cli.timers].
  intros (-> & -> & ->).
  destruct ex; [go_eval; auto|].
  destruct ev as [|file eventName|file| | |]; try (go_eval; auto; fail).
  - destruct watch; [|go_eval; auto].
    destruct (existsb (String.eqb file) configFiles) eqn:Hin;
      [|go_eval; rewrite Hin; auto].
    destruct (String.eqb eventName "add") eqn:Hadd,
             (String.eqb eventName "change") eqn:Hchg,
             (rd file) eqn:Hrd;
      go_eval; rewrite Hin, ?Hadd, ?Hchg, ?Hrd; go_eval;
      destruct a; auto.
  - destruct watch, (existsb (String.eqb file) configFiles) eqn:Hin;
      go_eval; rewrite ?Hin; auto.
Qed.

Lemma exec_wedged (evs : list Cli.event) (st : Cli.state) :
  Cli.wedged st →
  Cli.wedged (Cli.exec command watch configFiles TOOL_NAME st evs)
  ∧ Cli.runs (Cli.exec command watch configFiles TOOL_NAME st evs)
    = Cli.runs st
  ∧ Cli.rejected (Cli.exec command watch configFiles TOOL_NAME st evs)
    = Cli.rejected st.
Proof.
  revert st. induction evs as [|ev evs IH]; intros st H; simpl; [auto|].
  destruct (step_wedged st ev H) as (Hw & Hr & Hj).
  destruct (IH _ Hw) as (Hw' & Hr' & Hj').
  split; [exact Hw'|]. split; congruence.
Qed.

End GoClaims.

(** The state after the four events of the failing run. *)
Lemma failing_events_state (command : option string) (file : string)
    (configFiles : list string) (TOOL_NAME : string) :
  ∃ a w rd c,
    Cli.exec command true (file :: configFiles) TOOL_NAME Cli.initial
      [Cli.Started; Cli.Fs file "change"; Cli.RunSettled; Cli.TimerFired]
    = Cli.State true false a w rd 0 0 [Some file] 1 true c.
Proof.
  assert (Hin : existsb (String.eqb file) (file :: configFiles) = true)
    by (cbn [existsb]; rewrite String.eqb_refl; reflexivity).
  unfold Cli.exec. cbn [foldl].
  (* the action calls [go(configFiles)]: the first run starts *)
  assert (E1 : Cli.step command true (file :: configFiles) TOOL_NAME
                 Cli.initial Cli.Started
               = Cli.State true false None true (λ _, false) 0 1
                   [Some file] 0 false [])
    by reflexivity.
  rewrite E1. clear E1.
  (* the change arrives: [shouldRego] is set *)
  assert (E2 : ∃ c,
    Cli.step command true (file :: configFiles) TOOL_NAME
      (Cli.State true false None true (λ _, false) 0 1 [Some file] 0 false [])
      (Cli.Fs file "change")
    = Cli.State true true None true (λ _, false) 0 1 [Some file] 0 false c).
  { eexists. unfold Cli.step. cbv [Cli.exited]. cbn [andb]. rewrite Hin.
    reflexivity. }
  destruct E2 as [c2 ->].
  (* the run settles: the timer is set, [going] is cleared *)
  assert (E3 : ∃ a c,
    Cli.step command true (file :: configFiles) TOOL_NAME
      (Cli.State true true None true (λ _, false) 0 1 [Some file] 0 false c2)
      Cli.RunSettled
    = Cli.State false true a true (λ _, false) 1 0 [Some file] 0 false c).
  { destruct command; eexists _, _; reflexivity. }
  destruct E3 as (a3 & c3 & ->).
  (* the timer fires: [go()] *)
  destruct a3; eexists _, _, _, _; reflexivity.
Qed.

(** C9 (the code at the failing input).  Watch mode; a change of a watched
    file arrives while the first run is in flight; the run settles; the
    timer set by [setTimeout(go, 0)] fires.  The follow-up call of [go] has
    no argument: it sets [going] and ends in a TypeError before it calls
    [run].  Whatever events come after, the first run stays the only run
    ever started, the exception stays the only one, and [going] stays set. *)
Theorem follow_up_run_never_starts (command : option string)
    (file : string) (configFiles : list string) (TOOL_NAME : string)
    (evs : list Cli.event) :
  let st :=
    Cli.exec command true (file :: configFiles) TOOL_NAME Cli.initial
      ([Cli.Started; Cli.Fs file "change"; Cli.RunSettled; Cli.TimerFired]
       ++ evs) in
  Cli.runs st = [Some file]
  ∧ Cli.rejected st = 1
  ∧ Cli.going st = true
  ∧ Cli.in_flight st = 0.
Proof.
  cbv zeta. unfold Cli.exec. rewrite foldl_app.
  destruct (failing_events_state command file configFiles TOOL_NAME)
    as (a & w & rd & c & E).
  unfold Cli.exec in E. rewrite E.
  destruct (exec_wedged command true (file :: configFiles) TOOL_NAME evs
              (Cli.State true false a w rd 0 0 [Some file] 1 true c))
    as ((Hg & Hn & _) & Hr & Hj).
  { repeat split. }
  unfold Cli.exec in *. auto.
Qed.

(** The same events up to the settled run: the follow-up is scheduled, once,
    however many changes arrived. *)
Example follow_up_is_scheduled :
  Cli.timers
    (Cli.exec (Some "pnpm start") true ["zodfig.ts"] "zodfig" Cli.initial
       [Cli.Started; Cli.Fs "zodfig.ts" "change"; Cli.Fs "zodfig.ts" "change";
        Cli.RunSettled]) = 1.
Proof. vm_compute. reflexivity. Qed.

(** The console of the failing run of events, with a command. *)
Example follow_up_console :
  Cli.console
    (Cli.exec (Some "pnpm start") true ["zodfig.ts"] "zodfig" Cli.initial
       [Cli.Started; Cli.Fs "zodfig.ts" "change"; Cli.RunSettled;
        Cli.TimerFired])
  = ["Detected change for zodfig.ts";
     "running " +:+ Cli.quote +:+ "pnpm start" +:+ Cli.quote;
     "Stopping " +:+ Cli.quote +:+ "pnpm start" +:+ Cli.quote
     +:+ " via SIGTERM"].
Proof. vm_compute. reflexivity. Qed.

(** ** The heap: what a write can and cannot change *)

Section StoreFacts.

Import Store.
Implicit Types h hb : heap.
Implicit Types v target : val.

Lemma prefix_lookup_old hb h (l : loc) :
  hb `prefix_of` h → l < length hb → h !! l = hb !! l.
Proof.
  intros [k ->] Hl. apply lookup_app_l. exact Hl.
Qed.

Lemma prefix_insert_above hb h (l : loc) (c : cell) :
  hb `prefix_of` h → length hb ≤ l → hb `prefix_of` <[l := c]> h.
Proof.
  intros [k ->] Hl. rewrite insert_app_r_alt by exact Hl.
  apply prefix_app_r. reflexivity.
Qed.

Lemma prefix_snoc hb h (c : cell) :
  hb `prefix_of` h → hb `prefix_of` h ++ [c].
Proof. intros H. apply prefix_app_r. exact H. Qed.

Lemma isObject_insert_same_kind h (l : loc) (fz fz' : bool)
    (m m' : gmap string val) v :
  h !! l = Some (Cell fz (Object m)) → isBuffer m' = isBuffer m →
  isObject (<[l := Cell fz' (Object m')]> h) v = isObject h v.
Proof.
  intros Hl Hb. destruct v as [| | | | |l0]; try reflexivity. simpl.
  destruct (decide (l = l0)) as [<-|Hne].
  - rewrite list_lookup_insert_eq by (eapply lookup_lt_Some; exact Hl).
    rewrite Hl, Hb. reflexivity.
  - rewrite list_lookup_insert_ne by exact Hne. reflexivity.
Qed.

Lemma isBuffer_insert (m : gmap string val) (key : string) (v : val) :
  key ≠ "_isBuffer" → isBuffer (<[key := v]> m) = isBuffer m.
Proof.
  intros Hne. unfold isBuffer. rewrite lookup_insert_ne by exact Hne.
  reflexivity.
Qed.

Lemma ordinary_key_not_mark (key : string) :
  ordinary_key key = true → key ≠ "_isBuffer".
Proof. intros H ->. discriminate H. Qed.

Lemma isObject_insert_array h (l : loc) (fz fz' : bool) (es es' : list val) v :
  h !! l = Some (Cell fz (Array es)) →
  isObject (<[l := Cell fz' (Array es')]> h) v = isObject h v.
Proof.
  intros Hl. destruct v as [| | | | |l0]; try reflexivity. simpl.
  destruct (decide (l = l0)) as [<-|Hne].
  - rewrite list_lookup_insert_eq by (eapply lookup_lt_Some; exact Hl).
    rewrite Hl. reflexivity.
  - rewrite list_lookup_insert_ne by exact Hne. reflexivity.
Qed.

Lemma isObject_snoc h (c : cell) v :
  isObject h v = true → isObject (h ++ [c]) v = true.
Proof.
  destruct v as [| | | | |l]; try discriminate. simpl.
  destruct (h !! l) as [c'|] eqn:Hl; [|discriminate].
  rewrite (lookup_app_l_Some _ _ _ _ Hl). auto.
Qed.

Lemma keeps_objects_refl h : keeps_objects h h.
Proof. intros v H. exact H. Qed.

Lemma keeps_objects_trans h1 h2 h3 :
  keeps_objects h1 h2 → keeps_objects h2 h3 → keeps_objects h1 h3.
Proof. intros H12 H23 v H. apply H23, H12, H. Qed.

(** Allocation. *)
Lemma alloc_grows hb h (b : body) :
  hb `prefix_of` h → closed_above hb h →
  (∀ m key l', b = Object m → m !! key = Some (Ref l') → length hb ≤ l') →
  hb `prefix_of` (alloc h b).1
  ∧ closed_above hb (alloc h b).1
  ∧ keeps_objects h (alloc h b).1
  ∧ length hb ≤ (alloc h b).2
  ∧ (alloc h b).1 !! (alloc h b).2 = Some (Cell false b).
Proof.
  intros Hp [Hu Hc] Hb. unfold alloc. cbn [fst snd].
  split; [apply prefix_snoc, Hp|].
  split; [split|split; [intros v; apply isObject_snoc|split]].
  - intros l c Hl Hcell.
    destruct (decide (l < length h)) as [Hlt|Hge].
    + rewrite lookup_app_l in Hcell by exact Hlt. exact (Hu l c Hl Hcell).
    + assert (l = length h) as ->.
      { apply lookup_lt_Some in Hcell. rewrite length_app in Hcell.
        simpl in Hcell. lia. }
      rewrite list_lookup_middle in Hcell by reflexivity.
      injection Hcell as <-. reflexivity.
  - intros l fz m key l' Hl Hcell Hkey Hl'.
    destruct (decide (l < length h)) as [Hlt|Hge].
    + rewrite lookup_app_l in Hcell by exact Hlt.
      exact (Hc l fz m key l' Hl Hcell Hkey Hl').
    + assert (l = length h) as ->.
      { apply lookup_lt_Some in Hcell. rewrite length_app in Hcell.
        simpl in Hcell. lia. }
      rewrite list_lookup_middle in Hcell by reflexivity.
      injection Hcell as _ Hbm.
      specialize (Hb m key l' Hbm Hkey). lia.
  - apply prefix_length in Hp. exact Hp.
  - apply list_lookup_middle. reflexivity.
Qed.

(** An assignment of strict code to a property of a new object goes
    through. *)
Lemma set_strict_fresh hb h target (key : string) v :
  closed_above hb h → fresh_or_prim hb target →
  set_strict h target key v = Some (set h target key v).
Proof.
  intros [Hu _] Ht. unfold set_strict.
  destruct target as [| | | | |t]; try reflexivity. simpl in Ht.
  destruct (h !! t) as [[[] b]|] eqn:Hcell; try reflexivity.
  specialize (Hu t _ Ht Hcell). discriminate Hu.
Qed.

(** [target[key] = v] on a new object, with a new value. *)
Lemma set_grows hb h target (key : string) v :
  hb `prefix_of` h → closed_above hb h →
  fresh_or_prim hb target → fresh_or_prim hb v → key ≠ "_isBuffer" →
  hb `prefix_of` set h target key v
  ∧ closed_above hb (set h target key v)
  ∧ keeps_objects h (set h target key v).
Proof.
  intros Hp [Hu Hc] Ht Hv Hkey. unfold set.
  destruct target as [| | | | |t];
    try solve [split; [|split]; auto using keeps_objects_refl; split; auto].
  destruct (h !! t) as [[[] [m|es]]|] eqn:Hcell;
    try solve [split; [|split]; auto using keeps_objects_refl; split; auto].
  simpl in Ht. split; [apply prefix_insert_above; assumption|].
  split; [split|].
  - intros l c Hl Hcell'.
    destruct (decide (t = l)) as [<-|Hne].
    + rewrite list_lookup_insert_eq in Hcell'
        by (eapply lookup_lt_Some; exact Hcell).
      injection Hcell' as <-. reflexivity.
    + rewrite list_lookup_insert_ne in Hcell' by exact Hne.
      exact (Hu l c Hl Hcell').
  - intros l fz m0 k l' Hl Hcell' Hk Hl'.
    destruct (decide (t = l)) as [<-|Hne].
    + rewrite list_lookup_insert_eq in Hcell'
        by (eapply lookup_lt_Some; exact Hcell).
      injection Hcell' as <- <-.
      destruct (decide (key = k)) as [<-|Hk'].
      * rewrite lookup_insert_eq in Hk. injection Hk as ->. simpl in Hv. lia.
      * rewrite lookup_insert_ne in Hk by exact Hk'.
        exact (Hc t false m k l' Hl Hcell Hk Hl').
    + rewrite list_lookup_insert_ne in Hcell' by exact Hne.
      exact (Hc l fz m0 k l' Hl Hcell' Hk Hl').
  - intros x Hx.
    rewrite (isObject_insert_same_kind h t false false m _ x Hcell)
      by (apply isBuffer_insert, Hkey).
    exact Hx.
Qed.

(** [target.push(v)] on a new array. *)
Lemma push_grows hb h target v :
  hb `prefix_of` h → closed_above hb h → fresh_or_prim hb target →
  hb `prefix_of` push h target v
  ∧ closed_above hb (push h target v)
  ∧ keeps_objects h (push h target v).
Proof.
  intros Hp [Hu Hc] Ht. unfold push.
  destruct target as [| | | | |t];
    try solve [split; [|split]; auto using keeps_objects_refl; split; auto].
  destruct (h !! t) as [[[] [m|es]]|] eqn:Hcell;
    try solve [split; [|split]; auto using keeps_objects_refl; split; auto].
  simpl in Ht. split; [apply prefix_insert_above; assumption|].
  split; [split|].
  - intros l c Hl Hcell'.
    destruct (decide (t = l)) as [<-|Hne].
    + rewrite list_lookup_insert_eq in Hcell'
        by (eapply lookup_lt_Some; exact Hcell).
      injection Hcell' as <-. reflexivity.
    + rewrite list_lookup_insert_ne in Hcell' by exact Hne.
      exact (Hu l c Hl Hcell').
  - intros l fz m0 k l' Hl Hcell' Hk Hl'.
    destruct (decide (t = l)) as [<-|Hne].
    + rewrite list_lookup_insert_eq in Hcell'
        by (eapply lookup_lt_Some; exact Hcell).
      discriminate Hcell'.
    + rewrite list_lookup_insert_ne in Hcell' by exact Hne.
      exact (Hc l fz m0 k l' Hl Hcell' Hk Hl').
  - intros x Hx. rewrite (isObject_insert_array h t false false es _ x Hcell).
    exact Hx.
Qed.

(** Depth is read in the base heap, so it holds in every heap that extends
    it, and with every larger bound. *)
Lemma plain_prefix (n : nat) hb h v :
  hb `prefix_of` h → plain n hb v → plain n h v.
Proof.
  intros Hp. revert v. induction n as [|n IH]; intros v Hd;
    destruct v as [| | | | |l]; try exact I; cbn [plain] in *; [exact Hd|].
  destruct (hb !! l) as [[fz [m|es]]|] eqn:Hl; [| |contradiction].
  - rewrite (prefix_lookup_Some _ _ _ _ Hl Hp).
    intros key x Hx. destruct (Hd key x Hx) as [Hk Hdx]. auto.
  - rewrite (prefix_lookup_Some _ _ _ _ Hl Hp).
    eapply Forall_impl; [exact Hd|]. intros x Hx. apply IH, Hx.
Qed.

Lemma plain_S (n : nat) h v : plain n h v → plain (S n) h v.
Proof.
  revert v. induction n as [|n IH]; intros v Hd;
    destruct v as [| | | | |l]; try exact I; [contradiction|].
  change (plain (S (S n)) h (Ref l)) with
    (match h !! l with
     | Some (Cell _ (Object m)) =>
         map_Forall (λ key x, ordinary_key key = true ∧ plain (S n) h x) m
     | Some (Cell _ (Array es)) => Forall (plain (S n) h) es
     | None => False
     end).
  cbn [plain] in Hd.
  destruct (h !! l) as [[fz [m|es]]|]; [| |contradiction].
  - intros key x Hx. destruct (Hd key x Hx) as [Hk Hdx]. auto.
  - eapply Forall_impl; [exact Hd|]. intros x Hx. apply IH, Hx.
Qed.

Lemma plain_mono (n n' : nat) h v :
  n ≤ n' → plain n h v → plain n' h v.
Proof.
  induction 1 as [|n' _ IH]; [auto|]. intros Hd. apply plain_S, IH, Hd.
Qed.

(** An object of the base heap is the same in every heap that extends it. *)
Lemma isObject_old (n : nat) hb h v :
  hb `prefix_of` h → plain n hb v → isObject h v = isObject hb v.
Proof.
  intros Hp Hd. destruct v as [| | | | |l]; try reflexivity.
  destruct n as [|n]; [contradiction|]. cbn [plain] in Hd. simpl.
  destruct (hb !! l) as [c|] eqn:Hl; [|contradiction].
  rewrite (prefix_lookup_Some _ _ _ _ Hl Hp). reflexivity.
Qed.

Lemma isArray_old (n : nat) hb h v :
  hb `prefix_of` h → plain n hb v → isArray h v = isArray hb v.
Proof.
  intros Hp Hd. destruct v as [| | | | |l]; try reflexivity.
  destruct n as [|n]; [contradiction|]. cbn [plain] in Hd. simpl.
  destruct (hb !! l) as [c|] eqn:Hl; [|contradiction].
  rewrite (prefix_lookup_Some _ _ _ _ Hl Hp). reflexivity.
Qed.

Lemma props_of_old (n : nat) hb h v :
  hb `prefix_of` h → plain n hb v → props_of h v = props_of hb v.
Proof.
  intros Hp Hd. destruct v as [| | | | |l]; try reflexivity.
  destruct n as [|n]; [contradiction|]. cbn [plain] in Hd. simpl.
  destruct (hb !! l) as [c|] eqn:Hl; [|contradiction].
  rewrite (prefix_lookup_Some _ _ _ _ Hl Hp). reflexivity.
Qed.

(** The properties of a plain value of depth [S n] have ordinary names and
    plain values of depth [n]. *)
Lemma props_of_depth (n : nat) hb v :
  plain (S n) hb v →
  map_Forall (λ key x, ordinary_key key = true ∧ plain n hb x)
    (props_of hb v).
Proof.
  intros Hd. destruct v as [| | | | |l]; try (intros k x Hx; discriminate Hx).
  cbn [plain] in Hd. simpl.
  destruct (hb !! l) as [[fz [m|es]]|] eqn:Hl; [exact Hd| |contradiction].
  intros key x Hx. apply elem_of_list_to_map_2 in Hx.
  apply elem_of_lookup_imap_1 in Hx as (i & y & Heq & Hy).
  injection Heq as -> ->. split; [apply ordinary_key_index|].
  rewrite Forall_forall in Hd. apply Hd.
  apply list_elem_of_lookup. eauto.
Qed.

(** A plain object is an object for kind-of, and a plain object for
    is-plain-object. *)
Lemma plain_object (n : nat) h (l : loc) (fz : bool) (m : gmap string val) :
  plain n h (Ref l) → h !! l = Some (Cell fz (Object m)) →
  isBuffer m = false ∧ isPlainObject m = true.
Proof.
  intros Hd Hl. destruct n as [|n]; [contradiction|].
  cbn [plain] in Hd. rewrite Hl in Hd. split.
  - unfold isBuffer. destruct (m !! "_isBuffer") as [x|] eqn:Hx; [|reflexivity].
    destruct (Hd _ x Hx) as [Hk _]. discriminate Hk.
  - unfold isPlainObject. apply bool_decide_eq_true.
    destruct (m !! "constructor") as [x|] eqn:Hx; [|reflexivity].
    destruct (Hd _ x Hx) as [Hk _]. discriminate Hk.
Qed.

(** A plain object held by a property of a new plain object is new. *)
Lemma get_fresh hb h target (key : string) :
  hb `prefix_of` h → closed_above hb h → fresh_or_prim hb target →
  isObject h target = true → isObject h (get h target key) = true →
  fresh_or_prim hb (get h target key).
Proof.
  intros Hp [_ Hc] Ht Ho Hn. unfold get in *.
  destruct target as [| | | | |t]; try discriminate Ho. simpl in *.
  destruct (h !! t) as [[fz [m|es]]|] eqn:Hcell; try discriminate Ho.
  destruct (m !! key) as [[| | | | |l']|] eqn:Hkey; simpl in *;
    try exact I.
  destruct (decide (l' < length hb)) as [Hlt|]; [|lia].
  pose proof (Hc t fz m key l' Ht Hcell Hkey Hlt) as Hno.
  simpl in Hno. rewrite <- (prefix_lookup_old hb h l' Hp Hlt) in Hno.
  rewrite Hno in Hn. discriminate Hn.
Qed.

Lemma plainb_sound (n : nat) h v : plainb n h v = true → plain n h v.
Proof.
  revert v. induction n as [|n IH]; intros v Hb;
    destruct v as [| | | | |l]; try exact I; cbn [plainb plain] in *;
    [discriminate Hb|].
  destruct (h !! l) as [[fz [m|es]]|]; [| |discriminate Hb].
  - apply bool_decide_eq_true in Hb. intros key x Hx.
    specialize (Hb key x Hx). apply andb_true_iff in Hb as [Hk Hbx].
    auto.
  - apply Forall_forall. intros x Hx. apply IH.
    rewrite forallb_forall in Hb. apply Hb, list_elem_of_In, Hx.
Qed.

End StoreFacts.

(** ** clone-deep, merge-deep on the heap: they return, and write only to
    what they made *)

Section StoreLibraries.

Import Store.
Implicit Types h hb : heap.
Implicit Types v target : val.

(** [cloneDeep] of a value of depth at most [fuel] returns; the base heap
    is untouched and the copy is new. *)
Lemma cloneDeep_grows hb (fuel : nat) :
  ∀ v h,
    hb `prefix_of` h → closed_above hb h → plain fuel hb v →
    ∃ h' r,
      Lib.cloneDeep fuel h v = Some (h', r)
      ∧ hb `prefix_of` h' ∧ closed_above hb h' ∧ keeps_objects h h'
      ∧ fresh_or_prim hb r.
Proof.
  induction fuel as [|fuel IH]; intros v h Hp Hc Hd.
  { destruct v; try contradiction;
      (eexists _, _; split; [reflexivity|];
       auto using keeps_objects_refl). }
  destruct v as [| | | | |l];
    try (eexists _, _; split; [reflexivity|];
         auto using keeps_objects_refl; fail).
  pose proof Hd as Hplain.
  cbn [plain] in Hd. cbn [Lib.cloneDeep].
  destruct (hb !! l) as [[fz [m|es]]|] eqn:Hl; [| |contradiction];
    rewrite (prefix_lookup_Some _ _ _ _ Hl Hp).
  - (* a plain object *)
    destruct (plain_object _ hb l fz m Hplain Hl) as [-> ->]. cbn [negb andb].
    destruct (alloc_grows hb h (Object ∅) Hp Hc) as (Hp0 & Hc0 & Hk0 & Hres & _).
    { intros m0 key l' Hm0 Hkey. injection Hm0 as <-.
      rewrite lookup_empty in Hkey. discriminate Hkey. }
    unfold alloc in *. cbn [fst snd] in *.
    set (h0 := h ++ [Cell false (Object ∅)]) in *.
    set (res := length h) in *.
    assert (Hloop : ∃ h1,
      map_fold
        (λ key v acc,
           h ← acc;
           '(h, c) ← Lib.cloneDeep fuel h v;
           Some (set h (Ref res) key c))
        (Some h0) m = Some h1
      ∧ hb `prefix_of` h1 ∧ closed_above hb h1 ∧ keeps_objects h0 h1).
    { revert Hd. apply (map_fold_weak_ind
        (λ acc m',
           map_Forall (λ key x, ordinary_key key = true ∧ plain fuel hb x) m' →
           ∃ h1, acc = Some h1 ∧ hb `prefix_of` h1 ∧ closed_above hb h1
                 ∧ keeps_objects h0 h1)).
      - intros _. exists h0. auto using keeps_objects_refl.
      - intros key x m' acc Hnone Hacc HF.
        apply map_Forall_insert in HF as [[Hkey Hx] HF]; [|exact Hnone].
        destruct (Hacc HF) as (h1 & -> & Hp1 & Hc1 & Hk1).
        destruct (IH x h1 Hp1 Hc1 Hx) as (h2 & c & Hclone & Hp2 & Hc2 & Hk2 & Hfc).
        simpl. rewrite Hclone. simpl.
        destruct (set_grows hb h2 (Ref res) key c Hp2 Hc2 Hres Hfc
                    (ordinary_key_not_mark key Hkey))
          as (Hp3 & Hc3 & Hk3).
        eexists. split; [reflexivity|]. split; [exact Hp3|].
        split; [exact Hc3|].
        eauto using keeps_objects_trans. }
    destruct Hloop as (h1 & -> & Hp1 & Hc1 & Hk1). simpl.
    eexists _, _. split; [reflexivity|].
    split; [exact Hp1|]. split; [exact Hc1|].
    split; [eauto using keeps_objects_trans|exact Hres].
  - (* an array *)
    destruct (alloc_grows hb h (Array []) Hp Hc) as (Hp0 & Hc0 & Hk0 & Hres & _).
    { intros m0 key l' Hm0. discriminate Hm0. }
    unfold alloc in *. cbn [fst snd] in *.
    set (h0 := h ++ [Cell false (Array [])]) in *.
    set (res := length h) in *.
    assert (Hloop : ∀ es' h1,
      Forall (plain fuel hb) es' →
      hb `prefix_of` h1 → closed_above hb h1 →
      ∃ h2,
        foldl
          (λ acc v,
             h ← acc;
             '(h, c) ← Lib.cloneDeep fuel h v;
             Some (push h (Ref res) c))
          (Some h1) es' = Some h2
        ∧ hb `prefix_of` h2 ∧ closed_above hb h2 ∧ keeps_objects h1 h2).
    { induction es' as [|x es' IHes]; intros h1 HF Hp1 Hc1.
      - exists h1. auto using keeps_objects_refl.
      - inversion HF as [|? ? Hx HF']; subst.
        destruct (IH x h1 Hp1 Hc1 Hx) as (h2 & c & Hclone & Hp2 & Hc2 & Hk2 & Hfc).
        simpl. rewrite Hclone. simpl.
        destruct (push_grows hb h2 (Ref res) c Hp2 Hc2 Hres)
          as (Hp3 & Hc3 & Hk3).
        destruct (IHes _ HF' Hp3 Hc3) as (h4 & Hfold & Hp4 & Hc4 & Hk4).
        exists h4. split; [exact Hfold|]. split; [exact Hp4|].
        split; [exact Hc4|]. eauto using keeps_objects_trans. }
    destruct (Hloop es h0 Hd Hp0 Hc0) as (h1 & -> & Hp1 & Hc1 & Hk1). simpl.
    eexists _, _. split; [reflexivity|].
    split; [exact Hp1|]. split; [exact Hc1|].
    split; [eauto using keeps_objects_trans|exact Hres].
Qed.

(** [merge(target, obj)] into a new plain object, from an object of the
    base heap of depth at most [fuel], returns; the base heap is untouched. *)
Lemma merge_grows hb (fuel : nat) :
  ∀ obj target h,
    hb `prefix_of` h → closed_above hb h →
    fresh_or_prim hb target → isObject h target = true →
    plain fuel hb obj → isObject hb obj || isArray hb obj = true →
    ∃ h',
      Lib.merge fuel h target obj = Some h'
      ∧ hb `prefix_of` h' ∧ closed_above hb h' ∧ keeps_objects h h'.
Proof.
  induction fuel as [|fuel IH]; intros obj target h Hp Hc Ht Hto Hd Hobj.
  { destruct obj; try discriminate Hobj. contradiction. }
  cbn [Lib.merge].
  rewrite (props_of_old (S fuel) hb h obj Hp Hd).
  pose proof (props_of_depth fuel hb obj Hd) as HF. revert HF.
  apply (map_fold_weak_ind
    (λ acc m',
       map_Forall (λ key x, ordinary_key key = true ∧ plain fuel hb x) m' →
       ∃ h1, acc = Some h1 ∧ hb `prefix_of` h1 ∧ closed_above hb h1
             ∧ keeps_objects h h1)).
  - intros _. exists h. auto using keeps_objects_refl.
  - intros key oldVal m' acc Hnone Hacc HF.
    apply map_Forall_insert in HF as [[Hkey Hx] HF]; [|exact Hnone].
    apply ordinary_key_not_mark in Hkey.
    destruct (Hacc HF) as (h1 & -> & Hp1 & Hc1 & Hk1). simpl.
    destruct (MergeDeep.isValidKey key);
      [|exists h1; split; [reflexivity|]; auto].
    pose proof (Hk1 target Hto) as Hto1.
    destruct (isObject h1 (get h1 target key) && isObject h1 oldVal) eqn:Hboth.
    + apply andb_true_iff in Hboth as [Hn Ho].
      pose proof (get_fresh hb h1 target key Hp1 Hc1 Ht Hto1 Hn) as Hfn.
      rewrite (isObject_old fuel hb h1 oldVal Hp1 Hx) in Ho.
      destruct (IH oldVal (get h1 target key) h1 Hp1 Hc1 Hfn Hn Hx)
        as (h2 & Hm & Hp2 & Hc2 & Hk2).
      { rewrite Ho. reflexivity. }
      rewrite Hm. simpl.
      rewrite (set_strict_fresh hb h2 target key _ Hc2 Ht).
      destruct (set_grows hb h2 target key (get h1 target key) Hp2 Hc2 Ht Hfn
                  Hkey)
        as (Hp3 & Hc3 & Hk3).
      eexists. split; [reflexivity|]. split; [exact Hp3|].
      split; [exact Hc3|]. eauto using keeps_objects_trans.
    + destruct (isArray h1 (get h1 target key)).
      * unfold Lib.union.
        destruct (alloc_grows hb h1
                    (Array (foldl (Lib.add_arg h1) []
                              [get h1 target key; oldVal])) Hp1 Hc1)
          as (Hp2 & Hc2 & Hk2 & Hres & _).
        { intros m0 k l' Hm0. discriminate Hm0. }
        unfold alloc in *. cbn [fst snd] in *.
        rewrite (set_strict_fresh hb _ target key _ Hc2 Ht).
        destruct (set_grows hb _ target key (Ref (length h1)) Hp2 Hc2 Ht Hres
                    Hkey)
          as (Hp3 & Hc3 & Hk3).
        eexists. split; [reflexivity|]. split; [exact Hp3|].
        split; [exact Hc3|]. eauto using keeps_objects_trans.
      * destruct (cloneDeep_grows hb fuel oldVal h1 Hp1 Hc1 Hx)
          as (h2 & c & Hclone & Hp2 & Hc2 & Hk2 & Hfc).
        rewrite Hclone. simpl.
        rewrite (set_strict_fresh hb h2 target key _ Hc2 Ht).
        destruct (set_grows hb h2 target key c Hp2 Hc2 Ht Hfc Hkey)
          as (Hp3 & Hc3 & Hk3).
        eexists. split; [reflexivity|]. split; [exact Hp3|].
        split; [exact Hc3|]. eauto using keeps_objects_trans.
Qed.

Lemma closed_above_base hb : closed_above hb hb.
Proof.
  split.
  - intros l c Hl Hcell. apply lookup_lt_Some in Hcell. lia.
  - intros l fz m key l' Hl Hcell _ _.
    apply lookup_lt_Some in Hcell. lia.
Qed.

(** [mergeDeep({}, ...objects)] on objects of the base heap of depth at most
    [fuel] returns a new object; the base heap is untouched. *)
Lemma mergeDeep_grows hb (fuel : nat) (orig : loc) (objects : list val) :
  1 ≤ fuel →
  hb !! orig = Some (Cell false (Object ∅)) →
  Forall (plain fuel hb) objects →
  ∃ h' r,
    Lib.mergeDeep fuel hb (Ref orig) objects = Some (h', Ref r)
    ∧ hb `prefix_of` h' ∧ length hb ≤ r ∧ isObject h' (Ref r) = true.
Proof.
  intros Hfuel Horig HF. unfold Lib.mergeDeep.
  assert (isObject hb (Ref orig) = true) as -> by (simpl; rewrite Horig; reflexivity).
  cbn [orb].
  destruct fuel as [|fuel]; [lia|].
  cbn [Lib.cloneDeep]. rewrite Horig.
  change (negb (isBuffer ∅) && isPlainObject ∅) with true. cbn match.
  unfold alloc. rewrite map_fold_empty. cbn [mbind option_bind].
  set (h0 := hb ++ [Cell false (Object ∅)]).
  set (target := Ref (length hb)).
  assert (Hp0 : hb `prefix_of` h0) by (apply prefix_app_r; reflexivity).
  assert (Hc0 : closed_above hb h0).
  { apply (alloc_grows hb hb (Object ∅)); [reflexivity|apply closed_above_base|].
    intros m key l' Hm Hkey. injection Hm as <-.
    rewrite lookup_empty in Hkey. discriminate Hkey. }
  assert (Ht0 : isObject h0 target = true).
  { unfold h0, target. simpl. rewrite list_lookup_middle by reflexivity.
    reflexivity. }
  assert (Hloop : ∀ objs h1,
    Forall (plain (S fuel) hb) objs →
    hb `prefix_of` h1 → closed_above hb h1 → isObject h1 target = true →
    ∃ h2,
      foldl
        (λ acc v,
           h ← acc;
           if isObject h v || isArray h v
           then Lib.merge (S fuel) h target v
           else Some h)
        (Some h1) objs = Some h2
      ∧ hb `prefix_of` h2 ∧ isObject h2 target = true).
  { induction objs as [|x objs IHo]; intros h1 HFo Hp1 Hc1 Ht1.
    - exists h1. auto.
    - inversion HFo as [|? ? Hx HFo']; subst.
      cbn [foldl mbind option_bind].
      rewrite (isObject_old _ hb h1 x Hp1 Hx), (isArray_old _ hb h1 x Hp1 Hx).
      destruct (isObject hb x || isArray hb x) eqn:Hk.
      + destruct (merge_grows hb (S fuel) x target h1 Hp1 Hc1) as
          (h2 & Hm & Hp2 & Hc2 & Hk2); auto.
        { unfold target. simpl. lia. }
        rewrite Hm. apply (IHo h2 HFo' Hp2 Hc2). apply Hk2, Ht1.
      + apply (IHo h1 HFo' Hp1 Hc1 Ht1). }
  destruct (Hloop objects h0 HF Hp0 Hc0 Ht0) as (h2 & -> & Hp2 & Ht2).
  cbn [mbind option_bind]. eexists _, _. split; [reflexivity|]. auto.
Qed.

End StoreLibraries.

(** ** The claims about freezing and about the overrider *)

Section StoreClaims.

Import Store.
Context {schema : Type} (schema_merge : schema → schema → schema).
Implicit Types h : heap.
Implicit Types a b u : ZodFig schema.

(** No write changes a frozen object. *)
Lemma mutate_frozen h (m : mutation) (l : loc) (b : body) :
  h !! l = Some (Cell true b) → mutate h m !! l = Some (Cell true b).
Proof.
  intros Hl.
  assert (Hins : ∀ t c, (t = l → False) ∨ h !! t ≠ h !! l →
                   <[t := c]> h !! l = Some (Cell true b)).
  { intros t c [Hne | Hne].
    - rewrite list_lookup_insert_ne by (intros ->; apply Hne; reflexivity).
      exact Hl.
    - rewrite list_lookup_insert_ne by (intros ->; apply Hne; reflexivity).
      exact Hl. }
  destruct m as [target key v | target key | target v | target i v | target | b0];
    simpl; try (destruct target as [| | | | |t]; try exact Hl).
  - unfold set. destruct (h !! t) as [[[] [m|es]]|] eqn:Ht; try exact Hl.
    apply Hins. right. rewrite Ht, Hl. discriminate.
  - unfold delete_prop.
    destruct (h !! t) as [[[] [m|es]]|] eqn:Ht; try exact Hl.
    apply Hins. right. rewrite Ht, Hl. discriminate.
  - unfold push. destruct (h !! t) as [[[] [m|es]]|] eqn:Ht; try exact Hl.
    apply Hins. right. rewrite Ht, Hl. discriminate.
  - unfold set_index.
    destruct (h !! t) as [[[] [m|es]]|] eqn:Ht; try exact Hl.
    apply Hins. right. rewrite Ht, Hl. discriminate.
  - unfold freeze. destruct (decide (t = l)) as [->|Hne].
    + rewrite list_lookup_alter_eq, Hl. reflexivity.
    + rewrite list_lookup_alter_ne by exact Hne. exact Hl.
  - apply lookup_app_l_Some. exact Hl.
Qed.

Lemma mutations_frozen (ms : list mutation) h (l : loc) (b : body) :
  h !! l = Some (Cell true b) →
  foldl mutate h ms !! l = Some (Cell true b).
Proof.
  revert h. induction ms as [|m ms IH]; intros h Hl; simpl; [exact Hl|].
  apply IH, mutate_frozen, Hl.
Qed.

Lemma freeze_lookup h (l : loc) (c : cell) :
  h !! l = Some c → freeze h (Ref l) !! l = Some (Cell true (content c)).
Proof. intros Hl. simpl. rewrite list_lookup_alter_eq, Hl. reflexivity. Qed.

Lemma freeze_above hb h (l : loc) :
  hb `prefix_of` h → length hb ≤ l → hb `prefix_of` freeze h (Ref l).
Proof.
  intros [k ->] Hl. simpl. rewrite alter_app_r_alt by exact Hl.
  apply prefix_app_r. reflexivity.
Qed.

(** The call [mergeDeep({}, x, y)], the literal included. *)
Lemma mergeDeep_call_grows h (fuel : nat) (x y : val) :
  1 ≤ fuel → plain fuel h x → plain fuel h y →
  ∃ h' r,
    Lib.mergeDeep fuel (alloc h (Object ∅)).1
      (Ref (alloc h (Object ∅)).2) [x; y] = Some (h', Ref r)
    ∧ h `prefix_of` h' ∧ length h ≤ r.
Proof.
  intros Hfuel Hx Hy. unfold alloc. cbn [fst snd].
  set (h0 := h ++ [Cell false (Object ∅)]).
  assert (Hp : h `prefix_of` h0) by (apply prefix_app_r; reflexivity).
  destruct (mergeDeep_grows h0 fuel (length h) [x; y] Hfuel)
    as (h' & r & Hm & Hp' & Hr & _).
  - apply list_lookup_middle. reflexivity.
  - repeat constructor; eapply plain_prefix; eassumption.
  - exists h', r. split; [exact Hm|]. split; [etrans; eassumption|].
    apply prefix_length in Hp. lia.
Qed.

(** [x ?? {}]. *)
Lemma or_empty_object_grows h (fuel : nat) (x : val) :
  1 ≤ fuel → plain fuel h x →
  h `prefix_of` (or_empty_object h x).1
  ∧ plain fuel (or_empty_object h x).1 (or_empty_object h x).2.
Proof.
  intros Hfuel Hx.
  destruct x as [| | | | |l]; simpl; try (split; [reflexivity|exact Hx]).
  - split; [apply prefix_app_r; reflexivity|].
    destruct fuel as [|fuel]; [lia|]. cbn [plain].
    rewrite list_lookup_middle by reflexivity.
    apply map_Forall_empty.
  - split; [apply prefix_app_r; reflexivity|].
    destruct fuel as [|fuel]; [lia|]. cbn [plain].
    rewrite list_lookup_middle by reflexivity.
    apply map_Forall_empty.
Qed.

(** [override] returns a new unit with the schema of [this]; every object of
    the heap is as it was. *)
Lemma override_returns (fuel n : nat) h u (config : val) :
  n < fuel → plain n h (_config u) → plain n h config →
  ∃ h' r new,
    override fuel h u config = Some (h', r)
    ∧ _schema r = _schema u ∧ _config r = Ref new ∧ length h ≤ new
    ∧ ∀ l c, h !! l = Some c → h' !! l = Some c.
Proof.
  intros Hn Hu Hc.
  destruct (mergeDeep_call_grows h fuel (_config u) config)
    as (h' & r & Hm & Hp & Hr); [lia| | |].
  { eapply plain_mono; [|exact Hu]. lia. }
  { eapply plain_mono; [|exact Hc]. lia. }
  unfold override. unfold alloc in *. cbn [fst snd] in Hm. rewrite Hm.
  cbn [mbind option_bind]. unfold new_ZodFig. cbn [truthy].
  eexists _, _, r. split; [reflexivity|]. repeat split; [exact Hr|].
  intros l c Hl. eapply prefix_lookup_Some; [exact Hl|].
  apply freeze_above; assumption.
Qed.



(** C5 (amended).  [u.overrideAync(f)], for every unit [u] and overrider
    [f].  When [f] returns [config] (plain data, as [u]'s), the promise is
    fulfilled with the unit that [u.override(config)] makes in the heap [f]
    has left: a new unit with [u]'s schema and a new data object, every
    object that existed being as [f] left it.  When [f] fails, the promise
    fails with the same cause, no ConfigUnit is made, the call itself has
    written nothing (the heap is as [f] left it), and every frozen object,
    the data object of [u] among them, has the fields it had.  (What [f]
    wrote into the objects those fields refer to stays written.) *)
Theorem overrideAync_settles (fuel n : nat) h u (f : overrider) :
  n < fuel →
  let ms := (f h (_config u)).1 in
  let settled := (f h (_config u)).2 in
  let h1 := foldl mutate h ms in
  (∀ config, settled = Returns config →
     plain n h1 (_config u) → plain n h1 config →
     ∃ h' r new,
       overrideAync fuel h u f = Some (h', Returns r)
       ∧ override fuel h1 u config = Some (h', r)
       ∧ _schema r = _schema u ∧ _config r = Ref new ∧ length h1 ≤ new
       ∧ ∀ l c, h1 !! l = Some c → h' !! l = Some c)
  ∧ (∀ e, settled = Throws e →
       overrideAync fuel h u f = Some (h1, Throws e)
       ∧ ∀ l d, h !! l = Some (Cell true d) → h1 !! l = Some (Cell true d)).
Proof.
  intros Hn ms settled h1. subst ms settled h1. unfold overrideAync.
  destruct (f h (_config u)) as [ms settled]. cbn [fst snd]. split.
  - intros config -> Hdu Hdc.
    destruct (override_returns fuel n _ u config Hn Hdu Hdc)
      as (h' & r & new & Ho & Hs & Hr & Hnew & Hold).
    rewrite Ho. cbn [mbind option_bind]. eauto 10.
  - intros e ->. split; [reflexivity|].
    intros l d Hl. apply mutations_frozen, Hl.
Qed.

End StoreClaims.

(** The heap of [nested_unit]: the data object is frozen, the nested object
    is not. *)
Example nested_unit_heap :
  Examples.nested_unit.1
  = [Store.Cell false (Store.Object {[ "port" := Store.Num 1 ]});
     Store.Cell true (Store.Object {[ "db" := Store.Ref 0 ]})].
Proof. reflexivity. Qed.

(** A write to a top-level field of the frozen data changes nothing. *)
Example write_top_example :
  Store.mutate Examples.nested_unit.1 Examples.write_top
  = Examples.nested_unit.1.
Proof. reflexivity. Qed.



(** C5, as stated, fails: an overrider that writes into a nested object of
    the data it is passed and then fails leaves the unit's data changed. *)
Lemma failing_overrider_changes_data :
  match Store.overrideAync 4 Examples.nested_unit.1 Examples.nested_unit.2
          Examples.failing_overrider with
  | Some (h1, Throws _) =>
      Store.snapshot 3 h1 (Store._config Examples.nested_unit.2)
      ≠ Store.snapshot 3 Examples.nested_unit.1
          (Store._config Examples.nested_unit.2)
  | _ => False
  end.
Proof.
  cbn [Store.overrideAync Examples.failing_overrider].
  intros H.
  apply (f_equal (λ d, at_path d ["db"; "port"])) in H.
  vm_compute in H. discriminate H.
Qed.

(** An overrider that succeeds, on the unit of [{tags: ['a','b']}], and one
    that fails, on the unit of [{db: {port: 1}}]. *)
Lemma overrideAync_settles_witness :
  (∃ h' r new,
     Store.overrideAync 4 Examples.tags_unit.1 Examples.tags_unit.2
       Examples.tags_overrider = Some (h', Returns r)
     ∧ Store.override 4
         (foldl Store.mutate Examples.tags_unit.1
            (Examples.tags_overrider Examples.tags_unit.1
               (Store._config Examples.tags_unit.2)).1)
         Examples.tags_unit.2 (Store.Ref 3) = Some (h', r)
     ∧ Store._schema r = Store._schema Examples.tags_unit.2
     ∧ Store._config r = Store.Ref new
     ∧ length
         (foldl Store.mutate Examples.tags_unit.1
            (Examples.tags_overrider Examples.tags_unit.1
               (Store._config Examples.tags_unit.2)).1) ≤ new
     ∧ ∀ l c,
         foldl Store.mutate Examples.tags_unit.1
           (Examples.tags_overrider Examples.tags_unit.1
              (Store._config Examples.tags_unit.2)).1 !! l = Some c →
         h' !! l = Some c)
  ∧ (Store.overrideAync 4 Examples.nested_unit.1 Examples.nested_unit.2
       Examples.failing_overrider
     = Some (foldl Store.mutate Examples.nested_unit.1
               (Examples.failing_overrider Examples.nested_unit.1
                  (Store._config Examples.nested_unit.2)).1,
             Throws (OtherError "boom"))
     ∧ ∀ l d,
         Examples.nested_unit.1 !! l = Some (Store.Cell true d) →
         foldl Store.mutate Examples.nested_unit.1
           (Examples.failing_overrider Examples.nested_unit.1
              (Store._config Examples.nested_unit.2)).1 !! l
         = Some (Store.Cell true d)).
Proof.
  split.
  - destruct (overrideAync_settles 4 3 Examples.tags_unit.1
                Examples.tags_unit.2 Examples.tags_overrider)
      as [Hreturns _]; [lia|].
    apply (Hreturns (Store.Ref 3)).
    + reflexivity.
    + apply plainb_sound. vm_compute. reflexivity.
    + apply plainb_sound. vm_compute. reflexivity.
  - destruct (overrideAync_settles 4 3 Examples.nested_unit.1
                Examples.nested_unit.2 Examples.failing_overrider)
      as [_ Hthrows]; [lia|].
    apply (Hthrows (OtherError "boom")). reflexivity.
Defined.

(** The overrider that succeeds: [{tags: ['a','b']}] overridden with
    [{tags: ['x']}] on the heap, read back as a tree. *)
Example store_override_tags_example :
  match Store.overrideAync 4 Examples.tags_unit.1 Examples.tags_unit.2
          Examples.tags_overrider with
  | Some (h', Returns r) =>
      Store.snapshot 3 h' (Store._config r)
      = VObj {[ "tags" := VArr [VStr "a"; VStr "b"; VStr "x"] ]}
  | _ => False
  end.
Proof. vm_compute. reflexivity. Qed.

(** [merge] on the heap, read back as a tree: the data of [Tree.merge]. *)
Example store_merge_example :
  match Store.merge Examples.no_schema_merge 4
          (Examples.nested_heap
           ++ [Store.Cell false (Store.Object {[ "port" := Store.Num 2;
                                                 "host" := Store.Str "h" ]});
               Store.Cell false (Store.Object {[ "db" := Store.Ref 2 ]})])
          (Store.Instance tt (Store.Ref 1)) (Store.Instance tt (Store.Ref 3))
  with
  | Some (h', r) =>
      Store.snapshot 3 h' (Store._config r)
      = Tree._config
          (Tree.merge Examples.no_schema_merge
             (Tree.new_ZodFig tt (VObj {[ "db" := VObj {[ "port" := VNum 1 ]} ]}))
             (Tree.new_ZodFig tt
                (VObj {[ "db" := VObj {[ "port" := VNum 2;
                                         "host" := VStr "h" ]} ]})))
  | None => False
  end.
Proof. vm_compute. reflexivity. Qed.

(** What clone-deep does not copy, the result shares, and merge-deep then
    writes into it: with [d = {db: {constructor: 1, port: 1}}], overriding
    with [{db: {port: 2}}] sets [d.db.port] to 2. *)
Example override_writes_into_unplain_input :
  let h :=
    [Store.Cell false
       (Store.Object {[ "constructor" := Store.Num 1; "port" := Store.Num 1 ]});
     Store.Cell true (Store.Object {[ "db" := Store.Ref 0 ]});
     Store.Cell false (Store.Object {[ "port" := Store.Num 2 ]});
     Store.Cell false (Store.Object {[ "db" := Store.Ref 2 ]})] in
  match Store.override 4 h (Store.Instance tt (Store.Ref 1)) (Store.Ref 3) with
  | Some (h', r) =>
      h' !! 0
      = Some (Store.Cell false
                (Store.Object {[ "constructor" := Store.Num 1;
                                 "port" := Store.Num 2 ]}))
      ∧ Store.get h' (Store._config r) "db" = Store.Ref 0
  | None => False
  end.
Proof. vm_compute. auto. Qed.

(** If that object is frozen, the assignment of merge-deep, which is strict
    code, throws: [override] does not return. *)
Example override_throws_on_frozen_unplain_input :
  Store.override 4
    [Store.Cell true
       (Store.Object {[ "constructor" := Store.Num 1; "port" := Store.Num 1 ]});
     Store.Cell true (Store.Object {[ "db" := Store.Ref 0 ]});
     Store.Cell false (Store.Object {[ "port" := Store.Num 2 ]});
     Store.Cell false (Store.Object {[ "db" := Store.Ref 2 ]})]
    (Store.Instance tt (Store.Ref 1)) (Store.Ref 3)
  = None.
Proof. vm_compute. reflexivity. Qed.

(** C7, as stated, fails: no field path is shared among [a], [b] and [c],
    and the two groupings differ.  The sequence [t] of [c] holds one object
    twice; merged into [a]'s sequence directly, arr-union keeps it once;
    merged after [b.merge(c)] has cloned it into two objects, twice. *)
Lemma repeated_object_breaks_associativity :
  (∀ path,
     ¬ (has_path (Store.snapshot 4 Examples.shared_heap
                    (Store._config Examples.unit_a)) path
        ∧ has_path (Store.snapshot 4 Examples.shared_heap
                      (Store._config Examples.unit_b)) path
        ∧ has_path (Store.snapshot 4 Examples.shared_heap
                      (Store._config Examples.unit_c)) path))
  ∧ Examples.merge_left Examples.shared_heap
      Examples.unit_a Examples.unit_b Examples.unit_c
    ≠ Examples.merge_right Examples.shared_heap
        Examples.unit_a Examples.unit_b Examples.unit_c.
Proof.
  split.
  - apply no_common_path_of_fields. vm_compute. reflexivity.
  - intros H.
    apply (f_equal (λ r, r ≫= λ d, at_path d ["t"])) in H.
    vm_compute in H. discriminate H.
Qed.

(** The two groupings there. *)
Example merge_left_shared :
  Examples.merge_left Examples.shared_heap
    Examples.unit_a Examples.unit_b Examples.unit_c
  = Some (VObj {[ "t" := VArr [VNum 0; VObj {[ "id" := VNum 1 ]}] ]}).
Proof. vm_compute. reflexivity. Qed.

Example merge_right_shared :
  Examples.merge_right Examples.shared_heap
    Examples.unit_a Examples.unit_b Examples.unit_c
  = Some (VObj {[ "t" := VArr [VNum 0; VObj {[ "id" := VNum 1 ]};
                               VObj {[ "id" := VNum 1 ]}] ]}).
Proof. vm_compute. reflexivity. Qed.

(** With two separate objects the groupings agree, and agree with the
    merge on trees. *)
Example merge_unshared :
  Examples.merge_left Examples.unshared_heap
    Examples.unit_a Examples.unit_b Examples.unit_c
  = Examples.merge_right Examples.unshared_heap
      Examples.unit_a Examples.unit_b Examples.unit_c
  ∧ Examples.merge_left Examples.unshared_heap
      Examples.unit_a Examples.unit_b Examples.unit_c
    = Some
        (Tree._config
           (Tree.merge Examples.no_schema_merge
              (Tree.merge Examples.no_schema_merge
                 (Tree.new_ZodFig tt (VObj {[ "t" := VArr [VNum 0] ]}))
                 (Tree.new_ZodFig tt (VObj ∅)))
              (Tree.new_ZodFig tt
                 (VObj {[ "t" := VArr [VObj {[ "id" := VNum 1 ]};
                                       VObj {[ "id" := VNum 1 ]}] ]})))).
Proof. split; vm_compute; reflexivity. Qed.


(** ** More equations of merge-deep on trees *)

Lemma merged_props_nullish_or (c : value) :
  merged_props (nullish_or c (VObj ∅)) = merged_props c.
Proof. destruct c; reflexivity. Qed.

(** On ordinary values, [mergeDeep] merges every property there is. *)
Lemma merged_props_ordinary (d : value) :
  ordinary d → merged_props d = own_props d.
Proof.
  intros Ho. destruct d as [| | | | | |m]; try reflexivity.
  unfold merged_props. rewrite (ordinary_isObject m Ho). reflexivity.
Qed.

Lemma merged_props_subseteq (d : value) (key : string) (x : value) :
  merged_props d !! key = Some x → own_props d !! key = Some x.
Proof.
  unfold merged_props. destruct (isObject d || isArray d); [auto|].
  rewrite lookup_empty. discriminate.
Qed.

Lemma lookup_merge_value (target : gmap string value) (obj : value)
    (key : string) :
  MergeDeep.merge target obj !! key =
    match (if MergeDeep.isValidKey key then own_props obj !! key else None) with
    | Some oldVal =>
        Some (MergeDeep.assign oldVal (default VUndef (target !! key)))
    | None => target !! key
    end.
Proof.
  unfold MergeDeep.merge. rewrite lookup_merge_loop, lookup_fmap.
  destruct (MergeDeep.isValidKey key); [destruct (own_props obj !! key)|];
    reflexivity.
Qed.

(** One step of [mergeDeep]: an argument that it skips has no property to
    merge. *)
Lemma lookup_mergeDeep_step (target : gmap string value) (val : value)
    (key : string) :
  (if isObject val || isArray val then MergeDeep.merge target val else target)
    !! key =
    match (if MergeDeep.isValidKey key then merged_props val !! key
           else None) with
    | Some oldVal =>
        Some (MergeDeep.assign oldVal (default VUndef (target !! key)))
    | None => target !! key
    end.
Proof.
  unfold merged_props. destruct (isObject val || isArray val).
  - apply lookup_merge_value.
  - rewrite lookup_empty. destruct (MergeDeep.isValidKey key); reflexivity.
Qed.

(** The fields of [mergeDeep({}, x, y)], one by one. *)
Lemma lookup_mergeDeep_two (x y : value) (key : string) :
  data_fields (MergeDeep.mergeDeep [x; y]) !! key =
    if MergeDeep.isValidKey key then
      match merged_props y !! key with
      | Some oldVal =>
          Some (MergeDeep.assign oldVal
                  (default VUndef (merged_props x !! key)))
      | None => merged_props x !! key
      end
    else None.
Proof.
  unfold MergeDeep.mergeDeep. cbn [foldl data_fields].
  rewrite !lookup_mergeDeep_step, lookup_empty.
  destruct (MergeDeep.isValidKey key); [|reflexivity].
  destruct (merged_props x !! key) as [xv|], (merged_props y !! key) as [yv|];
    cbn [default]; rewrite ?(assign_over_terminal _ VUndef) by reflexivity;
    reflexivity.
Qed.

(** [mergeDeep] reads its arguments through the properties it merges. *)
Lemma mergeDeep_by_props (x x' y y' : value) :
  merged_props x = merged_props x' → merged_props y = merged_props y' →
  MergeDeep.mergeDeep [x; y] = MergeDeep.mergeDeep [x'; y'].
Proof.
  intros Hx Hy.
  assert (H : ∀ v w, data_fields v = data_fields w →
                ∀ m m', v = VObj m → w = VObj m' → v = w).
  { intros v w E m m' -> ->. cbn in E. congruence. }
  eapply H; [|reflexivity|reflexivity].
  apply map_eq. intros key. rewrite !lookup_mergeDeep_two, Hx, Hy.
  reflexivity.
Qed.

Lemma mergeDeep_nullish_or (x y : value) :
  MergeDeep.mergeDeep [nullish_or x (VObj ∅); nullish_or y (VObj ∅)]
    = MergeDeep.mergeDeep [x; y].
Proof. apply mergeDeep_by_props; apply merged_props_nullish_or. Qed.

(** Assigning over a sequence unites it with the incoming value. *)
Lemma assign_over_array (oldVal : value) (xs : list value) :
  MergeDeep.assign oldVal (VArr xs)
    = VArr (ArrUnion.union [] [VArr xs; oldVal]).
Proof. destruct oldVal; reflexivity. Qed.

(** ** More facts about arr-union *)

Lemma found_self_equal (init : list value) (e : value) :
  strict_eq e e = true → e ∈ init → ArrUnion.found init e = true.
Proof.
  intros Hp He. unfold ArrUnion.found. apply existsb_exists.
  exists e. split; [apply list_elem_of_In, He|exact Hp].
Qed.

Lemma union_pushes (xs : list value) (y : value) :
  ArrUnion.union [] [VArr xs; y] =
    if truthy y then
      foldl ArrUnion.push_new (foldl ArrUnion.push_new [] xs)
        (match y with VArr l => l | _ => [y] end)
    else foldl ArrUnion.push_new [] xs.
Proof. reflexivity. Qed.

Lemma union_array_and_value (xs : list value) (y : value) :
  ArrUnion.union [] [VArr xs; y] = without_repeats (xs ++ added y).
Proof.
  rewrite <- push_all_without_repeats, foldl_app.
  unfold ArrUnion.union, ArrUnion.add_arg, added. cbn [foldl truthy].
  destruct y as [| | | | |ys|m]; try reflexivity;
    destruct (truthy _); reflexivity.
Qed.

(** Pushing the new elements of [l] appends some of them, in order. *)
Lemma push_all_appends (l : list value) :
  ∀ init, ∃ k, foldl ArrUnion.push_new init l = init ++ k ∧ k `sublist_of` l.
Proof.
  induction l as [|a l IH]; intros init; simpl.
  - exists []. rewrite app_nil_r. split; [reflexivity|constructor].
  - unfold ArrUnion.push_new at 2.
    destruct (ArrUnion.found init a).
    + destruct (IH init) as (k & -> & Hk). exists k. split; [reflexivity|].
      apply sublist_cons, Hk.
    + destruct (IH (init ++ [a])) as (k & -> & Hk). exists (a :: k).
      rewrite <- app_assoc. split; [reflexivity|]. apply sublist_skip, Hk.
Qed.

(** Pushing never makes a value that is [===] to itself occur twice. *)
Lemma push_all_NoDup (l : list value) :
  ∀ init,
    NoDup (filter (λ e, strict_eq e e = true) init) →
    NoDup (filter (λ e, strict_eq e e = true)
             (foldl ArrUnion.push_new init l)).
Proof.
  induction l as [|a l IH]; intros init Hn; simpl; [exact Hn|].
  apply IH. unfold ArrUnion.push_new.
  destruct (ArrUnion.found init a) eqn:Hf; [exact Hn|].
  rewrite filter_app. apply NoDup_app. split; [exact Hn|]. split.
  - intros e He Ha.
    apply list_elem_of_filter in He as [Hp He].
    apply list_elem_of_filter in Ha as [_ Ha].
    apply list_elem_of_singleton in Ha. subst e.
    rewrite (found_self_equal init a Hp He) in Hf. discriminate Hf.
  - rewrite filter_cons, filter_nil.
    destruct (decide (strict_eq a a = true)); [apply NoDup_singleton|
      apply NoDup_nil_2].
Qed.

Lemma without_repeats_sublist (l : list value) :
  without_repeats l `sublist_of` l.
Proof.
  rewrite <- push_all_without_repeats.
  destruct (push_all_appends l []) as (k & -> & Hk). exact Hk.
Qed.

Lemma without_repeats_NoDup (l : list value) :
  NoDup (filter (λ e, strict_eq e e = true) (without_repeats l)).
Proof.
  rewrite <- push_all_without_repeats. apply push_all_NoDup.
  rewrite filter_nil. apply NoDup_nil_2.
Qed.

Lemma elem_of_without_repeats (l : list value) (e : value) :
  e ∈ without_repeats l ↔ e ∈ l.
Proof.
  rewrite <- push_all_without_repeats, elem_of_push_all, elem_of_nil. tauto.
Qed.

(** ** Further properties of the data of merge and override *)

Section TreeProperties.

Context {schema : Type} (schema_merge : schema → schema → schema).
Implicit Types a b u : Tree.ZodFig schema.

(** The data of [a.merge(b)], without the [?? {}]. *)
Lemma merge_data a b :
  Tree._config (Tree.merge schema_merge a b)
    = MergeDeep.mergeDeep [Tree._config a; Tree._config b].
Proof.
  unfold Tree.merge. cbn [Tree._config]. apply mergeDeep_nullish_or.
Qed.

Lemma mergeDeep_is_object (objects : list value) :
  ∃ m, MergeDeep.mergeDeep objects = VObj m.
Proof. eexists. reflexivity. Qed.


(** X1.  [merge] composes the data as [override] does: the data of [a.merge(b)]
    is the data of [a.override(b._config)], for every [a] and [b], data
    absent or not.  (The [?? {}] of [merge] stands for what merge-deep does
    with [undefined] and [null] anyway.) *)
Theorem merge_data_is_override_data a b :
  Tree._config (Tree.merge schema_merge a b)
    = Tree._config (Tree.override a (Tree._config b)).
Proof. apply merge_data. Qed.



(** X4.  A partial value that merge-deep takes neither for an object nor for
    an array ([undefined], [null], a boolean, a number, a string, and an
    object that kind-of takes for a buffer) overrides nothing: the result is
    that of overriding with the empty object. *)
Theorem non_object_partial_overrides_nothing u (p : value) :
  isObject p = false → isArray p = false →
  Tree.override u p = Tree.override u (VObj ∅).
Proof.
  intros Ho Ha. unfold Tree.override. f_equal.
  apply mergeDeep_by_props; [reflexivity|].
  unfold merged_props. rewrite Ho, Ha. reflexivity.
Qed.

(** X5.  Two units with no top-level field name in common merge to the same data
    in either order. *)
Theorem merge_commutes_on_disjoint_fields a b :
  dom (own_props (Tree._config a)) ## dom (own_props (Tree._config b)) →
  Tree._config (Tree.merge schema_merge a b)
    = Tree._config (Tree.merge schema_merge b a).
Proof.
  intros Hd. rewrite !merge_data.
  destruct (mergeDeep_is_object [Tree._config a; Tree._config b]) as [l L].
  destruct (mergeDeep_is_object [Tree._config b; Tree._config a]) as [r R].
  rewrite L, R. f_equal. apply map_eq. intros key.
  pose proof (lookup_mergeDeep_two (Tree._config a) (Tree._config b) key) as Hl.
  pose proof (lookup_mergeDeep_two (Tree._config b) (Tree._config a) key) as Hr.
  rewrite L in Hl. rewrite R in Hr. cbn [data_fields] in Hl, Hr.
  rewrite Hl, Hr.
  destruct (MergeDeep.isValidKey key); [|reflexivity].
  destruct (merged_props (Tree._config a) !! key) as [x|] eqn:Hx,
           (merged_props (Tree._config b) !! key) as [y|] eqn:Hy;
    cbn [default]; rewrite ?assign_over_terminal by reflexivity;
    try reflexivity.
  apply merged_props_subseteq in Hx, Hy.
  exfalso. apply (Hd key); apply elem_of_dom; eauto.
Qed.


(** X7.  A sequence of ordinary data is never cleared or replaced by what the
    other side holds in the same field.  The result holds the elements of
    the sequence of [this] followed by what the other side adds (the
    elements of its sequence; nothing for [undefined], [null], [false], [0],
    [NaN] and the empty string; any other value itself), without the
    elements that are [===] to an earlier one.  So every element of the
    sequence of [this] is an element of the result.  (Data as trees: two
    objects in the sequences are never the same reference.) *)
Theorem sequence_is_never_cleared u (p : value) (key : string)
    (xs : list value) (y : value) :
  ordinary (Tree._config u) →
  MergeDeep.isValidKey key = true →
  own_props (Tree._config u) !! key = Some (VArr xs) →
  merged_props p !! key = Some y →
  ∃ zs,
    data_fields (Tree._config (Tree.override u p)) !! key = Some (VArr zs)
    ∧ zs = without_repeats
             (xs ++ match y with
                    | VArr ys => ys
                    | _ => if truthy y then [y] else []
                    end)
    ∧ ∀ e, e ∈ zs ↔
        e ∈ xs ∨ match y with
                 | VArr ys => e ∈ ys
                 | _ => truthy y = true ∧ e = y
                 end.
Proof.
  intros Hu Hkey Hx Hy. unfold Tree.override. cbn [Tree._config].
  rewrite lookup_mergeDeep_two, Hkey, Hy, (merged_props_ordinary _ Hu), Hx.
  cbn [default from_option]. unfold id. rewrite assign_over_array.
  rewrite union_array_and_value.
  eexists. split; [reflexivity|]. split; [reflexivity|].
  intros e. rewrite elem_of_without_repeats, elem_of_app. unfold added.
  destruct y as [| | | | |ys|m]; try reflexivity;
    try (destruct (truthy _);
         rewrite ?list_elem_of_singleton, ?elem_of_nil;
         intuition discriminate).
Qed.

(** X8.  Where both sides hold a sequence in the same field of ordinary data,
    the result keeps the order: it is a subsequence of the elements of
    [this] followed by those of the other side; and no value that is [===]
    to itself (every primitive but [NaN]) occurs twice in it, even one that
    occurred twice in either sequence. *)
Theorem united_sequence_order_and_duplicates u (p : value) (key : string)
    (xs ys : list value) :
  ordinary (Tree._config u) →
  MergeDeep.isValidKey key = true →
  own_props (Tree._config u) !! key = Some (VArr xs) →
  merged_props p !! key = Some (VArr ys) →
  ∃ zs,
    data_fields (Tree._config (Tree.override u p)) !! key = Some (VArr zs)
    ∧ zs `sublist_of` xs ++ ys
    ∧ NoDup (filter (λ e, strict_eq e e = true) zs).
Proof.
  intros Hu Hkey Hx Hy. unfold Tree.override. cbn [Tree._config].
  rewrite lookup_mergeDeep_two, Hkey, Hy, (merged_props_ordinary _ Hu), Hx.
  cbn [default from_option]. unfold id. rewrite assign_over_array.
  rewrite union_array_and_value. cbn [added].
  eexists. split; [reflexivity|].
  split; [apply without_repeats_sublist|apply without_repeats_NoDup].
Qed.

End TreeProperties.

(** Witnesses. *)



Lemma non_object_partial_overrides_nothing_witness :
  Tree.override Examples.x_y VNull = Tree.override Examples.x_y (VObj ∅).
Proof.
  apply (non_object_partial_overrides_nothing Examples.x_y VNull);
    reflexivity.
Defined.

Lemma merge_commutes_on_disjoint_fields_witness :
  Tree._config (Tree.merge Examples.no_schema_merge Examples.x_y
                  Examples.db_host)
  = Tree._config (Tree.merge Examples.no_schema_merge Examples.db_host
                    Examples.x_y).
Proof.
  apply (merge_commutes_on_disjoint_fields Examples.no_schema_merge
           Examples.x_y Examples.db_host).
  apply (bool_decide_unpack _). vm_compute. exact I.
Defined.


(** Overriding [{tags: ['a','b']}] with [{tags: 'x'}], which is not a
    sequence, gives [{tags: ['a','b','x']}]. *)
Lemma sequence_is_never_cleared_witness :
  data_fields (Tree._config
                 (Tree.override Examples.tags_ab
                    (VObj {[ "tags" := VStr "x" ]}))) !! "tags"
    = Some (VArr [VStr "a"; VStr "b"; VStr "x"]).
Proof.
  destruct (sequence_is_never_cleared Examples.tags_ab
              (VObj {[ "tags" := VStr "x" ]}) "tags" [VStr "a"; VStr "b"]
              (VStr "x"))
    as (zs & Hz & -> & _).
  - reflexivity.
  - reflexivity.
  - reflexivity.
  - reflexivity.
  - exact Hz.
Defined.

Lemma united_sequence_order_and_duplicates_witness :
  ∃ zs,
    data_fields (Tree._config
                   (Tree.override Examples.tags_ab
                      (Tree._config Examples.tags_x))) !! "tags"
      = Some (VArr zs)
    ∧ zs `sublist_of` [VStr "a"; VStr "b"] ++ [VStr "x"]
    ∧ NoDup (filter (λ e, strict_eq e e = true) zs).
Proof.
  apply (united_sequence_order_and_duplicates Examples.tags_ab
           (Tree._config Examples.tags_x) "tags" [VStr "a"; VStr "b"]
           [VStr "x"]);
    reflexivity.
Defined.


(** ** Further properties of [run] *)

(** Splits a membership in a trace written out as a list. *)
Ltac split_elem H :=
  repeat first
    [ apply elem_of_nil in H; contradiction
    | apply elem_of_app in H as [H|H]
    | apply elem_of_cons in H as [H|H] ].

Section RunProperties.

Context {schema : Type}.
Context (parse : schema → value → completion value).
Context (existsSync : string → bool).
Context (require : string → completion (Cli.exported (schema:=schema))).
Context (write : value → completion unit).
Context (isWatching : bool) (runIn : option string).
Context (INITIAL_WORKING_DIR : string).

#[local] Ltac run_unfold :=
  unfold Cli.run, Cli.run_try, Cli.run_catch, Cli.try_catch,
    mbind, Cli.M_bind, Cli.bind, mret, Cli.M_ret, Cli.ret, Cli.emit, Cli.call,
    Cli.throw.

(** The statement after the [try] statement logs at most a line. *)
Lemma run_after_logs :
  (Cli.run_after isWatching runIn INITIAL_WORKING_DIR).1 = []
  ∨ (Cli.run_after isWatching runIn INITIAL_WORKING_DIR).1
    = [Cli.ConsoleLog "Waiting for changes..."].
Proof.
  unfold Cli.run_after.
  destruct isWatching; [|auto]. destruct runIn as [dir|]; [|auto].
  destruct (String.eqb dir INITIAL_WORKING_DIR); auto.
Qed.

(** X11.  Outside watch mode [run] is fulfilled, whatever the file, its export,
    the factory, the schema and the writer do: no failure leaves the [try]
    statement. *)
Theorem run_fulfils_outside_watch_mode (filepath : string) (print : bool) :
  (Cli.run parse existsSync require write false runIn INITIAL_WORKING_DIR
     filepath print).2 = Returns tt.
Proof.
  apply (run_returns_unless_unbound parse existsSync require write false
           runIn INITIAL_WORKING_DIR filepath print).
  left. reflexivity.
Qed.

(** X12.  [run] calls the writer with [v] exactly when the file exists, its
    default export is a function whose call gives a unit, and the schema of
    that unit, parsing the unit's data, returns [v]: nothing is written that
    the schema has not returned. *)
Theorem write_follows_validation (filepath : string) (print : bool)
    (v : value) :
  Cli.Write v ∈ (Cli.run parse existsSync require write isWatching runIn
                   INITIAL_WORKING_DIR filepath print).1
  ↔ existsSync filepath = true
    ∧ ∃ u, require filepath = Returns (Cli.Function (Returns (Some u)))
           ∧ parse (Tree._schema u) (Tree._config u) = Returns v.
Proof.
  pose proof run_after_logs as Hafter.
  destruct (Cli.run_after isWatching runIn INITIAL_WORKING_DIR)
    as [ta ra] eqn:Ea.
  cbn [fst] in Hafter.
  assert (Hta : Cli.Write v ∈ ta → False).
  { intros H. destruct Hafter as [-> | ->]; split_elem H; discriminate H. }
  split.
  - run_unfold. rewrite Ea.
    destruct (existsSync filepath) eqn:Hex; simpl;
      [|intros H; split_elem H].
    destruct (require filepath) as [[called|]|e] eqn:Hreq; simpl.
    + destruct called as [[u|]|e]; simpl.
      * destruct (parse (Tree._schema u) (Tree._config u)) as [parsed|e]
          eqn:Hparse; simpl.
        -- destruct print, (write parsed) as [[]|e]; simpl;
             try destruct e; simpl; intros H; split_elem H;
             try discriminate H; try contradiction;
             injection H as ->; eauto.
        -- destruct e; simpl; intros H; split_elem H;
             try discriminate H; contradiction.
      * intros H; split_elem H; try discriminate H; contradiction.
      * destruct e; simpl; intros H; split_elem H;
          try discriminate H; contradiction.
    + intros H; split_elem H; try discriminate H; contradiction.
    + destruct e; simpl; intros H; split_elem H;
        try discriminate H; contradiction.
  - intros (Hex & u & Hreq & Hparse).
    run_unfold. rewrite Ea, Hex, Hreq. simpl. rewrite Hparse. simpl.
    destruct print, (write v) as [[]|e]; simpl; try destruct e; simpl;
      rewrite ?elem_of_app, !elem_of_cons; auto 10.
Qed.

(** X13.  The [print] argument adds the [console.log] of the validated value and
    changes nothing else: the outcome is the same, the other effects are the
    same in the same order, and what is printed is what the writer is called
    with.  Without [print] the value is never printed. *)
Theorem print_only_adds_the_json_line (filepath : string) :
  (Cli.run parse existsSync require write isWatching runIn
     INITIAL_WORKING_DIR filepath true).2
  = (Cli.run parse existsSync require write isWatching runIn
       INITIAL_WORKING_DIR filepath false).2
  ∧ List.filter (λ e, negb (is_json_log e))
      (Cli.run parse existsSync require write isWatching runIn
         INITIAL_WORKING_DIR filepath true).1
    = (Cli.run parse existsSync require write isWatching runIn
         INITIAL_WORKING_DIR filepath false).1
  ∧ (∀ v, Cli.ConsoleLogJson v
            ∈ (Cli.run parse existsSync require write isWatching runIn
                 INITIAL_WORKING_DIR filepath true).1
          ↔ Cli.Write v
              ∈ (Cli.run parse existsSync require write isWatching runIn
                   INITIAL_WORKING_DIR filepath true).1)
  ∧ (∀ v, Cli.ConsoleLogJson v
            ∉ (Cli.run parse existsSync require write isWatching runIn
                 INITIAL_WORKING_DIR filepath false).1).
Proof.
  pose proof run_after_logs as Hafter.
  destruct (Cli.run_after isWatching runIn INITIAL_WORKING_DIR)
    as [ta ra] eqn:Ea.
  cbn [fst] in Hafter.
  assert (Hfa : List.filter (λ e, negb (is_json_log e)) ta = ta)
    by (destruct Hafter as [-> | ->]; reflexivity).
  assert (Hja : ∀ v, Cli.ConsoleLogJson v ∈ ta → False).
  { intros v H. destruct Hafter as [-> | ->]; split_elem H; discriminate H. }
  assert (Hwa : ∀ v, Cli.Write v ∈ ta → False).
  { intros v H. destruct Hafter as [-> | ->]; split_elem H; discriminate H. }
  run_unfold. rewrite Ea.
  destruct (existsSync filepath) eqn:Hex;
    [destruct (require filepath) as [[[[u|]|e]|]|e] eqn:Hreq;
     [destruct (parse (Tree._schema u) (Tree._config u)) as [parsed|e]
        eqn:Hparse;
      [destruct (write parsed) as [[]|e]|]| | | |]|];
    try destruct e; simpl.
  all: split; [reflexivity|].
  all: split; [rewrite ?Hfa; reflexivity|].
  all: split;
    [intros v; split; intros H; split_elem H; try discriminate H;
       try (exfalso; eauto; fail);
       try (injection H as ->; rewrite ?elem_of_app, !elem_of_cons; auto 10)
    |intros v H; split_elem H; try discriminate H; exfalso; eauto].
Qed.

(** X14.  A failure inside the [try] statement is reported on the console where
    it happens: the steps after it are not taken, the [catch] clause logs
    the exception, and the statement after the [try] statement still runs.
    This holds of [require] throwing, of a default export that is not a
    function, of the factory rejecting, of [parse] throwing and of [write]
    rejecting. *)
Theorem failures_are_reported (filepath : string) (print : bool) :
  existsSync filepath = true →
  (∀ e, require filepath = Throws e →
     (Cli.run parse existsSync require write isWatching runIn
        INITIAL_WORKING_DIR filepath print).1
     = [Cli.ConsoleLog ("Writing config for " +:+ filepath);
        Cli.Require filepath]
       ++ (Cli.run_catch e).1
       ++ (Cli.run_after isWatching runIn INITIAL_WORKING_DIR).1)
  ∧ (require filepath = Returns Cli.NotFunction →
     (Cli.run parse existsSync require write isWatching runIn
        INITIAL_WORKING_DIR filepath print).1
     = [Cli.ConsoleLog ("Writing config for " +:+ filepath);
        Cli.Require filepath;
        Cli.ConsoleLog
          ("Expected " +:+ filepath +:+ " to export default function.")]
       ++ (Cli.run_after isWatching runIn INITIAL_WORKING_DIR).1)
  ∧ (∀ e, require filepath = Returns (Cli.Function (Throws e)) →
     (Cli.run parse existsSync require write isWatching runIn
        INITIAL_WORKING_DIR filepath print).1
     = [Cli.ConsoleLog ("Writing config for " +:+ filepath);
        Cli.Require filepath; Cli.CallFactory]
       ++ (Cli.run_catch e).1
       ++ (Cli.run_after isWatching runIn INITIAL_WORKING_DIR).1)
  ∧ (∀ u e, require filepath = Returns (Cli.Function (Returns (Some u))) →
     parse (Tree._schema u) (Tree._config u) = Throws e →
     (Cli.run parse existsSync require write isWatching runIn
        INITIAL_WORKING_DIR filepath print).1
     = [Cli.ConsoleLog ("Writing config for " +:+ filepath);
        Cli.Require filepath; Cli.CallFactory; Cli.Parse (Tree._config u)]
       ++ (Cli.run_catch e).1
       ++ (Cli.run_after isWatching runIn INITIAL_WORKING_DIR).1)
  ∧ (∀ u parsed e,
     require filepath = Returns (Cli.Function (Returns (Some u))) →
     parse (Tree._schema u) (Tree._config u) = Returns parsed →
     write parsed = Throws e →
     (Cli.run parse existsSync require write isWatching runIn
        INITIAL_WORKING_DIR filepath print).1
     = [Cli.ConsoleLog ("Writing config for " +:+ filepath);
        Cli.Require filepath; Cli.CallFactory; Cli.Parse (Tree._config u)]
       ++ (if print then [Cli.ConsoleLogJson parsed] else [])
       ++ [Cli.Write parsed]
       ++ (Cli.run_catch e).1
       ++ (Cli.run_after isWatching runIn INITIAL_WORKING_DIR).1).
Proof.
  intros Hex.
  destruct (Cli.run_after isWatching runIn INITIAL_WORKING_DIR)
    as [ta ra] eqn:Ea.
  repeat split.
  - intros e Hreq. run_unfold. rewrite Ea, Hex, Hreq. simpl.
    destruct e; reflexivity.
  - intros Hreq. run_unfold. rewrite Ea, Hex, Hreq. reflexivity.
  - intros e Hreq. run_unfold. rewrite Ea, Hex, Hreq. simpl.
    destruct e; reflexivity.
  - intros u e Hreq Hparse. run_unfold. rewrite Ea, Hex, Hreq. simpl.
    rewrite Hparse. simpl. destruct e; reflexivity.
  - intros u parsed e Hreq Hparse Hwrite. run_unfold.
    rewrite Ea, Hex, Hreq. simpl. rewrite Hparse. simpl.
    destruct print; simpl; rewrite Hwrite; simpl; destruct e; reflexivity.
Qed.

End RunProperties.

(** A file whose default export is not a function. *)
Lemma failures_are_reported_witness :
  (Cli.run Examples.parse_any Examples.existsSync
     (λ _, Throws (KnownError "Cannot find module")) Examples.write false
     None "/repo" "zodfig.ts" false).1
  = [Cli.ConsoleLog ("Writing config for " +:+ "zodfig.ts");
     Cli.Require "zodfig.ts"]
    ++ (Cli.run_catch (KnownError "Cannot find module")).1
    ++ (Cli.run_after false None "/repo").1
  ∧ (Cli.run Examples.parse_any Examples.existsSync
       (λ _, Returns Cli.NotFunction) Examples.write false None "/repo"
       "zodfig.ts" false).1
    = [Cli.ConsoleLog ("Writing config for " +:+ "zodfig.ts");
       Cli.Require "zodfig.ts";
       Cli.ConsoleLog
         ("Expected " +:+ "zodfig.ts" +:+ " to export default function.")]
      ++ (Cli.run_after false None "/repo").1
  ∧ (Cli.run Examples.parse_any Examples.existsSync
       (λ _, Returns (Cli.Function (Throws (OtherError "boom"))))
       Examples.write false None "/repo" "zodfig.ts" false).1
    = [Cli.ConsoleLog ("Writing config for " +:+ "zodfig.ts");
       Cli.Require "zodfig.ts"; Cli.CallFactory]
      ++ (Cli.run_catch (OtherError "boom")).1
      ++ (Cli.run_after false None "/repo").1
  ∧ (Cli.run Examples.parse_none Examples.existsSync Examples.require
       Examples.write false None "/repo" "zodfig.ts" false).1
    = [Cli.ConsoleLog ("Writing config for " +:+ "zodfig.ts");
       Cli.Require "zodfig.ts"; Cli.CallFactory;
       Cli.Parse (Tree._config Examples.db_host)]
      ++ (Cli.run_catch
            (ZodError ["db.port: Expected string, received number"])).1
      ++ (Cli.run_after false None "/repo").1
  ∧ (Cli.run Examples.parse_any Examples.existsSync Examples.require
       (λ _, Throws (OtherError "EACCES")) false None "/repo" "zodfig.ts"
       true).1
    = [Cli.ConsoleLog ("Writing config for " +:+ "zodfig.ts");
       Cli.Require "zodfig.ts"; Cli.CallFactory;
       Cli.Parse (Tree._config Examples.db_host)]
      ++ [Cli.ConsoleLogJson (Tree._config Examples.db_host)]
      ++ [Cli.Write (Tree._config Examples.db_host)]
      ++ (Cli.run_catch (OtherError "EACCES")).1
      ++ (Cli.run_after false None "/repo").1.
Proof.
  split; [|split; [|split; [|split]]].
  - destruct (failures_are_reported Examples.parse_any Examples.existsSync
                (λ _, Throws (KnownError "Cannot find module"))
                Examples.write false None "/repo" "zodfig.ts" false eq_refl)
      as (H & _).
    exact (H _ eq_refl).
  - destruct (failures_are_reported Examples.parse_any Examples.existsSync
                (λ _, Returns Cli.NotFunction) Examples.write false None
                "/repo" "zodfig.ts" false eq_refl)
      as (_ & H & _).
    exact (H eq_refl).
  - destruct (failures_are_reported Examples.parse_any Examples.existsSync
                (λ _, Returns (Cli.Function (Throws (OtherError "boom"))))
                Examples.write false None "/repo" "zodfig.ts" false eq_refl)
      as (_ & _ & H & _).
    exact (H _ eq_refl).
  - destruct (failures_are_reported Examples.parse_none Examples.existsSync
                Examples.require Examples.write false None "/repo"
                "zodfig.ts" false eq_refl)
      as (_ & _ & _ & H & _).
    exact (H Examples.db_host _ eq_refl eq_refl).
  - destruct (failures_are_reported Examples.parse_any Examples.existsSync
                Examples.require (λ _, Throws (OtherError "EACCES")) false
                None "/repo" "zodfig.ts" true eq_refl)
      as (_ & _ & _ & _ & H).
    exact (H Examples.db_host _ _ eq_refl eq_refl eq_refl).
Defined.


(** ** Further properties of [go] and the watcher *)


Section GoProperties.

Context (command : option string) (watch : bool) (configFiles : list string).
Context (TOOL_NAME : string).

(** A turn of the event loop starts at most one run, of the first config
    file, and only when [going] is not set. *)
Lemma step_runs (st : Cli.state) (ev : Cli.event) :
  Cli.runs (Cli.step command watch configFiles TOOL_NAME st ev) = Cli.runs st
  ∨ (Cli.going st = false
     ∧ Cli.runs (Cli.step command watch configFiles TOOL_NAME st ev)
       = Cli.runs st ++ [head configFiles]).
Proof.
  destruct st as [g r a w rd t n rs rj ex c].
  destruct ex; [go_eval; auto|].
  destruct ev as [|file eventName|file| | |].
  - destruct g; [go_eval; auto|]. destruct r, a; go_eval; auto.
  - destruct watch; [|go_eval; auto].
    destruct (existsb (String.eqb file) configFiles) eqn:Hin;
      [|go_eval; rewrite Hin; auto].
    destruct (String.eqb eventName "add") eqn:Hadd,
             (String.eqb eventName "change") eqn:Hchg,
             (rd file) eqn:Hrd;
      try (go_eval; rewrite Hin, ?Hadd, ?Hchg, ?Hrd; destruct a; auto; fail);
      (destruct g; [go_eval; rewrite Hin, ?Hadd, ?Hchg, ?Hrd; go_eval; auto|];
       destruct r, a; go_eval; rewrite Hin, ?Hadd, ?Hchg, ?Hrd; go_eval;
       auto).
  - destruct watch, (existsb (String.eqb file) configFiles) eqn:Hin;
      go_eval; rewrite ?Hin; auto.
  - destruct n as [|n]; [go_eval; auto|].
    destruct command, watch, r; go_eval; auto.
  - destruct n as [|n]; go_eval; auto.
  - destruct t as [|t]; [go_eval; auto|].
    destruct g; [go_eval; auto|]. destruct r, a; go_eval; auto.
Qed.

(** X15.  Whatever the events, every run that is started is a run of the first
    config file that the scan found ([filepaths[0]]): the other files are
    watched, and never generated. *)
Theorem only_the_first_config_file_is_run (evs : list Cli.event) :
  Forall (λ file, file = head configFiles)
    (Cli.runs (Cli.exec command watch configFiles TOOL_NAME Cli.initial evs)).
Proof.
  assert (H : ∀ st,
            Forall (λ file, file = head configFiles) (Cli.runs st) →
            Forall (λ file, file = head configFiles)
              (Cli.runs (Cli.exec command watch configFiles TOOL_NAME st evs))).
  { induction evs as [|ev evs IH]; intros st Hst; [exact Hst|].
    cbn [Cli.exec foldl]. apply IH.
    destruct (step_runs st ev) as [-> | [_ ->]]; [exact Hst|].
    apply Forall_app. split; [exact Hst|]. repeat constructor. }
  apply H. constructor.
Qed.

(** After [process.exit()] nothing happens. *)
Lemma exec_exited (evs : list Cli.event) (st : Cli.state) :
  Cli.exited st = true →
  Cli.exec command watch configFiles TOOL_NAME st evs = st.
Proof.
  intros Hex. induction evs as [|ev evs IH]; [reflexivity|].
  cbn [Cli.exec foldl]. unfold Cli.step at 2. rewrite Hex. exact IH.
Qed.

(** While [going] is set and no run is awaited, no event clears [going] or
    starts a run. *)
Lemma step_stuck (st : Cli.state) (ev : Cli.event) :
  Cli.going st = true → Cli.in_flight st = 0 →
  Cli.going (Cli.step command watch configFiles TOOL_NAME st ev) = true
  ∧ Cli.in_flight (Cli.step command watch configFiles TOOL_NAME st ev) = 0
  ∧ Cli.runs (Cli.step command watch configFiles TOOL_NAME st ev)
    = Cli.runs st.
Proof.
  destruct st as [g r a w rd t n rs rj ex c].
  cbv [Cli.going Cli.in_flight]. intros -> ->.
  destruct ex; [go_eval; auto|].
  destruct ev as [|file eventName|file| | |]; try (go_eval; auto; fail).
  - destruct watch; [|go_eval; auto].
    destruct (existsb (String.eqb file) configFiles) eqn:Hin;
      [|go_eval; rewrite Hin; auto].
    destruct (String.eqb eventName "add") eqn:Hadd,
             (String.eqb eventName "change") eqn:Hchg,
             (rd file) eqn:Hrd;
      go_eval; rewrite Hin, ?Hadd, ?Hchg, ?Hrd; go_eval;
      destruct a; auto.
  - destruct watch, (existsb (String.eqb file) configFiles) eqn:Hin;
      go_eval; rewrite ?Hin; auto.
  - destruct t as [|t]; go_eval; auto.
Qed.

Lemma exec_stuck (evs : list Cli.event) (st : Cli.state) :
  Cli.going st = true → Cli.in_flight st = 0 →
  Cli.going (Cli.exec command watch configFiles TOOL_NAME st evs) = true
  ∧ Cli.runs (Cli.exec command watch configFiles TOOL_NAME st evs)
    = Cli.runs st.
Proof.
  revert st. induction evs as [|ev evs IH]; intros st Hg Hn; [auto|].
  unfold Cli.exec in *. cbn [foldl].
  destruct (step_stuck st ev Hg Hn) as (Hg' & Hn' & Hr).
  destruct (IH _ Hg' Hn') as [Hg'' Hr'']. split; congruence.
Qed.

(** X16.  When the awaited [run] rejects, the call of [go] ends there, before
    [going = false]: whatever the events before and after, no run is started
    after a rejected one, and [going] stays set. *)
Theorem rejected_run_is_never_followed (before after : list Cli.event) :
  Cli.in_flight
    (Cli.exec command watch configFiles TOOL_NAME Cli.initial before) = 1 →
  Cli.runs
    (Cli.exec command watch configFiles TOOL_NAME Cli.initial
       (before ++ Cli.RunRejected :: after))
  = Cli.runs (Cli.exec command watch configFiles TOOL_NAME Cli.initial before)
  ∧ Cli.going
      (Cli.exec command watch configFiles TOOL_NAME Cli.initial
         (before ++ Cli.RunRejected :: after)) = true.
Proof.
  intros Hn. unfold Cli.exec at 1 3. rewrite !foldl_app.
  fold (Cli.exec command watch configFiles TOOL_NAME Cli.initial before).
  set (st := Cli.exec command watch configFiles TOOL_NAME Cli.initial before)
    in *.
  destruct (exec_one_run_at_a_time command watch configFiles TOOL_NAME
              before Cli.initial) as [_ Hg].
  { split; simpl; [lia|discriminate]. }
  fold st in Hg. specialize (Hg Hn).
  cbn [foldl].
  fold (Cli.exec command watch configFiles TOOL_NAME
          (Cli.step command watch configFiles TOOL_NAME st Cli.RunRejected)
          after).
  destruct (Cli.exited st) eqn:Hex.
  - assert (Cli.step command watch configFiles TOOL_NAME st Cli.RunRejected
            = st) as -> by (unfold Cli.step; rewrite Hex; reflexivity).
    rewrite (exec_exited after st Hex). auto.
  - assert (Hs : Cli.step command watch configFiles TOOL_NAME st
                   Cli.RunRejected = Cli.reject (Cli.end_run st))
      by (unfold Cli.step; rewrite Hex, Hn; reflexivity).
    rewrite Hs.
    destruct (exec_stuck after (Cli.reject (Cli.end_run st))) as [Hg' Hr'].
    + exact Hg.
    + cbn. rewrite Hn. reflexivity.
    + split; [rewrite Hr'; reflexivity|exact Hg'].
Qed.

(** X19.  An [add] event of a file whose watcher has not reported [ready] changes
    nothing: the files that chokidar finds when it starts do not start a
    run. *)
Theorem adds_before_ready_are_ignored (st : Cli.state)
    (files : list string) :
  Forall (λ file, Cli.ready st file = false) files →
  Cli.exec command watch configFiles TOOL_NAME st (fs_events "add" files)
  = st.
Proof.
  induction 1 as [|file files Hr _ IH]; [reflexivity|].
  unfold fs_events. rewrite fmap_cons. cbn [Cli.exec foldl].
  assert (Cli.step command watch configFiles TOOL_NAME st
            (Cli.Fs file "add") = st) as ->; [|exact IH].
  unfold Cli.step, Cli.on_all. rewrite Hr.
  destruct (Cli.exited st), watch,
    (existsb (String.eqb file) configFiles); reflexivity.
Qed.

End GoProperties.

Section WatchProperties.

Context (command : option string) (configFiles : list string).
Context (TOOL_NAME : string).

(** A turn of the event loop ends the process when the event halts the watch
    or the call of [go] that it makes ends in an exception, and only then. *)
Lemma step_exited_watch (st : Cli.state) (ev : Cli.event) :
  Cli.exited (Cli.step command true configFiles TOOL_NAME st ev)
  = Cli.exited st || halts_watch configFiles ev
    || (Cli.rejected st
        <? Cli.rejected (Cli.step command true configFiles TOOL_NAME st ev))
  ∧ Cli.rejected st
    ≤ Cli.rejected (Cli.step command true configFiles TOOL_NAME st ev).
Proof.
  assert (Hlt : ∀ k, (k <? S k) = true) by (intros k; apply Nat.ltb_lt; lia).
  destruct st as [g r a w rd t n rs rj ex c].
  destruct ex; [go_eval; split; [reflexivity|lia]|].
  destruct ev as [|file eventName|file| | |]; unfold halts_watch.
  - destruct g, r, a; go_eval; rewrite Nat.ltb_irrefl; split; auto.
  - destruct (existsb (String.eqb file) configFiles) eqn:Hin;
      [|go_eval; rewrite Hin, Nat.ltb_irrefl; split; auto].
    destruct (String.eqb eventName "add") eqn:Hadd,
             (String.eqb eventName "change") eqn:Hchg,
             (rd file) eqn:Hrd;
      go_eval; rewrite Hin, ?Hadd, ?Hchg, ?Hrd; go_eval;
      destruct g, r, a; go_eval; rewrite ?Nat.ltb_irrefl; split; auto.
  - destruct (existsb (String.eqb file) configFiles) eqn:Hin;
      go_eval; rewrite ?Hin, Nat.ltb_irrefl; split; auto.
  - destruct n as [|n]; [go_eval; rewrite Nat.ltb_irrefl; split; auto|].
    destruct command, r; go_eval; rewrite Nat.ltb_irrefl; split; auto.
  - destruct n as [|n]; go_eval; rewrite ?Nat.ltb_irrefl, ?Hlt; split; auto.
  - destruct t as [|t]; [go_eval; rewrite Nat.ltb_irrefl; split; auto|].
    destruct g, r, a; go_eval; rewrite ?Nat.ltb_irrefl, ?Hlt; split; auto.
Qed.

Lemma exec_exited_watch (evs : list Cli.event) (st : Cli.state) :
  Cli.exited (Cli.exec command true configFiles TOOL_NAME st evs)
  = Cli.exited st || existsb (halts_watch configFiles) evs
    || (Cli.rejected st
        <? Cli.rejected (Cli.exec command true configFiles TOOL_NAME st evs))
  ∧ Cli.rejected st
    ≤ Cli.rejected (Cli.exec command true configFiles TOOL_NAME st evs).
Proof.
  revert st. induction evs as [|ev evs IH]; intros st.
  - cbn [Cli.exec foldl existsb].
    rewrite Nat.ltb_irrefl, !orb_false_r. auto.
  - cbn [Cli.exec foldl existsb].
    fold (Cli.exec command true configFiles TOOL_NAME
            (Cli.step command true configFiles TOOL_NAME st ev) evs).
    destruct (step_exited_watch st ev) as [Hs Hle].
    destruct (IH (Cli.step command true configFiles TOOL_NAME st ev))
      as [He Hle'].
    split; [|lia]. rewrite He, Hs.
    set (s := Cli.rejected (Cli.step command true configFiles TOOL_NAME st ev))
      in *.
    set (e := Cli.rejected
                (Cli.exec command true configFiles TOOL_NAME
                   (Cli.step command true configFiles TOOL_NAME st ev) evs))
      in *.
    destruct (Nat.ltb_spec (Cli.rejected st) s),
             (Nat.ltb_spec s e), (Nat.ltb_spec (Cli.rejected st) e);
      try lia;
      destruct (Cli.exited st), (halts_watch configFiles ev),
               (existsb (halts_watch configFiles) evs); reflexivity.
Qed.

(** X18.  In watch mode the process is over exactly when a file-system event
    of a watched file other than [add] and [change] has arrived (the file is
    removed, say: the handler calls [process.exit()]), or a call of [go] has
    ended in an exception (Node ends the process on the unhandled
    rejection).  A run that is fulfilled, a timer, a change never end it. *)
Theorem watch_ends_on_halt_or_rejection (evs : list Cli.event) :
  Cli.exited (Cli.exec command true configFiles TOOL_NAME Cli.initial evs)
  = existsb (halts_watch configFiles) evs
    || (0 <? Cli.rejected
               (Cli.exec command true configFiles TOOL_NAME Cli.initial evs)).
Proof. apply (exec_exited_watch evs Cli.initial). Qed.


(** X20.  Without [--watch] and without a command, the process exits when the
    first run is fulfilled: one run, of the first config file, and nothing
    on the console from [go]. *)
Theorem one_shot_without_command_exits (evs : list Cli.event) :
  Cli.exited
    (Cli.exec None false configFiles TOOL_NAME Cli.initial
       (Cli.Started :: Cli.RunSettled :: evs)) = true
  ∧ Cli.runs
      (Cli.exec None false configFiles TOOL_NAME Cli.initial
         (Cli.Started :: Cli.RunSettled :: evs)) = [head configFiles]
  ∧ Cli.console
      (Cli.exec None false configFiles TOOL_NAME Cli.initial
         (Cli.Started :: Cli.RunSettled :: evs)) = [].
Proof.
  cbn [Cli.exec foldl].
  fold (Cli.exec None false configFiles TOOL_NAME
          (Cli.step None false configFiles TOOL_NAME
             (Cli.step None false configFiles TOOL_NAME Cli.initial
                Cli.Started) Cli.RunSettled) evs).
  rewrite exec_exited by reflexivity. repeat split.
Qed.

End WatchProperties.

Lemma rejected_run_is_never_followed_witness :
  Cli.runs
    (Cli.exec None true ["zodfig.ts"] "zodfig" Cli.initial
       ([Cli.Started] ++ Cli.RunRejected
          :: [Cli.Fs "zodfig.ts" "change"; Cli.TimerFired]))
  = Cli.runs (Cli.exec None true ["zodfig.ts"] "zodfig" Cli.initial
                [Cli.Started])
  ∧ Cli.going
      (Cli.exec None true ["zodfig.ts"] "zodfig" Cli.initial
         ([Cli.Started] ++ Cli.RunRejected
            :: [Cli.Fs "zodfig.ts" "change"; Cli.TimerFired])) = true.
Proof.
  apply (rejected_run_is_never_followed None true ["zodfig.ts"] "zodfig"
           [Cli.Started] [Cli.Fs "zodfig.ts" "change"; Cli.TimerFired]).
  reflexivity.
Defined.

Lemma adds_before_ready_are_ignored_witness :
  Cli.exec None true ["zodfig.ts"] "zodfig" Cli.initial
    (fs_events "add" ["zodfig.ts"; "zodfig.ts"])
  = Cli.initial.
Proof.
  apply (adds_before_ready_are_ignored None true ["zodfig.ts"] "zodfig"
           Cli.initial ["zodfig.ts"; "zodfig.ts"]).
  repeat constructor.
Defined.



(** ** Further properties of construction and composition on the heap *)

Section StoreProperties.

Import Store.
Context {schema : Type} (schema_merge : schema → schema → schema).
Implicit Types h : heap.
Implicit Types a b u : ZodFig schema.

(** Freezing sets a flag; what a value reads as does not depend on it. *)
Lemma snapshot_freeze (n : nat) h (target v : val) :
  snapshot n (freeze h target) v = snapshot n h v.
Proof.
  destruct target as [| | | | |t]; try reflexivity.
  revert v. induction n as [|n IH]; intros v;
    destruct v as [| | | | |l]; try reflexivity.
  cbn [snapshot freeze].
  destruct (decide (t = l)) as [->|Hne].
  - rewrite list_lookup_alter_eq.
    destruct (h !! l) as [[fz [m|es]]|]; cbn; try reflexivity; f_equal.
    + apply map_fmap_ext. intros key x _. apply IH.
    + apply list_fmap_ext. intros i x _. apply IH.
  - rewrite list_lookup_alter_ne by exact Hne.
    destruct (h !! l) as [[fz [m|es]]|]; cbn; try reflexivity; f_equal.
    + apply map_fmap_ext. intros key x _. apply IH.
    + apply list_fmap_ext. intros i x _. apply IH.
Qed.


(** X10.  On plain data (no reference cycle, ordinary property names),
    [merge] and [override] return a unit whose data is a frozen object:
    whatever is written afterwards, its own fields stay. *)
Theorem composed_data_is_frozen h (n fuel : nat) a b (p : val) :
  n < fuel →
  plain n h (_config a) → plain n h (_config b) → plain n h p →
  (∃ h' r new m,
     merge schema_merge fuel h a b = Some (h', r)
     ∧ _config r = Ref new
     ∧ h' !! new = Some (Cell true (Object m))
     ∧ ∀ ms, foldl mutate h' ms !! new = Some (Cell true (Object m)))
  ∧ (∃ h' r new m,
       override fuel h a p = Some (h', r)
       ∧ _config r = Ref new
       ∧ h' !! new = Some (Cell true (Object m))
       ∧ ∀ ms, foldl mutate h' ms !! new = Some (Cell true (Object m))).
Proof.
  intros Hn Ha Hb Hp.
  assert (Hfrozen : ∀ h1 (r : loc),
            isObject h1 (Ref r) = true →
            ∃ m, freeze h1 (Ref r) !! r = Some (Cell true (Object m))).
  { intros h1 r Hr. cbn [isObject] in Hr.
    destruct (h1 !! r) as [[fz [m|es]]|] eqn:Hl; try discriminate Hr.
    exists m. apply (freeze_lookup h1 r _ Hl). }
  split.
  - unfold merge. unfold alloc.
    set (h0 := h ++ [Cell false (Object ∅)]).
    assert (Hp0 : h `prefix_of` h0) by (apply prefix_app_r; reflexivity).
    assert (Ha0 : plain fuel h0 (_config a)).
    { eapply plain_prefix; [exact Hp0|].
      eapply plain_mono; [|exact Ha]. lia. }
    assert (Hb0 : plain fuel h0 (_config b)).
    { eapply plain_prefix; [exact Hp0|].
      eapply plain_mono; [|exact Hb]. lia. }
    destruct (or_empty_object_grows h0 fuel (_config a)) as [Hp1 Hx];
      [lia|exact Ha0|].
    destruct (or_empty_object h0 (_config a)) as [h1 x] eqn:E1.
    cbn [fst snd] in Hp1, Hx.
    destruct (or_empty_object_grows h1 fuel (_config b)) as [Hp2 Hy];
      [lia| |].
    { eapply plain_prefix; eassumption. }
    destruct (or_empty_object h1 (_config b)) as [h2 y] eqn:E2.
    cbn [fst snd] in Hp2, Hy.
    destruct (mergeDeep_grows h2 fuel (length h) [x; y])
      as (h' & r & Hm & _ & _ & Hobj); [lia| | |].
    { apply (prefix_lookup_Some h0); [|etrans; eassumption].
      apply list_lookup_middle. reflexivity. }
    { repeat constructor; [|exact Hy]. eapply plain_prefix; eassumption. }
    rewrite Hm. cbn [mbind option_bind]. unfold new_ZodFig. cbn [truthy].
    destruct (Hfrozen h' r Hobj) as [m Hl].
    eexists _, _, r, m. split; [reflexivity|]. split; [reflexivity|].
    split; [exact Hl|]. intros ms. apply mutations_frozen, Hl.
  - unfold override. unfold alloc.
    set (h0 := h ++ [Cell false (Object ∅)]).
    assert (Hp0 : h `prefix_of` h0) by (apply prefix_app_r; reflexivity).
    destruct (mergeDeep_grows h0 fuel (length h) [_config a; p])
      as (h' & r & Hm & _ & _ & Hobj); [lia| | |].
    { apply list_lookup_middle. reflexivity. }
    { repeat constructor; (eapply plain_prefix; [exact Hp0|]);
        (eapply plain_mono; [|eassumption]); lia. }
    rewrite Hm. cbn [mbind option_bind]. unfold new_ZodFig. cbn [truthy].
    destruct (Hfrozen h' r Hobj) as [m Hl].
    eexists _, _, r, m. split; [reflexivity|]. split; [reflexivity|].
    split; [exact Hl|]. intros ms. apply mutations_frozen, Hl.
Qed.

End StoreProperties.

Lemma composed_data_is_frozen_witness :
  (∃ h' r new m,
     Store.merge Examples.no_schema_merge 4 Examples.shared_heap
       Examples.unit_a Examples.unit_c = Some (h', r)
     ∧ Store._config r = Store.Ref new
     ∧ h' !! new = Some (Store.Cell true (Store.Object m))
     ∧ ∀ ms, foldl Store.mutate h' ms !! new
             = Some (Store.Cell true (Store.Object m)))
  ∧ (∃ h' r new m,
       Store.override 4 Examples.shared_heap Examples.unit_a (Store.Ref 5)
         = Some (h', r)
       ∧ Store._config r = Store.Ref new
       ∧ h' !! new = Some (Store.Cell true (Store.Object m))
       ∧ ∀ ms, foldl Store.mutate h' ms !! new
               = Some (Store.Cell true (Store.Object m))).
Proof.
  apply (composed_data_is_frozen Examples.no_schema_merge
           Examples.shared_heap 3 4 Examples.unit_a Examples.unit_c
           (Store.Ref 5)).
  - lia.
  - apply plainb_sound. vm_compute. reflexivity.
  - apply plainb_sound. vm_compute. reflexivity.
  - apply plainb_sound. vm_compute. reflexivity.
Defined.


(** ** Shapes *)

Lemma ssize_elem (l : list shape) (x : shape) (n : nat) :
  x ∈ l → ssize x < ssize (SArr n l).
Proof.
  intros Hx. cbn [ssize]. apply Nat.lt_succ_r.
  induction Hx as [x l | x y l _ IH]; rewrite fmap_cons;
    cbn [sum_list sum_list_with]; unfold id in *; lia.
Qed.

Lemma ssize_field (m : gmap string shape) (k : string) (x : shape) (n : nat) :
  m !! k = Some x → ssize x < ssize (SObj n m).
Proof.
  intros Hk. cbn [ssize]. apply Nat.lt_succ_r.
  rewrite <- (insert_delete_id m k x Hk), fmap_insert.
  rewrite map_fold_insert_L.
  - lia.
  - intros. lia.
  - rewrite lookup_fmap, lookup_delete_eq. reflexivity.
Qed.

Lemma shape_tree_ind (P : shape → Prop) :
  (∀ v, P (SLeaf v)) →
  (∀ l fs, (∀ key s, fs !! key = Some s → P s) → P (SObj l fs)) →
  (∀ l es, (∀ i s, es !! i = Some s → P s) → P (SArr l es)) →
  ∀ s, P s.
Proof.
  intros HL HO HA s.
  remember (ssize s) as n eqn:Hn.
  revert s Hn. induction n as [n IH] using lt_wf_ind. intros s ->.
  destruct s as [v | l fs | l es]; auto.
  - apply HO. intros key s Hs.
    exact (IH _ (ssize_field fs key s l Hs) s eq_refl).
  - apply HA. intros i s Hs.
    apply (IH _ (ssize_elem es s l (list_elem_of_lookup_2 _ _ _ Hs)) s eq_refl).
Qed.

Lemma elem_of_locs_obj (x l : nat) (fs : gmap string shape) :
  x ∈ locs (SObj l fs) ↔ x = l ∨ ∃ key s, fs !! key = Some s ∧ x ∈ locs s.
Proof.
  cbn [locs]. rewrite elem_of_union, elem_of_singleton, elem_of_union_list.
  split; (intros [H|H]; [left; exact H|right]).
  - destruct H as (X & HX & Hx).
    apply list_elem_of_fmap in HX as ([key X'] & -> & HX).
    apply elem_of_map_to_list in HX. rewrite lookup_fmap in HX.
    destruct (fs !! key) as [s|] eqn:Hs; [|discriminate HX].
    injection HX as <-. eauto.
  - destruct H as (key & s & Hs & Hx). exists (locs s). split; [|exact Hx].
    apply list_elem_of_fmap. exists (key, locs s). split; [reflexivity|].
    apply elem_of_map_to_list. rewrite lookup_fmap, Hs. reflexivity.
Qed.

Lemma elem_of_locs_arr (x l : nat) (es : list shape) :
  x ∈ locs (SArr l es) ↔ x = l ∨ ∃ i s, es !! i = Some s ∧ x ∈ locs s.
Proof.
  cbn [locs]. rewrite elem_of_union, elem_of_singleton, elem_of_union_list.
  split; (intros [H|H]; [left; exact H|right]).
  - destruct H as (X & HX & Hx).
    apply list_elem_of_fmap in HX as (s & -> & Hs).
    apply list_elem_of_lookup in Hs as [i Hs]. eauto.
  - destruct H as (i & s & Hs & Hx). exists (locs s). split; [|exact Hx].
    apply list_elem_of_fmap. exists s. split; [reflexivity|].
    eapply list_elem_of_lookup_2, Hs.
Qed.

(** A shape stays realized when its nodes stay. *)
Lemma realizes_frame (h h' : Store.heap) (s : shape) :
  realizes h s → (∀ x, x ∈ locs s → h' !! x = h !! x) → realizes h' s.
Proof.
  induction s as [v|l fs IH|l es IH] using shape_tree_ind; intros Hr Hf.
  - constructor.
  - inversion Hr as [|? ? Hl Hc Hm|]; subst. constructor.
    + rewrite Hf; [exact Hl|]. apply elem_of_locs_obj. auto.
    + intros key s Hs. apply (IH key s Hs); [exact (Hc key s Hs)|].
      intros x Hx. apply Hf, elem_of_locs_obj. eauto.
    + exact Hm.
  - inversion Hr as [| |? ? Hl Hc]; subst. constructor.
    + rewrite Hf; [exact Hl|]. apply elem_of_locs_arr. auto.
    + intros i s Hs. apply (IH i s Hs); [exact (Hc i s Hs)|].
      intros x Hx. apply Hf, elem_of_locs_arr. eauto.
Qed.

Lemma realizes_bound (h : Store.heap) (s : shape) :
  realizes h s → ∀ x, x ∈ locs s → x < length h.
Proof.
  induction s as [v|l fs IH|l es IH] using shape_tree_ind; intros Hr x Hx.
  - cbn in Hx. set_solver.
  - inversion Hr as [|? ? Hl Hc|]; subst.
    apply elem_of_locs_obj in Hx as [->|(key & s & Hs & Hx)].
    + eapply lookup_lt_Some, Hl.
    + exact (IH key s Hs (Hc key s Hs) x Hx).
  - inversion Hr as [| |? ? Hl Hc]; subst.
    apply elem_of_locs_arr in Hx as [->|(i & s & Hs & Hx)].
    + eapply lookup_lt_Some, Hl.
    + exact (IH i s Hs (Hc i s Hs) x Hx).
Qed.

Lemma leaves_impl (P Q : Store.val → Prop) (s : shape) :
  (∀ v, P v → Q v) → leaves P s → leaves Q s.
Proof.
  intros HPQ.
  induction s as [v|l fs IH|l es IH] using shape_tree_ind; intros Hl;
    inversion Hl; subst; constructor; eauto.
Qed.

(** ** Reading the heap back *)

Section Snapshot.

Import Store.
Implicit Types h hb : heap.
Implicit Types v : val.

(** More fuel than the depth reads the same tree. *)
Lemma snapshot_stable (n : nat) h :
  ∀ v N, plain n h v → n ≤ N → snapshot N h v = snapshot n h v.
Proof.
  induction n as [|n IH]; intros v N Hd HN;
    destruct v as [| | | | |l]; try (destruct N; reflexivity);
    [contradiction|].
  destruct N as [|N]; [lia|]. cbn [Store.plain] in Hd. cbn [Store.snapshot].
  destruct (h !! l) as [[fz [m|es]]|]; [| |contradiction]; f_equal.
  - apply map_fmap_ext. intros key x Hx.
    apply IH; [exact (proj2 (Hd key x Hx))|lia].
  - apply list_fmap_ext. intros i x Hx. apply IH; [|lia].
    rewrite Forall_forall in Hd. apply Hd. eapply list_elem_of_lookup_2, Hx.
Qed.

(** What existed reads the same in a heap that extends the base heap. *)
Lemma snapshot_prefix (n : nat) hb h :
  hb `prefix_of` h →
  ∀ v, plain n hb v → snapshot n h v = snapshot n hb v.
Proof.
  intros Hp. induction n as [|n IH]; intros v Hd;
    destruct v as [| | | | |l]; try reflexivity.
  cbn [Store.plain] in Hd. cbn [Store.snapshot].
  destruct (hb !! l) as [[fz [m|es]]|] eqn:Hl; [| |contradiction];
    rewrite (prefix_lookup_Some _ _ _ _ Hl Hp); f_equal.
  - apply map_fmap_ext. intros key x Hx. apply IH.
    exact (proj2 (Hd key x Hx)).
  - apply list_fmap_ext. intros i x Hx. apply IH.
    rewrite Forall_forall in Hd. apply Hd. eapply list_elem_of_lookup_2, Hx.
Qed.

(** The tree of an object of the base heap, from the trees of its
    properties, all read with the same fuel. *)
Lemma snapshot_object (n : nat) hb (l : loc) (fz : bool)
    (m : gmap string val) :
  plain n hb (Ref l) → hb !! l = Some (Cell fz (Object m)) →
  snapshot n hb (Ref l) = VObj (snapshot n hb <$> m).
Proof.
  intros Hd Hl. destruct n as [|n]; [contradiction|].
  cbn [Store.plain] in Hd. rewrite Hl in Hd.
  change (snapshot (S n) hb (Ref l))
    with (match hb !! l with
          | Some (Cell _ (Object m)) => VObj (snapshot n hb <$> m)
          | Some (Cell _ (Array es)) => VArr (snapshot n hb <$> es)
          | None => VUndef
          end).
  rewrite Hl. f_equal. apply map_fmap_ext. intros key x Hx.
  symmetry. apply snapshot_stable; [exact (proj2 (Hd key x Hx))|lia].
Qed.

Lemma snapshot_array (n : nat) hb (l : loc) (fz : bool) (es : list val) :
  plain n hb (Ref l) → hb !! l = Some (Cell fz (Array es)) →
  snapshot n hb (Ref l) = VArr (snapshot n hb <$> es).
Proof.
  intros Hd Hl. destruct n as [|n]; [contradiction|].
  cbn [Store.plain] in Hd. rewrite Hl in Hd.
  change (snapshot (S n) hb (Ref l))
    with (match hb !! l with
          | Some (Cell _ (Object m)) => VObj (snapshot n hb <$> m)
          | Some (Cell _ (Array es)) => VArr (snapshot n hb <$> es)
          | None => VUndef
          end).
  rewrite Hl. f_equal. apply list_fmap_ext. intros i x Hx.
  symmetry. apply snapshot_stable; [|lia].
  rewrite Forall_forall in Hd. apply Hd. eapply list_elem_of_lookup_2, Hx.
Qed.

(** A realized shape reads as its tree, with enough fuel. *)
Lemma snapshot_realizes (n : nat) hb h (s : shape) :
  hb `prefix_of` h →
  realizes h s → leaves (plain n hb) s →
  ∀ N, ssize s + n ≤ N → snapshot N h (root s) = tree_of (snapshot n hb) s.
Proof.
  intros Hp.
  induction s as [v|l fs IH|l es IH] using shape_tree_ind; intros Hr Hl N HN.
  - inversion Hl as [? Hv| |]; subst. cbn [root tree_of].
    rewrite (snapshot_stable n h v N); [apply snapshot_prefix; assumption| |].
    + eapply plain_prefix; eassumption.
    + cbn in HN. lia.
  - inversion Hr as [|? ? Hc Hrs|]; subst. inversion Hl as [|? ? Hls|]; subst.
    destruct N as [|N]; [cbn in HN; lia|]. cbn [root snapshot tree_of].
    rewrite Hc. f_equal. rewrite <- map_fmap_compose.
    apply map_fmap_ext. intros key s Hs. cbn.
    apply (IH key s Hs (Hrs key s Hs) (Hls key s Hs)).
    pose proof (ssize_field fs key s l Hs). lia.
  - inversion Hr as [| |? ? Hc Hrs]; subst. inversion Hl as [| |? ? Hls]; subst.
    destruct N as [|N]; [cbn in HN; lia|]. cbn [root snapshot tree_of].
    rewrite Hc. f_equal. rewrite <- list_fmap_compose.
    apply list_fmap_ext. intros i s Hs. cbn.
    apply (IH i s Hs (Hrs i s Hs) (Hls i s Hs)).
    pose proof (ssize_elem es s l (list_elem_of_lookup_2 _ _ _ Hs)). lia.
Qed.

End Snapshot.

(** ** clone-deep builds a separate copy *)

Section CloneRefines.

Import Store.
Implicit Types h hb : heap.
Implicit Types v : val.

Lemma lookup_snoc_shape (ss : list shape) (s0 : shape) (i : nat) (s : shape) :
  (ss ++ [s0]) !! i = Some s →
  (i < length ss ∧ ss !! i = Some s) ∨ (i = length ss ∧ s = s0).
Proof.
  intros H. destruct (decide (i < length ss)) as [Hlt|Hge].
  - rewrite lookup_app_l in H by exact Hlt. auto.
  - rewrite lookup_app_r in H by lia.
    destruct (i - length ss) as [|k] eqn:Hk; [|destruct k; discriminate H].
    injection H as <-. right. split; [lia|reflexivity].
Qed.

Lemma cloneDeep_refines (n : nat) hb (fuel : nat) :
  ∀ v h,
    fuel ≤ n → hb `prefix_of` h → plain fuel hb v →
    ∃ h' s,
      Lib.cloneDeep fuel h v = Some (h', root s)
      ∧ h `prefix_of` h'
      ∧ realizes h' s ∧ sep s ∧ leaves is_prim s
      ∧ (∀ x, x ∈ locs s → length h ≤ x)
      ∧ tree_of (snapshot n hb) s = snapshot n hb v.
Proof.
  induction fuel as [|fuel IH]; intros v h Hn Hp Hd.
  { destruct v; try contradiction;
      (eexists h, (SLeaf _); split; [reflexivity|];
       repeat split; try constructor; try exact I;
       try (intros x Hx; cbn in Hx; set_solver);
       destruct n; reflexivity). }
  destruct v as [| | | | |l];
    try (eexists h, (SLeaf _); split; [reflexivity|];
         repeat split; try constructor; try exact I;
         try (intros x Hx; cbn in Hx; set_solver);
         destruct n; reflexivity).
  pose proof (plain_mono (S fuel) n hb (Ref l) Hn Hd) as Hdn.
  pose proof Hd as Hplain.
  cbn [Store.plain] in Hd. cbn [Lib.cloneDeep].
  destruct (hb !! l) as [[fz [m|es]]|] eqn:Hl; [| |contradiction];
    rewrite (prefix_lookup_Some _ _ _ _ Hl Hp).
  - (* a plain object *)
    destruct (plain_object _ hb l fz m Hplain Hl) as [-> ->]. cbn [negb andb].
    unfold alloc. set (res := length h).
    set (h0 := h ++ [Cell false (Object ∅)]).
    assert (Hloop : ∃ h1 fs1,
      map_fold
        (λ key v acc,
           h ← acc;
           '(h, c) ← Lib.cloneDeep fuel h v;
           Some (set h (Ref res) key c))
        (Some h0) m = Some h1
      ∧ h `prefix_of` h1 ∧ res < length h1
      ∧ h1 !! res = Some (Cell false (Object (root <$> fs1)))
      ∧ (∀ key s, fs1 !! key = Some s →
           realizes h1 s ∧ sep s ∧ leaves is_prim s
           ∧ ∀ x, x ∈ locs s → res < x)
      ∧ (∀ k1 k2 s1 s2, k1 ≠ k2 → fs1 !! k1 = Some s1 → fs1 !! k2 = Some s2 →
           locs s1 ## locs s2)
      ∧ tree_of (snapshot n hb) <$> fs1 = snapshot n hb <$> m).
    { revert Hd. apply (map_fold_weak_ind
        (λ acc m',
           map_Forall (λ key x, ordinary_key key = true ∧ plain fuel hb x) m' →
           ∃ h1 fs1, acc = Some h1
             ∧ h `prefix_of` h1 ∧ res < length h1
             ∧ h1 !! res = Some (Cell false (Object (root <$> fs1)))
             ∧ (∀ key s, fs1 !! key = Some s →
                  realizes h1 s ∧ sep s ∧ leaves is_prim s
                  ∧ ∀ x, x ∈ locs s → res < x)
             ∧ (∀ k1 k2 s1 s2, k1 ≠ k2 →
                  fs1 !! k1 = Some s1 → fs1 !! k2 = Some s2 →
                  locs s1 ## locs s2)
             ∧ tree_of (snapshot n hb) <$> fs1 = snapshot n hb <$> m')).
      - intros _. exists h0, ∅. split; [reflexivity|].
        split; [apply prefix_app_r; reflexivity|].
        split; [unfold h0; rewrite length_app; simpl; unfold res; lia|].
        split; [rewrite fmap_empty; apply list_lookup_middle; reflexivity|].
        split; [intros key s Hs; rewrite lookup_empty in Hs; discriminate|].
        split; [intros k1 k2 s1 s2 _ Hs; rewrite lookup_empty in Hs;
                discriminate|].
        rewrite !fmap_empty. reflexivity.
      - intros key x m' acc Hnone Hacc HF.
        apply map_Forall_insert in HF as [[_ Hx] HF]; [|exact Hnone].
        destruct (Hacc HF) as (h1 & fs1 & -> & Hp1 & Hlen1 & Hres1 & Hch1
                               & Hdj1 & Htree1).
        destruct (IH x h1) as (h2 & sx & Hclone & Hp2 & Hr2 & Hs2 & Hl2
                               & Hb2 & Ht2);
          [lia|etrans; [exact Hp|exact Hp1]|exact Hx|].
        cbn [mbind option_bind]. rewrite Hclone. cbn [mbind option_bind].
        assert (Hres2 : h2 !! res = Some (Cell false (Object (root <$> fs1))))
          by exact (prefix_lookup_Some _ _ _ _ Hres1 Hp2).
        unfold set. rewrite Hres2.
        pose proof (prefix_length _ _ Hp2) as Hlen2.
        exists (<[res := Cell false
                           (Object (<[key := root sx]> (root <$> fs1)))]> h2),
               (<[key := sx]> fs1).
        split; [reflexivity|].
        split; [apply prefix_insert_above;
                [etrans; eassumption|unfold res; lia]|].
        split; [rewrite length_insert; lia|].
        split; [rewrite list_lookup_insert_eq by lia;
                rewrite fmap_insert; reflexivity|].
        split; [|split].
        + intros k s Hs. destruct (decide (k = key)) as [->|Hne].
          * rewrite lookup_insert_eq in Hs. injection Hs as <-.
            split; [|split; [exact Hs2|split; [exact Hl2|]]].
            -- apply (realizes_frame h2); [exact Hr2|]. intros y Hy.
               apply list_lookup_insert_ne. specialize (Hb2 y Hy). lia.
            -- intros y Hy. specialize (Hb2 y Hy). lia.
          * rewrite lookup_insert_ne in Hs by congruence.
            destruct (Hch1 k s Hs) as (Hr & Hsp & Hlv & Hbd).
            split; [|auto].
            apply (realizes_frame h1); [exact Hr|]. intros y Hy.
            pose proof (realizes_bound h1 s Hr y Hy).
            rewrite list_lookup_insert_ne by (specialize (Hbd y Hy); lia).
            apply prefix_lookup_old; assumption.
        + assert (Hnew : ∀ k s, fs1 !! k = Some s → locs s ## locs sx).
          { intros k s Hs y Hy Hy'.
            destruct (Hch1 k s Hs) as (Hr & _).
            pose proof (realizes_bound h1 s Hr y Hy).
            specialize (Hb2 y Hy'). lia. }
          intros k1 k2 s1 s2 Hne H1 H2.
          destruct (decide (k1 = key)) as [->|Hne1];
            destruct (decide (k2 = key)) as [->|Hne2]; try congruence.
          * rewrite lookup_insert_eq in H1. injection H1 as <-.
            rewrite lookup_insert_ne in H2 by congruence.
            symmetry. eapply Hnew, H2.
          * rewrite lookup_insert_eq in H2. injection H2 as <-.
            rewrite lookup_insert_ne in H1 by congruence.
            eapply Hnew, H1.
          * rewrite lookup_insert_ne in H1, H2 by congruence.
            exact (Hdj1 k1 k2 s1 s2 Hne H1 H2).
        + rewrite !fmap_insert, Htree1, Ht2. reflexivity. }
    destruct Hloop as (h1 & fs1 & -> & Hp1 & Hlen1 & Hres1 & Hch1 & Hdj1
                       & Htree1).
    cbn [mbind option_bind].
    assert (Hmark : fs1 !! "_isBuffer" = None).
    { apply (f_equal (λ t, t !! "_isBuffer")) in Htree1.
      rewrite !lookup_fmap in Htree1.
      destruct (plain_object _ hb l fz m Hplain Hl) as [_ _].
      destruct (m !! "_isBuffer") as [x|] eqn:Hx.
      - destruct (Hd _ x Hx) as [Hk _]. discriminate Hk.
      - destruct (fs1 !! "_isBuffer"); [discriminate Htree1|reflexivity]. }
    exists h1, (SObj res fs1). split; [reflexivity|].
    split; [exact Hp1|].
    split; [constructor;
            [exact Hres1|intros k s Hs; apply (Hch1 k s Hs)|exact Hmark]|].
    split; [constructor;
            [intros k s Hs; apply (Hch1 k s Hs)
            |intros k s Hs Hin; destruct (Hch1 k s Hs) as (_ & _ & _ & Hb);
             specialize (Hb res Hin); lia
            |exact Hdj1]|].
    split; [constructor; intros k s Hs; apply (Hch1 k s Hs)|].
    split.
    + intros x Hx. apply elem_of_locs_obj in Hx as [->|(k & s & Hs & Hx)];
        [unfold res; lia|].
      destruct (Hch1 k s Hs) as (_ & _ & _ & Hb). specialize (Hb x Hx).
      unfold res in Hb. lia.
    + cbn [tree_of]. rewrite Htree1. symmetry.
      exact (snapshot_object n hb l fz m Hdn Hl).
  - (* an array *)
    unfold alloc. set (res := length h).
    set (h0 := h ++ [Cell false (Array [])]).
    assert (Hloop : ∀ es' h1 ss1,
      Forall (plain fuel hb) es' →
      h `prefix_of` h1 → res < length h1 →
      h1 !! res = Some (Cell false (Array (root <$> ss1))) →
      (∀ i s, ss1 !! i = Some s →
         realizes h1 s ∧ sep s ∧ leaves is_prim s
         ∧ ∀ x, x ∈ locs s → res < x) →
      (∀ i j s1 s2, i ≠ j → ss1 !! i = Some s1 → ss1 !! j = Some s2 →
         locs s1 ## locs s2) →
      ∃ h2 ss2,
        foldl
          (λ acc v,
             h ← acc;
             '(h, c) ← Lib.cloneDeep fuel h v;
             Some (push h (Ref res) c))
          (Some h1) es' = Some h2
        ∧ h `prefix_of` h2 ∧ res < length h2
        ∧ h2 !! res = Some (Cell false (Array (root <$> (ss1 ++ ss2))))
        ∧ (∀ i s, (ss1 ++ ss2) !! i = Some s →
             realizes h2 s ∧ sep s ∧ leaves is_prim s
             ∧ ∀ x, x ∈ locs s → res < x)
        ∧ (∀ i j s1 s2, i ≠ j →
             (ss1 ++ ss2) !! i = Some s1 → (ss1 ++ ss2) !! j = Some s2 →
             locs s1 ## locs s2)
        ∧ tree_of (snapshot n hb) <$> ss2 = snapshot n hb <$> es').
    { induction es' as [|x es' IHes];
        intros h1 ss1 HF Hp1 Hlen1 Hres1 Hch1 Hdj1.
      - exists h1, []. rewrite app_nil_r. auto 10.
      - inversion HF as [|? ? Hx HF']; subst.
        destruct (IH x h1) as (h2 & sx & Hclone & Hp2 & Hr2 & Hs2 & Hl2
                               & Hb2 & Ht2);
          [lia|etrans; [exact Hp|exact Hp1]|exact Hx|].
        cbn [foldl mbind option_bind]. rewrite Hclone.
        cbn [mbind option_bind].
        assert (Hres2 : h2 !! res = Some (Cell false (Array (root <$> ss1))))
          by exact (prefix_lookup_Some _ _ _ _ Hres1 Hp2).
        unfold push at 2. rewrite Hres2.
        pose proof (prefix_length _ _ Hp2) as Hlen2.
        set (h3 := <[res := Cell false (Array ((root <$> ss1) ++ [root sx]))]>
                     h2).
        destruct (IHes h3 (ss1 ++ [sx])) as (h4 & ss2 & Hfold & Hp4 & Hlen4
                                            & Hres4 & Hch4 & Hdj4 & Ht4).
        + exact HF'.
        + apply prefix_insert_above; [etrans; eassumption|unfold res; lia].
        + unfold h3. rewrite length_insert. lia.
        + unfold h3. rewrite list_lookup_insert_eq by lia.
          rewrite fmap_app. reflexivity.
        + intros i s Hs. apply lookup_snoc_shape in Hs as [[_ Hs]|[_ ->]].
          * destruct (Hch1 i s Hs) as (Hr & Hsp & Hlv & Hbd).
            split; [|auto].
            apply (realizes_frame h1); [exact Hr|]. intros y Hy.
            pose proof (realizes_bound h1 s Hr y Hy).
            unfold h3.
            rewrite list_lookup_insert_ne by (specialize (Hbd y Hy); lia).
            apply prefix_lookup_old; assumption.
          * split; [|split; [exact Hs2|split; [exact Hl2|]]].
            -- apply (realizes_frame h2); [exact Hr2|]. intros y Hy.
               apply list_lookup_insert_ne. specialize (Hb2 y Hy). lia.
            -- intros y Hy. specialize (Hb2 y Hy). lia.
        + assert (Hnew : ∀ i s, ss1 !! i = Some s → locs s ## locs sx).
          { intros i s Hs y Hy Hy'.
            destruct (Hch1 i s Hs) as (Hr & _).
            pose proof (realizes_bound h1 s Hr y Hy).
            specialize (Hb2 y Hy'). lia. }
          intros i j s1 s2 Hne H1 H2.
          apply lookup_snoc_shape in H1 as [[Hi H1]|[Hi ->]];
            apply lookup_snoc_shape in H2 as [[Hj H2]|[Hj ->]].
          * exact (Hdj1 i j s1 s2 Hne H1 H2).
          * eapply Hnew, H1.
          * symmetry. eapply Hnew, H2.
          * lia.
        + exists h4, (sx :: ss2).
          assert (E : (ss1 ++ [sx]) ++ ss2 = ss1 ++ sx :: ss2)
            by (rewrite <- app_assoc; reflexivity).
          rewrite E in Hres4, Hch4, Hdj4.
          split; [exact Hfold|]. split; [exact Hp4|]. split; [exact Hlen4|].
          split; [exact Hres4|]. split; [exact Hch4|]. split; [exact Hdj4|].
          rewrite !fmap_cons, Ht4, Ht2. reflexivity. }
    destruct (Hloop es h0 []) as (h1 & ss & -> & Hp1 & Hlen1 & Hres1 & Hch1
                                  & Hdj1 & Htree1).
    + exact Hd.
    + apply prefix_app_r. reflexivity.
    + unfold h0. rewrite length_app. simpl. unfold res. lia.
    + apply list_lookup_middle. reflexivity.
    + intros i s Hs. discriminate Hs.
    + intros i j s1 s2 _ Hs. discriminate Hs.
    + cbn [app] in *. cbn [mbind option_bind].
      exists h1, (SArr res ss). split; [reflexivity|].
      split; [exact Hp1|].
      split; [constructor; [exact Hres1|intros k s Hs; apply (Hch1 k s Hs)]|].
      split; [constructor;
              [intros k s Hs; apply (Hch1 k s Hs)
              |intros k s Hs Hin; destruct (Hch1 k s Hs) as (_ & _ & _ & Hb);
               specialize (Hb res Hin); lia
              |exact Hdj1]|].
      split; [constructor; intros k s Hs; apply (Hch1 k s Hs)|].
      split.
      * intros x Hx. apply elem_of_locs_arr in Hx as [->|(k & s & Hs & Hx)];
          [unfold res; lia|].
        destruct (Hch1 k s Hs) as (_ & _ & _ & Hb). specialize (Hb x Hx).
        unfold res in Hb. lia.
      * cbn [tree_of]. rewrite Htree1. symmetry.
        exact (snapshot_array n hb l fz es Hdn Hl).
Qed.

End CloneRefines.

(** ** arr-union on the heap and on trees *)

Section UnionRefines.

Implicit Types h hb : Store.heap.
Implicit Types v : Store.val.

Lemma disjoint_shapes_lookup (ss : list shape) :
  disjoint_shapes ss ↔
  ∀ i j s1 s2, i ≠ j → ss !! i = Some s1 → ss !! j = Some s2 →
    locs s1 ## locs s2.
Proof.
  induction ss as [|s ss IH]; cbn [disjoint_shapes].
  - split; [intros _ i j s1 s2 _ H; discriminate H|auto].
  - rewrite IH. split.
    + intros [HF Hd] [|i] [|j] s1 s2 Hne H1 H2; cbn in H1, H2.
      * congruence.
      * injection H1 as <-. rewrite Forall_forall in HF. apply HF.
        eapply list_elem_of_lookup_2, H2.
      * injection H2 as <-. symmetry. rewrite Forall_forall in HF. apply HF.
        eapply list_elem_of_lookup_2, H1.
      * apply (Hd i j); [congruence|assumption|assumption].
    + intros H. split.
      * apply Forall_forall. intros s' Hs'.
        apply list_elem_of_lookup in Hs' as [j Hj].
        apply (H 0 (S j)); [lia|reflexivity|exact Hj].
      * intros i j s1 s2 Hne H1 H2.
        apply (H (S i) (S j)); [lia|exact H1|exact H2].
Qed.

Lemma disjoint_shapes_sublist (l1 l2 : list shape) :
  l1 `sublist_of` l2 → disjoint_shapes l2 → disjoint_shapes l1.
Proof.
  induction 1 as [|x l1 l2 Hs IH|x l1 l2 Hs IH]; cbn [disjoint_shapes].
  - auto.
  - intros [HF Hd]. split; [|auto].
    apply Forall_forall. intros s' Hs'. rewrite Forall_forall in HF.
    apply HF. eapply elem_of_sublist; eassumption.
  - intros [_ Hd]. auto.
Qed.

Lemma disjoint_shapes_app_leaves (l : list shape) (vs : list Store.val) :
  disjoint_shapes l → disjoint_shapes (l ++ (SLeaf <$> vs)).
Proof.
  induction l as [|s l IH]; cbn [app disjoint_shapes].
  - intros _. induction vs as [|v vs IHv]; cbn; [exact I|].
    split; [|exact IHv]. apply Forall_forall. intros s' _. set_solver.
  - intros [HF Hd]. split; [|auto].
    apply Forall_app. split; [exact HF|].
    apply Forall_forall. intros s' Hs'.
    apply list_elem_of_fmap in Hs' as (v & -> & _). cbn. set_solver.
Qed.

Lemma refs_sublist (l1 l2 : list Store.val) :
  l1 `sublist_of` l2 → refs l1 `sublist_of` refs l2.
Proof.
  induction 1 as [|x l1 l2 Hs IH|x l1 l2 Hs IH]; unfold refs in *; cbn.
  - constructor.
  - destruct x; try exact IH. apply sublist_skip, IH.
  - destruct x; try exact IH. apply sublist_cons, IH.
Qed.

Lemma elem_of_refs (l : nat) (vs : list Store.val) : l ∈ refs vs ↔ Store.Ref l ∈ vs.
Proof.
  unfold refs. rewrite list_elem_of_omap. split.
  - intros (v & Hv & Heq). destruct v; try discriminate Heq.
    injection Heq as ->. exact Hv.
  - intros H. exists (Store.Ref l). auto.
Qed.

(** A pure shape that a reference refers to has the reference as a node. *)
Lemma pure_root_in_locs (s : shape) (l : nat) :
  leaves is_prim s → root s = Store.Ref l → l ∈ locs s.
Proof.
  intros Hp Hr. destruct s as [v|l' fs|l' es]; cbn [root] in Hr.
  - inversion Hp as [? Hv| |]; subst. contradiction.
  - injection Hr as ->. apply elem_of_locs_obj. auto.
  - injection Hr as ->. apply elem_of_locs_arr. auto.
Qed.

(** The elements of a new array are different references. *)
Lemma refs_NoDup (ss : list shape) :
  disjoint_shapes ss → Forall (leaves is_prim) ss →
  NoDup (refs (root <$> ss)).
Proof.
  induction ss as [|s ss IH]; cbn [disjoint_shapes]; intros Hd HF.
  - constructor.
  - destruct Hd as [Hds Hd]. inversion HF as [|? ? Hp HF']; subst.
    specialize (IH Hd HF'). rewrite fmap_cons. unfold refs in *. cbn [omap].
    destruct (root s) as [| | | | |l] eqn:Hr; try exact IH.
    constructor; [|exact IH].
    intros Hin. apply (elem_of_refs l) in Hin.
    apply list_elem_of_fmap in Hin as (s' & Hr' & Hs').
    rewrite Forall_forall in Hds, HF'.
    apply (Hds s' Hs' l).
    + apply pure_root_in_locs; assumption.
    + apply pure_root_in_locs; [apply HF', Hs'|congruence].
Qed.

Lemma snapshot_prim (n : nat) h v :
  is_prim v → Store.snapshot n h v = Store.snapshot 0 h v.
Proof. destruct n, v; intros H; try reflexivity; contradiction. Qed.

Lemma strict_eq_non_primitive_l (x y : value) :
  is_primitive x = false → strict_eq x y = false.
Proof. intros H. destruct x; try discriminate H; reflexivity. Qed.

Lemma strict_eq_non_primitive_r (x y : value) :
  is_primitive y = false → strict_eq x y = false.
Proof.
  intros H. destruct y; try discriminate H;
    destruct x as [| | |[]| | |]; reflexivity.
Qed.

(** What a reference stands for is an object or an array. *)
Lemma tree_of_ref (n : nat) hb (s : shape) (l : nat) :
  leaves (Store.plain n hb) s → root s = Store.Ref l →
  is_primitive (tree_of (Store.snapshot n hb) s) = false.
Proof.
  intros Hl Hr. destruct s as [v|l' fs|l' es]; try reflexivity.
  cbn [root] in Hr. subst v. inversion Hl as [? Hd| |]; subst.
  cbn [tree_of]. destruct n as [|n]; [contradiction|].
  cbn [Store.plain] in Hd. cbn [Store.snapshot].
  destruct (hb !! l) as [[fz [m|es]]|]; [reflexivity|reflexivity|contradiction].
Qed.

Lemma strict_eq_refines (n : nat) hb (a b : shape) :
  leaves (Store.plain n hb) a → leaves (Store.plain n hb) b →
  (∀ l, root a = Store.Ref l → root b ≠ Store.Ref l) →
  Store.strict_eq (root a) (root b)
  = strict_eq (tree_of (Store.snapshot n hb) a) (tree_of (Store.snapshot n hb) b).
Proof.
  intros Ha Hb Hne.
  destruct (root a) as [| | | | |la] eqn:Hra.
  6:{ rewrite (strict_eq_non_primitive_l _ _ (tree_of_ref n hb a la Ha Hra)).
      destruct (root b) as [| | | | |lb] eqn:Hrb; try reflexivity.
      cbn. apply Nat.eqb_neq. intros ->. exact (Hne lb eq_refl eq_refl). }
  all: destruct a as [va|?|?]; try discriminate Hra; cbn [root] in Hra;
    subst va; cbn [tree_of].
  all: destruct (root b) as [| | | | |lb] eqn:Hrb;
    try (rewrite (strict_eq_non_primitive_r _ _
                    (tree_of_ref n hb b lb Hb Hrb));
         repeat match goal with
           | |- context [Store.Num ?x] => is_var x; destruct x
           end;
         reflexivity).
  all: destruct b as [vb|?|?]; try discriminate Hrb; cbn [root] in Hrb;
    subst vb; cbn [tree_of]; rewrite !(snapshot_prim n hb) by exact I;
    try reflexivity.
  all: repeat match goal with
         | |- context [Store.Num ?x] => is_var x; destruct x
         end; reflexivity.
Qed.

Lemma found_refines (n : nat) hb (init : list shape) (e : shape) :
  Forall (leaves (Store.plain n hb)) init → leaves (Store.plain n hb) e →
  (∀ l, root e = Store.Ref l → l ∉ refs (root <$> init)) →
  Store.Lib.found (root <$> init) (root e)
  = ArrUnion.found (tree_of (Store.snapshot n hb) <$> init)
      (tree_of (Store.snapshot n hb) e).
Proof.
  intros HF He Hne. unfold Store.Lib.found, ArrUnion.found.
  induction init as [|a init IH]; [reflexivity|].
  inversion HF as [|? ? Ha HF']; subst. rewrite !fmap_cons. cbn [existsb].
  rewrite IH.
  - f_equal. apply strict_eq_refines; [exact He|exact Ha|].
    intros l Hl Hl'. apply (Hne l Hl). apply elem_of_refs.
    rewrite fmap_cons, <- Hl'. left.
  - exact HF'.
  - intros l Hl Hin. apply (Hne l Hl). apply elem_of_refs.
    apply elem_of_refs in Hin. rewrite fmap_cons. right. exact Hin.
Qed.

(** Pushing the new elements of [cand]: the same elements are kept on the
    heap and on trees, when no reference occurs twice. *)
Lemma push_all_refines (n : nat) hb (cand : list shape) :
  ∀ init,
    Forall (leaves (Store.plain n hb)) (init ++ cand) →
    NoDup (refs (root <$> (init ++ cand))) →
    ∃ k, k `sublist_of` cand
      ∧ foldl Store.Lib.push_new (root <$> init) (root <$> cand)
        = root <$> (init ++ k)
      ∧ foldl ArrUnion.push_new (tree_of (Store.snapshot n hb) <$> init)
          (tree_of (Store.snapshot n hb) <$> cand)
        = tree_of (Store.snapshot n hb) <$> (init ++ k).
Proof.
  induction cand as [|e cand IH]; intros init HF Hnd.
  - exists []. rewrite app_nil_r. split; [constructor|]. auto.
  - apply Forall_app in HF as [HFi HFc].
    inversion HFc as [|? ? He HFc']; subst.
    rewrite !fmap_cons. cbn [foldl].
    assert (Hfound : Store.Lib.found (root <$> init) (root e)
                     = ArrUnion.found (tree_of (Store.snapshot n hb) <$> init)
                         (tree_of (Store.snapshot n hb) e)).
    { apply found_refines; [exact HFi|exact He|].
      intros l Hl Hin. rewrite fmap_app, fmap_cons in Hnd.
      unfold refs in Hnd. rewrite omap_app in Hnd. cbn [omap] in Hnd.
      rewrite Hl in Hnd. apply NoDup_app in Hnd as (_ & Hx & _).
      apply (Hx l Hin). left. }
    unfold Store.Lib.push_new at 2, ArrUnion.push_new at 2. rewrite <- Hfound.
    destruct (Store.Lib.found (root <$> init) (root e)).
    + destruct (IH init) as (k & Hk & H1 & H2).
      * apply Forall_app. auto.
      * eapply sublist_NoDup; [exact Hnd|].
        apply refs_sublist, fmap_sublist, sublist_app; [reflexivity|].
        apply sublist_cons. reflexivity.
      * exists k. split; [apply sublist_cons, Hk|]. auto.
    + destruct (IH (init ++ [e])) as (k & Hk & H1 & H2).
      * rewrite <- app_assoc. apply Forall_app. auto.
      * rewrite <- app_assoc. exact Hnd.
      * exists (e :: k). split; [apply sublist_skip, Hk|].
        replace (init ++ e :: k) with ((init ++ [e]) ++ k)
          by (rewrite <- app_assoc; reflexivity).
        rewrite <- H1, <- H2, !fmap_app. auto.
Qed.

Lemma truthy_snapshot (n : nat) hb v :
  Store.plain n hb v → Store.truthy v = truthy (Store.snapshot n hb v).
Proof.
  intros Hd. destruct v as [| | | | |l]; try (destruct n; reflexivity).
  destruct n as [|n]; [contradiction|]. cbn [Store.plain] in Hd. cbn.
  destruct (hb !! l) as [[fz [m|es]]|]; [reflexivity|reflexivity|contradiction].
Qed.

Lemma isObject_snapshot (n : nat) hb v :
  Store.plain n hb v → Store.isObject hb v = isObject (Store.snapshot n hb v).
Proof.
  intros Hd. destruct v as [| | | | |l]; try (destruct n; reflexivity).
  destruct n as [|n]; [contradiction|]. pose proof Hd as Hplain.
  cbn [Store.plain] in Hd. cbn [Store.isObject Store.snapshot].
  destruct (hb !! l) as [[fz [m|es]]|] eqn:Hl;
    [|reflexivity|contradiction].
  destruct (plain_object _ hb l fz m Hplain Hl) as [Hb _]. rewrite Hb.
  unfold isObject, isBuffer. rewrite lookup_fmap.
  unfold Store.isBuffer in Hb.
  destruct (m !! "_isBuffer") as [x|] eqn:Hx; [|reflexivity].
  destruct (Hd _ x Hx) as [Hk _]. discriminate Hk.
Qed.

Lemma isArray_snapshot (n : nat) hb v :
  Store.plain n hb v → Store.isArray hb v = isArray (Store.snapshot n hb v).
Proof.
  intros Hd. destruct v as [| | | | |l]; try (destruct n; reflexivity).
  destruct n as [|n]; [contradiction|]. cbn [Store.plain] in Hd. cbn.
  destruct (hb !! l) as [[fz [m|es]]|]; [reflexivity|reflexivity|contradiction].
Qed.

Lemma elems_of_old (n : nat) hb h v :
  hb `prefix_of` h → Store.plain n hb v →
  Store.elems_of h v = Store.elems_of hb v.
Proof.
  intros Hp Hd. destruct v as [| | | | |l]; try reflexivity.
  destruct n as [|n]; [contradiction|]. cbn [Store.plain] in Hd. simpl.
  destruct (hb !! l) as [c|] eqn:Hl; [|contradiction].
  rewrite (prefix_lookup_Some _ _ _ _ Hl Hp). reflexivity.
Qed.

Lemma elems_of_depth (n : nat) hb v :
  Store.plain n hb v → Forall (Store.plain n hb) (Store.elems_of hb v).
Proof.
  intros Hd. destruct v as [| | | | |l]; try constructor.
  destruct n as [|n]; [contradiction|]. cbn [Store.plain] in Hd. simpl.
  destruct (hb !! l) as [[fz [m|es]]|]; try constructor.
  eapply Forall_impl; [exact Hd|]. intros x Hx. apply plain_S, Hx.
Qed.

Lemma distinct_refs_elems (n : nat) hb v :
  Store.plain n hb v → distinct_refs n hb v →
  NoDup (refs (Store.elems_of hb v)).
Proof.
  intros Hd Hr. destruct v as [| | | | |l]; try constructor.
  destruct n as [|n]; [contradiction|].
  cbn [Store.plain distinct_refs] in Hd, Hr. simpl.
  destruct (hb !! l) as [[fz [m|es]]|]; try constructor. exact Hr.
Qed.

Lemma plain_lt (n : nat) hb (l : nat) :
  Store.plain n hb (Store.Ref l) → l < length hb.
Proof.
  destruct n as [|n]; [contradiction|]. cbn [Store.plain].
  destruct (hb !! l) as [c|] eqn:Hl; [|contradiction].
  intros _. eapply lookup_lt_Some, Hl.
Qed.

(** [union([], newVal, oldVal)] for a new array [newVal] and a value
    [oldVal] of the base heap: the new array holds the same elements as the
    union on trees. *)
Lemma union_refines (n : nat) hb h (la : nat) (es : list shape)
    (y : Store.val) :
  hb `prefix_of` h →
  realizes h (SArr la es) → sep (SArr la es) → leaves is_prim (SArr la es) →
  (∀ x, x ∈ locs (SArr la es) → length hb ≤ x) →
  Store.plain n hb y → NoDup (refs (Store.elems_of hb y)) →
  ∃ res,
    Store.Lib.union h [Store.Ref la; y]
    = (h ++ [Store.Cell false (Store.Array (root <$> res))],
       Store.Ref (length h))
    ∧ res `sublist_of`
        es ++ (SLeaf <$> (if Store.isArray hb y then Store.elems_of hb y
                          else [y]))
    ∧ VArr (tree_of (Store.snapshot n hb) <$> res)
      = MergeDeep.assign (Store.snapshot n hb y)
          (VArr (tree_of (Store.snapshot n hb) <$> es)).
Proof.
  intros Hp Hr Hs Hpure Hfresh Hd Hnd.
  inversion Hr as [| |? ? Hcell Hrs]; subst.
  inversion Hs as [| |? ? Hss Hnl Hdj]; subst.
  inversion Hpure as [| |? ? Hps]; subst.
  assert (HFp : Forall (leaves is_prim) es).
  { apply Forall_forall. intros s Hin.
    apply list_elem_of_lookup in Hin as [i Hi]. exact (Hps i s Hi). }
  assert (HFl : Forall (leaves (Store.plain n hb)) es).
  { eapply Forall_impl; [exact HFp|]. intros s. apply leaves_impl.
    intros v Hv. destruct v; try exact I; try (destruct n; exact I).
    contradiction. }
  assert (Hnd1 : NoDup (refs (root <$> es))).
  { apply refs_NoDup; [|exact HFp]. apply disjoint_shapes_lookup, Hdj. }
  destruct (push_all_refines n hb es []) as (k1 & Hk1 & Hh1 & Ht1);
    [exact HFl|exact Hnd1|].
  cbn [app fmap list_fmap] in Hh1, Ht1.
  set (ys := if Store.isArray hb y then Store.elems_of hb y else [y]).
  assert (Hys : Forall (Store.plain n hb) ys).
  { unfold ys. destruct (Store.isArray hb y);
      [apply elems_of_depth, Hd|repeat constructor; exact Hd]. }
  assert (Hndy : NoDup (refs ys)).
  { unfold ys. destruct (Store.isArray hb y); [exact Hnd|].
    unfold refs. cbn. destruct y; repeat constructor; intros H; inversion H. }
  assert (Hroot : root <$> (SLeaf <$> ys) = ys).
  { rewrite <- list_fmap_compose. apply list_fmap_id. }
  assert (Htree : tree_of (Store.snapshot n hb) <$> (SLeaf <$> ys)
                  = Store.snapshot n hb <$> ys).
  { rewrite <- list_fmap_compose. reflexivity. }
  destruct (push_all_refines n hb (SLeaf <$> ys) k1) as (k2 & Hk2 & Hh2 & Ht2).
  { apply Forall_app. split.
    - apply Forall_forall. intros s Hin. rewrite Forall_forall in HFl.
      apply HFl. eapply elem_of_sublist; eassumption.
    - apply Forall_fmap. eapply Forall_impl; [exact Hys|].
      intros v Hv. constructor. exact Hv. }
  { rewrite fmap_app, Hroot. unfold refs. rewrite omap_app.
    apply NoDup_app. split; [|split; [|exact Hndy]].
    - eapply sublist_NoDup; [exact Hnd1|].
      apply refs_sublist, fmap_sublist, Hk1.
    - intros x Hx Hx'.
      apply (elem_of_refs x) in Hx. apply (elem_of_refs x) in Hx'.
      apply list_elem_of_fmap in Hx as (s & Hrs' & Hin).
      assert (Hin' : s ∈ es) by (eapply elem_of_sublist; eassumption).
      rewrite Forall_forall in HFp.
      pose proof (pure_root_in_locs s x (HFp s Hin') (eq_sym Hrs')) as Hloc.
      apply list_elem_of_lookup in Hin' as [i Hi].
      assert (length hb ≤ x) by (apply Hfresh, elem_of_locs_arr; eauto).
      rewrite Forall_forall in Hys.
      pose proof (plain_lt n hb x (Hys _ Hx')). lia. }
  rewrite Hroot in Hh2. rewrite Htree in Ht2.
  assert (Harr : Store.isArray h (Store.Ref la) = true)
    by (simpl; rewrite Hcell; reflexivity).
  assert (Hel : Store.elems_of h (Store.Ref la) = root <$> es)
    by (simpl; rewrite Hcell; reflexivity).
  assert (Hzs : foldl (Store.Lib.add_arg h) [] [Store.Ref la; y]
                = if Store.truthy y
                  then foldl Store.Lib.push_new (root <$> k1) ys
                  else root <$> k1).
  { cbn [foldl]. unfold Store.Lib.add_arg at 2.
    cbn [Store.truthy]. rewrite Harr, Hel, Hh1.
    unfold Store.Lib.add_arg.
    rewrite (isArray_old n hb h y Hp Hd), (elems_of_old n hb h y Hp Hd).
    reflexivity. }
  rewrite assign_over_array, union_pushes, Ht1.
  rewrite <- (truthy_snapshot n hb y Hd).
  assert (Hty : match Store.snapshot n hb y with
                | VArr l => l
                | _ => [Store.snapshot n hb y]
                end = Store.snapshot n hb <$> ys).
  { unfold ys. pose proof (isArray_snapshot n hb y Hd) as Hia.
    destruct (Store.isArray hb y) eqn:Hay.
    - destruct y as [| | | | |l]; try discriminate Hay. simpl in Hay |- *.
      destruct (hb !! l) as [[fz [m|ey]]|] eqn:Hl; try discriminate Hay.
      rewrite (snapshot_array n hb l fz ey Hd Hl). reflexivity.
    - cbn [fmap list_fmap].
      destruct (Store.snapshot n hb y); try reflexivity.
      cbn in Hia. discriminate Hia. }
  rewrite Hty. unfold Store.Lib.union, Store.alloc. rewrite Hzs.
  destruct (Store.truthy y).
  - exists (k1 ++ k2). split; [rewrite Hh2; reflexivity|].
    split; [apply sublist_app; assumption|]. rewrite Ht2. reflexivity.
  - exists k1. split; [reflexivity|].
    split; [apply sublist_inserts_r, Hk1|reflexivity].
Qed.

End UnionRefines.

(** ** merge-deep on the heap and on trees *)

Section MergeRefines.

Implicit Types h hb : Store.heap.
Implicit Types v : Store.val.

Lemma merge_loop_empty (t : gmap string value) :
  MergeDeep.merge_loop ∅ t = t.
Proof.
  apply map_eq. intros key. rewrite lookup_merge_loop, lookup_empty.
  destruct (MergeDeep.isValidKey key); reflexivity.
Qed.

Lemma merge_loop_insert (F : gmap string (value → value))
    (t : gmap string value) (key : string) (f : value → value) :
  MergeDeep.isValidKey key = true → F !! key = None →
  MergeDeep.merge_loop (<[key := f]> F) t
  = <[key := f (default VUndef (t !! key))]> (MergeDeep.merge_loop F t).
Proof.
  intros Hv Hn. apply map_eq. intros k. rewrite lookup_merge_loop.
  destruct (decide (k = key)) as [->|Hne].
  - rewrite Hv, !lookup_insert_eq. reflexivity.
  - rewrite !lookup_insert_ne by congruence. rewrite lookup_merge_loop.
    reflexivity.
Qed.

Lemma merge_loop_insert_invalid (F : gmap string (value → value))
    (t : gmap string value) (key : string) (f : value → value) :
  MergeDeep.isValidKey key = false →
  MergeDeep.merge_loop (<[key := f]> F) t = MergeDeep.merge_loop F t.
Proof.
  intros Hv. apply map_eq. intros k. rewrite !lookup_merge_loop.
  destruct (decide (k = key)) as [->|Hne].
  - rewrite Hv. reflexivity.
  - rewrite lookup_insert_ne by congruence. reflexivity.
Qed.

Lemma assign_object_over_non_object (oldVal : value)
    (t : gmap string value) :
  isObject oldVal = false → MergeDeep.assign oldVal (VObj t) = oldVal.
Proof.
  intros H. destruct oldVal; try reflexivity.
  cbn [MergeDeep.assign]. rewrite H, andb_false_r. reflexivity.
Qed.

(** A realized object is an object for kind-of, in the heap and as a
    tree. *)
Lemma isObject_realized h (l : nat) (fs : gmap string shape) :
  realizes h (SObj l fs) → Store.isObject h (Store.Ref l) = true.
Proof.
  intros Hr. inversion Hr as [|? ? Hc _ Hm|]; subst.
  cbn [Store.isObject]. rewrite Hc. unfold Store.isBuffer.
  rewrite lookup_fmap, Hm. reflexivity.
Qed.

Lemma isObject_tree_realized h (leaf : Store.val → value) (l : nat)
    (fs : gmap string shape) :
  realizes h (SObj l fs) → isObject (VObj (tree_of leaf <$> fs)) = true.
Proof.
  intros Hr. inversion Hr as [|? ? _ _ Hm|]; subst.
  unfold isObject, isBuffer. rewrite lookup_fmap, Hm. reflexivity.
Qed.

(** [target[key]] for a realized target. *)
Lemma get_realized h (l : nat) (fs : gmap string shape) (key : string) :
  realizes h (SObj l fs) →
  Store.get h (Store.Ref l) key
  = default Store.Undef (root <$> (fs !! key)).
Proof.
  intros Hr. inversion Hr as [|? ? Hc _|]; subst.
  unfold Store.get, Store.props_of. rewrite Hc, lookup_fmap. reflexivity.
Qed.

(** Replacing the value of one field of a realized object by a shape made
    of the nodes of the old value and of new nodes. *)
Lemma replace_field h1 h2 (l : nat) (fs1 : gmap string shape)
    (key : string) (s_new : shape) :
  realizes h1 (SObj l fs1) → sep (SObj l fs1) →
  length h1 ≤ length h2 →
  (∀ x, x < length h1 → x ∉ from_option locs ∅ (fs1 !! key) →
     h2 !! x = h1 !! x) →
  realizes h2 s_new → sep s_new →
  (∀ x, x ∈ locs s_new →
     x ∈ from_option locs ∅ (fs1 !! key) ∨ length h1 ≤ x) →
  key ≠ "_isBuffer" →
  Store.set_strict h2 (Store.Ref l) key (root s_new)
  = Some (Store.set h2 (Store.Ref l) key (root s_new))
  ∧ length (Store.set h2 (Store.Ref l) key (root s_new)) = length h2
  ∧ (∀ x, x ≠ l →
       Store.set h2 (Store.Ref l) key (root s_new) !! x = h2 !! x)
  ∧ realizes (Store.set h2 (Store.Ref l) key (root s_new))
      (SObj l (<[key := s_new]> fs1))
  ∧ sep (SObj l (<[key := s_new]> fs1))
  ∧ (∀ x, x ∈ locs (SObj l (<[key := s_new]> fs1)) →
       x ∈ locs (SObj l fs1) ∨ length h1 ≤ x).
Proof.
  intros Hr Hs Hlen Hframe Hrn Hsn Hbn Hkm.
  inversion Hr as [|? ? Hcell Hrs Hmark|]; subst.
  inversion Hs as [|? ? Hss Hnl Hdj|]; subst.
  pose proof (lookup_lt_Some _ _ _ Hcell) as Hl.
  assert (Hlold : l ∉ from_option locs ∅ (fs1 !! key)).
  { destruct (fs1 !! key) as [s|] eqn:Hk; cbn; [exact (Hnl key s Hk)|].
    set_solver. }
  assert (Hcell2 : h2 !! l
                   = Some (Store.Cell false (Store.Object (root <$> fs1))))
    by (rewrite (Hframe l Hl Hlold); exact Hcell).
  assert (Hlnew : l ∉ locs s_new).
  { intros Hin. destruct (Hbn l Hin) as [H|H]; [exact (Hlold H)|lia]. }
  split; [unfold Store.set_strict; rewrite Hcell2; reflexivity|].
  unfold Store.set. rewrite Hcell2.
  split; [apply length_insert|].
  split; [intros x Hx; apply list_lookup_insert_ne; congruence|].
  assert (Hold : ∀ k s, k ≠ key → fs1 !! k = Some s →
            ∀ x, x ∈ locs s → x < length h1
              ∧ (x ∉ from_option locs ∅ (fs1 !! key)) ∧ x ≠ l).
  { intros k s Hne Hk x Hx.
    split; [exact (realizes_bound h1 s (Hrs k s Hk) x Hx)|].
    split.
    - destruct (fs1 !! key) as [s'|] eqn:Hk'; cbn; [|set_solver].
      intros Hx'. exact (Hdj k key s s' Hne Hk Hk' x Hx Hx').
    - intros ->. exact (Hnl k s Hk Hx). }
  split; [|split].
  - constructor.
    + rewrite list_lookup_insert_eq by (eapply lookup_lt_Some, Hcell2).
      rewrite fmap_insert. reflexivity.
    + intros k s Hk. destruct (decide (k = key)) as [->|Hne].
      * rewrite lookup_insert_eq in Hk. injection Hk as <-.
        apply (realizes_frame h2); [exact Hrn|]. intros x Hx.
        apply list_lookup_insert_ne. intros ->. exact (Hlnew Hx).
      * rewrite lookup_insert_ne in Hk by congruence.
        apply (realizes_frame h1); [exact (Hrs k s Hk)|]. intros x Hx.
        destruct (Hold k s Hne Hk x Hx) as (Hx1 & Hx2 & Hx3).
        rewrite list_lookup_insert_ne by congruence. apply Hframe; assumption.
    + rewrite lookup_insert_ne by exact Hkm. exact Hmark.
  - constructor.
    + intros k s Hk. destruct (decide (k = key)) as [->|Hne].
      * rewrite lookup_insert_eq in Hk. injection Hk as <-. exact Hsn.
      * rewrite lookup_insert_ne in Hk by congruence. exact (Hss k s Hk).
    + intros k s Hk. destruct (decide (k = key)) as [->|Hne].
      * rewrite lookup_insert_eq in Hk. injection Hk as <-. exact Hlnew.
      * rewrite lookup_insert_ne in Hk by congruence. exact (Hnl k s Hk).
    + assert (Hnew : ∀ k s, k ≠ key → fs1 !! k = Some s →
                locs s ## locs s_new).
      { intros k s Hne Hk x Hx Hx'.
        destruct (Hold k s Hne Hk x Hx) as (Hx1 & Hx2 & _).
        destruct (Hbn x Hx') as [H|H]; [exact (Hx2 H)|lia]. }
      intros k1 k2 s1 s2 Hne H1 H2.
      destruct (decide (k1 = key)) as [->|Hne1];
        destruct (decide (k2 = key)) as [->|Hne2]; try congruence.
      * rewrite lookup_insert_eq in H1. injection H1 as <-.
        rewrite lookup_insert_ne in H2 by congruence.
        symmetry. exact (Hnew k2 s2 Hne2 H2).
      * rewrite lookup_insert_eq in H2. injection H2 as <-.
        rewrite lookup_insert_ne in H1 by congruence.
        exact (Hnew k1 s1 Hne1 H1).
      * rewrite lookup_insert_ne in H1, H2 by congruence.
        exact (Hdj k1 k2 s1 s2 Hne H1 H2).
  - intros x Hx. apply elem_of_locs_obj in Hx as [->|(k & s & Hk & Hx)].
    + left. apply elem_of_locs_obj. auto.
    + destruct (decide (k = key)) as [->|Hne].
      * rewrite lookup_insert_eq in Hk. injection Hk as <-.
        destruct (Hbn x Hx) as [H|H]; [|auto]. left.
        destruct (fs1 !! key) as [s'|] eqn:Hk'; cbn in H; [|set_solver].
        apply elem_of_locs_obj. eauto.
      * rewrite lookup_insert_ne in Hk by congruence.
        left. apply elem_of_locs_obj. eauto.
Qed.

Lemma set_prefix hb h (l : nat) (key : string) v :
  hb `prefix_of` h → length hb ≤ l →
  hb `prefix_of` Store.set h (Store.Ref l) key v.
Proof.
  intros Hp Hl. unfold Store.set.
  destruct (h !! l) as [[[] [m|es]]|]; try exact Hp.
  apply prefix_insert_above; assumption.
Qed.

Lemma merge_refines (n : nat) hb (fuel : nat) :
  ∀ (obj : Store.val) (l : nat) (fs : gmap string shape) h,
    fuel ≤ n → hb `prefix_of` h →
    Store.plain fuel hb obj → (fs ≠ ∅ → distinct_refs fuel hb obj) →
    Store.isObject hb obj = true →
    realizes h (SObj l fs) → sep (SObj l fs) → leaves is_prim (SObj l fs) →
    (∀ x, x ∈ locs (SObj l fs) → length hb ≤ x) →
    ∃ h' fs',
      Store.Lib.merge fuel h (Store.Ref l) obj = Some h'
      ∧ hb `prefix_of` h'
      ∧ length h ≤ length h'
      ∧ (∀ x, x < length h → x ∉ locs (SObj l fs) → h' !! x = h !! x)
      ∧ realizes h' (SObj l fs') ∧ sep (SObj l fs')
      ∧ leaves (Store.plain n hb) (SObj l fs')
      ∧ (∀ x, x ∈ locs (SObj l fs') →
           x ∈ locs (SObj l fs) ∨ length h ≤ x)
      ∧ (fs = ∅ → leaves is_prim (SObj l fs'))
      ∧ tree_of (Store.snapshot n hb) <$> fs'
        = MergeDeep.merge (tree_of (Store.snapshot n hb) <$> fs)
            (Store.snapshot n hb obj).
Proof.
  induction fuel as [|fuel IH];
    intros obj l fs h Hn Hp Hd Hdr Hobj Hr Hs Hpure Hfresh.
  { destruct obj; try discriminate Hobj. contradiction. }
  destruct obj as [| | | | |lo]; try discriminate Hobj.
  pose proof (plain_mono (S fuel) n hb (Store.Ref lo) Hn Hd) as Hdn.
  cbn [Store.Lib.merge].
  rewrite (props_of_old (S fuel) hb h (Store.Ref lo) Hp Hd).
  pose proof (isObject_snapshot (S fuel) hb (Store.Ref lo) Hd) as Hobjt.
  rewrite Hobj in Hobjt.
  rewrite <- (snapshot_stable (S fuel) hb (Store.Ref lo) n Hd Hn) in Hobjt.
  cbn [Store.plain distinct_refs] in Hd, Hdr. simpl in Hobj.
  unfold Store.props_of.
  destruct (hb !! lo) as [[fz [my|ey]]|] eqn:Hlo; try discriminate Hobj.
  rewrite (snapshot_object n hb lo fz my Hdn Hlo).
  unfold MergeDeep.merge. cbn [own_props].
  set (T := Store.snapshot n hb).
  set (t := tree_of T <$> fs).
  inversion Hpure as [|? ? Hpures|]; subst.
  assert (Hinv : map_Forall (λ key x, key ≠ "_isBuffer"
                                     ∧ Store.plain fuel hb x
                                     ∧ (fs ≠ ∅ → distinct_refs fuel hb x)) my).
  { intros key x Hx. destruct (Hd key x Hx) as [Hk Hdx].
    split; [apply ordinary_key_not_mark, Hk|]. split; [exact Hdx|].
    intros Hne. exact (Hdr Hne key x Hx). }
  clear Hd Hdr.
  pose (P := λ (acc : option Store.heap) (m' : gmap string Store.val),
       map_Forall
         (λ key x, key ≠ "_isBuffer"
                   ∧ Store.plain fuel hb x
                   ∧ (fs ≠ ∅ → distinct_refs fuel hb x)) m' →
       ∃ h1 fs1, acc = Some h1
         ∧ hb `prefix_of` h1
         ∧ length h ≤ length h1
         ∧ (∀ x, x < length h → x ∉ locs (SObj l fs) → h1 !! x = h !! x)
         ∧ realizes h1 (SObj l fs1) ∧ sep (SObj l fs1)
         ∧ leaves (Store.plain n hb) (SObj l fs1)
         ∧ (∀ x, x ∈ locs (SObj l fs1) →
              x ∈ locs (SObj l fs) ∨ length h ≤ x)
         ∧ (fs = ∅ → leaves is_prim (SObj l fs1))
         ∧ (∀ key, m' !! key = None → fs1 !! key = fs !! key)
         ∧ tree_of T <$> fs1
           = MergeDeep.merge_loop (MergeDeep.assign <$> (T <$> m')) t).
  match goal with
  | |- ∃ h' fs', ?X = Some h' ∧ _ => assert (Hloop : P X my)
  end.
  2:{ destruct (Hloop Hinv) as (h1 & fs1 & E & H1 & H2 & H3 & H4 & H5 & H6
                                & H7 & H8 & _ & H10).
      exists h1, fs1. auto 12. }
  apply (map_fold_weak_ind P); unfold P; clear P.
  { intros _. exists h, fs. split; [reflexivity|].
    split; [exact Hp|]. split; [lia|]. split; [auto|].
    split; [exact Hr|]. split; [exact Hs|].
    split.
    { eapply leaves_impl; [|exact Hpure].
      intros v Hv. destruct v; try exact I; try (destruct n; exact I).
      contradiction. }
    split; [auto|]. split; [intros _; exact Hpure|]. split; [auto|].
    rewrite !fmap_empty, merge_loop_empty. reflexivity. }
  { intros key y m' acc Hnone Hacc HF.
      apply map_Forall_insert in HF as [(Hkm & Hy & Hyr) HF]; [|exact Hnone].
      destruct (Hacc HF) as (h1 & fs1 & -> & Hp1 & Hlen1 & Hfr1 & Hr1 & Hs1
                             & Hl1 & Hb1 & Hpu1 & Hun1 & Ht1).
      clear Hacc. cbn [mbind option_bind].
      destruct (MergeDeep.isValidKey key) eqn:Hvalid.
      2:{ exists h1, fs1. split; [reflexivity|].
          repeat (split; [assumption|]). split.
          - intros k Hk. apply Hun1.
            destruct (decide (k = key)) as [->|Hne]; [exact Hnone|].
            rewrite lookup_insert_ne in Hk by congruence. exact Hk.
          - rewrite !fmap_insert, merge_loop_insert_invalid by exact Hvalid.
            exact Ht1. }
      pose proof (Hun1 key Hnone) as Hkey.
      pose proof (plain_mono fuel n hb y ltac:(lia) Hy) as Hyn.
      (* what every branch ends with *)
      assert (Hfinish : ∀ h2 s_new,
        hb `prefix_of` h2 → length h1 ≤ length h2 →
        (∀ x, x < length h1 → x ∉ from_option locs ∅ (fs1 !! key) →
           h2 !! x = h1 !! x) →
        realizes h2 s_new → sep s_new →
        leaves (Store.plain n hb) s_new →
        (∀ x, x ∈ locs s_new →
           x ∈ from_option locs ∅ (fs1 !! key) ∨ length h1 ≤ x) →
        (fs = ∅ → leaves is_prim s_new) →
        tree_of T s_new = MergeDeep.assign (T y) (default VUndef (t !! key)) →
        ∃ h3 fs2,
          Store.set_strict h2 (Store.Ref l) key (root s_new) = Some h3
          ∧ hb `prefix_of` h3
          ∧ length h ≤ length h3
          ∧ (∀ x, x < length h → x ∉ locs (SObj l fs) → h3 !! x = h !! x)
          ∧ realizes h3 (SObj l fs2) ∧ sep (SObj l fs2)
          ∧ leaves (Store.plain n hb) (SObj l fs2)
          ∧ (∀ x, x ∈ locs (SObj l fs2) →
               x ∈ locs (SObj l fs) ∨ length h ≤ x)
          ∧ (fs = ∅ → leaves is_prim (SObj l fs2))
          ∧ (∀ k, (<[key := y]> m') !! k = None → fs2 !! k = fs !! k)
          ∧ tree_of T <$> fs2
            = MergeDeep.merge_loop
                (MergeDeep.assign <$> (T <$> <[key := y]> m')) t).
      { intros h2 s_new Hp2 Hlen2 Hfr2 Hr2 Hs2 Hl2 Hb2 Hpu2 Ht2.
        destruct (replace_field h1 h2 l fs1 key s_new Hr1 Hs1 Hlen2 Hfr2 Hr2
                    Hs2 Hb2 Hkm) as (Hset & Hlen3 & Hne3 & Hr3 & Hs3 & Hb3).
        assert (Hlfresh : length hb ≤ l)
          by (apply Hfresh, elem_of_locs_obj; auto).
        eexists _, (<[key := s_new]> fs1). split; [exact Hset|].
        split; [apply set_prefix; assumption|].
        split; [lia|].
        split.
        { intros x Hx Hnin.
          assert (x ≠ l) by (intros ->; apply Hnin, elem_of_locs_obj; auto).
          rewrite Hne3 by assumption.
          rewrite Hfr2; [apply Hfr1; assumption|lia|].
          rewrite Hkey. destruct (fs !! key) as [s|] eqn:Hk; cbn;
            [|set_solver].
          intros Hin. apply Hnin, elem_of_locs_obj. eauto. }
        split; [exact Hr3|]. split; [exact Hs3|].
        split.
        { inversion Hl1 as [|? ? Hl1s|]; subst. constructor.
          intros k s Hk. destruct (decide (k = key)) as [->|Hne].
          - rewrite lookup_insert_eq in Hk. injection Hk as <-. exact Hl2.
          - rewrite lookup_insert_ne in Hk by congruence.
            exact (Hl1s k s Hk). }
        split.
        { intros x Hx. destruct (Hb3 x Hx) as [H|H]; [|right; lia].
          destruct (Hb1 x H) as [H'|H']; auto. }
        split.
        { intros Hemp. specialize (Hpu1 Hemp). specialize (Hpu2 Hemp).
          inversion Hpu1 as [|? ? Hpu1s|]; subst. constructor.
          intros k s Hk. destruct (decide (k = key)) as [->|Hne].
          - rewrite lookup_insert_eq in Hk. injection Hk as <-. exact Hpu2.
          - rewrite lookup_insert_ne in Hk by congruence.
            exact (Hpu1s k s Hk). }
        split.
        { intros k Hk. destruct (decide (k = key)) as [->|Hne].
          - rewrite lookup_insert_eq in Hk. discriminate Hk.
          - rewrite lookup_insert_ne in Hk by congruence.
            rewrite lookup_insert_ne by congruence. apply Hun1, Hk. }
        rewrite !fmap_insert, Ht2, Ht1.
        rewrite merge_loop_insert; [reflexivity|exact Hvalid|].
        rewrite !lookup_fmap, Hnone. reflexivity. }
      (* the value of the field in the target *)
      rewrite (get_realized h1 l fs1 key Hr1), Hkey.
      assert (Htkey : t !! key = tree_of T <$> (fs !! key))
        by (unfold t; apply lookup_fmap).
      rewrite Htkey in Hfinish. rewrite Hkey in Hfinish.
      inversion Hr1 as [|? ? Hcell1 Hrs1|]; subst.
      inversion Hs1 as [|? ? Hss1 Hnl1 Hdj1|]; subst.
      assert (Hprim : ∀ v, is_prim v → Store.plain n hb v)
        by (intros v Hv; destruct v; try exact I; try (destruct n; exact I);
            contradiction).
      (* the branch that clones the incoming value *)
      match goal with
      | |- ?G =>
          assert (HcaseC :
            Store.isObject h1 (default Store.Undef (root <$> (fs !! key)))
              && Store.isObject h1 y = false →
            Store.isArray h1 (default Store.Undef (root <$> (fs !! key)))
              = false →
            MergeDeep.assign (T y)
              (default VUndef (tree_of T <$> (fs !! key))) = T y →
            (fs = ∅ → True) →
            (fs !! key = None ∨ fs ≠ ∅) →
            G)
      end.
      { intros Hc1 Hc2 Hc3 _ Hemp. rewrite Hc1, Hc2.
        destruct (cloneDeep_refines n hb fuel y h1) as
          (h2 & sy & Hc & Hp2 & Hr2 & Hs2 & Hpu2 & Hb2 & Ht2);
          [lia|exact Hp1|exact Hy|].
        rewrite Hc. cbn [mbind option_bind].
        apply (Hfinish h2 sy).
        - etrans; eassumption.
        - apply prefix_length, Hp2.
        - intros x Hx _. apply prefix_lookup_old; assumption.
        - exact Hr2.
        - exact Hs2.
        - eapply leaves_impl; [exact Hprim|exact Hpu2].
        - intros x Hx. right. exact (Hb2 x Hx).
        - intros _. exact Hpu2.
        - rewrite Hc3. exact Ht2. }
      destruct (fs !! key) as [[v|lk fsk|la esk]|] eqn:Hfk.
      - (* a primitive in the target *)
        pose proof (Hpures key _ Hfk) as Hv.
        inversion Hv as [? Hv'| |]; subst.
        change (default Store.Undef (root <$> Some (SLeaf v))) with v
          in HcaseC.
        change (default VUndef (tree_of T <$> Some (SLeaf v))) with (T v)
          in HcaseC.
        apply HcaseC; auto.
        + destruct v; try contradiction; reflexivity.
        + destruct v; try contradiction; reflexivity.
        + apply assign_over_terminal; unfold T;
            rewrite snapshot_prim by exact Hv';
            destruct v; try contradiction; reflexivity.
        + right. intros ->. rewrite lookup_empty in Hfk. discriminate Hfk.
      - (* an object in the target *)
        assert (Hfne : fs ≠ ∅)
          by (intros ->; rewrite lookup_empty in Hfk; discriminate Hfk).
        specialize (Hyr Hfne).
        pose proof (Hrs1 key _ Hkey) as Hrk.
        pose proof (Hss1 key _ Hkey) as Hsk.
        pose proof (Hpures key _ Hfk) as Hpk.
        assert (Hfk' : ∀ x, x ∈ locs (SObj lk fsk) → length hb ≤ x)
          by (intros x Hx; apply Hfresh, elem_of_locs_obj; eauto).
        assert (Hok : Store.isObject h1 (Store.Ref lk) = true)
          by exact (isObject_realized h1 lk fsk Hrk).
        change (default Store.Undef (root <$> Some (SObj lk fsk)))
          with (Store.Ref lk) in *.
        change (default VUndef (tree_of T <$> Some (SObj lk fsk)))
          with (VObj (tree_of T <$> fsk)) in *.
        destruct (Store.isObject hb y) eqn:Hoy.
        + rewrite Hok, (isObject_old fuel hb h1 y Hp1 Hy), Hoy. cbn [andb].
          destruct (IH y lk fsk h1) as
            (h2 & fsk' & Hm & Hp2 & Hlen2 & Hfr2 & Hr2 & Hs2 & Hl2 & Hb2 & _
             & Ht2); try assumption; [lia|intros _; exact Hyr|].
          rewrite Hm. cbn [mbind option_bind].
          apply (Hfinish h2 (SObj lk fsk')); try assumption;
            [intros Hemp; contradiction|].
          cbn [tree_of]. fold T in Ht2. rewrite Ht2.
          pose proof (isObject_snapshot fuel hb y Hy) as Hoy'.
          rewrite Hoy in Hoy'.
          rewrite <- (snapshot_stable fuel hb y n Hy) in Hoy' by lia.
          fold T in Hoy'. destruct (T y) as [| | | | | |o] eqn:ETy;
            try discriminate Hoy'.
          symmetry. apply assign_objects; [|auto].
          exact (isObject_tree_realized h1 T lk fsk Hrk).
        + apply HcaseC; auto.
          * rewrite (isObject_old fuel hb h1 y Hp1 Hy), Hoy.
            apply andb_false_r.
          * pose proof Hrk as Hrk'.
            inversion Hrk' as [|? ? Hck _ _|]; subst. simpl. rewrite Hck.
            reflexivity.
          * apply assign_object_over_non_object.
            unfold T. rewrite <- (isObject_snapshot n hb y Hyn). exact Hoy.
      - (* an array in the target *)
        assert (Hfne : fs ≠ ∅)
          by (intros ->; rewrite lookup_empty in Hfk; discriminate Hfk).
        specialize (Hyr Hfne).
        pose proof (Hrs1 key _ Hkey) as Hrk.
        pose proof (Hss1 key _ Hkey) as Hsk.
        pose proof (Hpures key _ Hfk) as Hpk.
        assert (Hfk' : ∀ x, x ∈ locs (SArr la esk) → length hb ≤ x)
          by (intros x Hx; apply Hfresh, elem_of_locs_obj; eauto).
        inversion Hrk as [| |? ? Hck Hrsk]; subst.
        inversion Hsk as [| |? ? Hssk Hnlk Hdjk]; subst.
        inversion Hpk as [| |? ? Hpsk]; subst.
        change (default Store.Undef (root <$> Some (SArr la esk)))
          with (Store.Ref la) in *.
        change (default VUndef (tree_of T <$> Some (SArr la esk)))
          with (VArr (tree_of T <$> esk)) in *.
        assert (Store.isObject h1 (Store.Ref la) = false) as ->
          by (simpl; rewrite Hck; reflexivity).
        assert (Store.isArray h1 (Store.Ref la) = true) as ->
          by (simpl; rewrite Hck; reflexivity).
        cbn [andb].
        destruct (union_refines n hb h1 la esk y Hp1 Hrk Hsk Hpk Hfk' Hyn
                    (distinct_refs_elems fuel hb y Hy Hyr))
          as (res & Hu & Hsub & Htree).
        rewrite Hu.
        set (ys := if Store.isArray hb y then Store.elems_of hb y else [y])
          in *.
        assert (Hys : Forall (Store.plain n hb) ys).
        { unfold ys. destruct (Store.isArray hb y);
            [apply elems_of_depth, Hyn|repeat constructor; exact Hyn]. }
        assert (Hres : ∀ i s, res !! i = Some s →
                  (∃ j, esk !! j = Some s)
                  ∨ (∃ v, s = SLeaf v ∧ Store.plain n hb v)).
        { intros i s Hi.
          pose proof (elem_of_sublist _ _ s
                        (list_elem_of_lookup_2 _ _ _ Hi) Hsub) as Hin.
          apply elem_of_app in Hin as [Hin|Hin].
          - left. apply list_elem_of_lookup in Hin. exact Hin.
          - right. apply list_elem_of_fmap in Hin as (v & -> & Hv).
            exists v. split; [reflexivity|].
            rewrite Forall_forall in Hys. exact (Hys v Hv). }
        apply (Hfinish (h1 ++ [Store.Cell false (Store.Array (root <$> res))])
                 (SArr (length h1) res)).
        + apply prefix_app_r. exact Hp1.
        + rewrite length_app. lia.
        + intros x Hx _. apply lookup_app_l. exact Hx.
        + constructor; [apply list_lookup_middle; reflexivity|].
          intros i s Hi. destruct (Hres i s Hi) as [[j Hj]|(v & -> & _)];
            [|constructor].
          apply (realizes_frame h1); [exact (Hrsk j s Hj)|].
          intros x Hx. apply lookup_app_l.
          exact (realizes_bound h1 s (Hrsk j s Hj) x Hx).
        + constructor.
          * intros i s Hi. destruct (Hres i s Hi) as [[j Hj]|(v & -> & _)];
              [exact (Hssk j s Hj)|constructor].
          * intros i s Hi Hin.
            destruct (Hres i s Hi) as [[j Hj]|(v & -> & _)];
              [|cbn in Hin; set_solver].
            pose proof (realizes_bound h1 s (Hrsk j s Hj) _ Hin). lia.
          * apply disjoint_shapes_lookup.
            apply (disjoint_shapes_sublist _ _ Hsub).
            apply disjoint_shapes_app_leaves, disjoint_shapes_lookup, Hdjk.
        + constructor. intros i s Hi.
          destruct (Hres i s Hi) as [[j Hj]|(v & -> & Hv)];
            [|constructor; exact Hv].
          eapply leaves_impl; [exact Hprim|exact (Hpsk j s Hj)].
        + intros x Hx. apply elem_of_locs_arr in Hx as [->|(i & s & Hi & Hx)];
            [right; lia|].
          destruct (Hres i s Hi) as [[j Hj]|(v & -> & _)];
            [|cbn in Hx; set_solver].
          left. apply elem_of_locs_arr. eauto.
        + intros Hemp. contradiction.
        + cbn [tree_of]. exact Htree.
      - (* no such field in the target *)
        change (default Store.Undef (root <$> None)) with Store.Undef in *.
        change (default VUndef (tree_of T <$> None)) with VUndef in *.
        apply HcaseC; auto.
        apply assign_over_terminal; reflexivity. }
Qed.

(** One argument of [mergeDeep]: merged into the target when it is an
    object, skipped when it is a primitive. *)
Lemma mergeDeep_step (n : nat) hb h (l : nat) (fs : gmap string shape)
    (v : Store.val) :
  1 ≤ n → hb `prefix_of` h →
  Store.plain n hb v → (fs ≠ ∅ → distinct_refs n hb v) →
  Store.isArray hb v = false →
  realizes h (SObj l fs) → sep (SObj l fs) → leaves is_prim (SObj l fs) →
  (∀ x, x ∈ locs (SObj l fs) → length hb ≤ x) →
  ∃ h' fs',
    (if Store.isObject h v || Store.isArray h v
     then Store.Lib.merge n h (Store.Ref l) v else Some h) = Some h'
    ∧ hb `prefix_of` h'
    ∧ realizes h' (SObj l fs') ∧ sep (SObj l fs')
    ∧ leaves (Store.plain n hb) (SObj l fs')
    ∧ (∀ x, x ∈ locs (SObj l fs') → length hb ≤ x)
    ∧ (fs = ∅ → leaves is_prim (SObj l fs'))
    ∧ tree_of (Store.snapshot n hb) <$> fs'
      = if isObject (Store.snapshot n hb v) || isArray (Store.snapshot n hb v)
        then MergeDeep.merge (tree_of (Store.snapshot n hb) <$> fs)
               (Store.snapshot n hb v)
        else tree_of (Store.snapshot n hb) <$> fs.
Proof.
  intros Hn Hp Hd Hdr Harr Hr Hs Hpure Hfresh.
  rewrite (isObject_old n hb h v Hp Hd), (isArray_old n hb h v Hp Hd), Harr.
  rewrite <- (isObject_snapshot n hb v Hd), <- (isArray_snapshot n hb v Hd),
    Harr.
  rewrite !orb_false_r.
  destruct (Store.isObject hb v) eqn:Hobj.
  - destruct (merge_refines n hb n v l fs h) as
      (h' & fs' & Hm & Hp' & Hlen & _ & Hr' & Hs' & Hl' & Hb' & Hpu' & Ht');
      try assumption; [lia|].
    exists h', fs'. split; [exact Hm|]. split; [exact Hp'|].
    split; [exact Hr'|]. split; [exact Hs'|]. split; [exact Hl'|].
    split; [|split; [exact Hpu'|exact Ht']].
    intros x Hx. destruct (Hb' x Hx) as [H|H]; [exact (Hfresh x H)|].
    apply prefix_length in Hp. lia.
  - exists h, fs. split; [reflexivity|]. split; [exact Hp|].
    split; [exact Hr|]. split; [exact Hs|].
    split.
    { eapply leaves_impl; [|exact Hpure].
      intros w Hw. destruct w; try exact I; try (destruct n; exact I).
      contradiction. }
    split; [exact Hfresh|]. split; [intros _; exact Hpure|].
    reflexivity.
Qed.

(** [mergeDeep({}, x, y)]: the new object reads as the result of merge-deep
    on the trees of [x] and [y]. *)
Lemma mergeDeep_refines (n : nat) hb (orig : nat) (x y : Store.val) :
  1 ≤ n →
  hb !! orig = Some (Store.Cell false (Store.Object ∅)) →
  Store.plain n hb x → Store.plain n hb y →
  Store.isArray hb x = false → Store.isArray hb y = false →
  distinct_refs n hb y →
  ∃ h' (l : nat) (fs : gmap string shape),
    Store.Lib.mergeDeep n hb (Store.Ref orig) [x; y]
      = Some (h', Store.Ref l)
    ∧ hb `prefix_of` h' ∧ length hb ≤ l
    ∧ realizes h' (SObj l fs)
    ∧ leaves (Store.plain n hb) (SObj l fs)
    ∧ tree_of (Store.snapshot n hb) (SObj l fs)
      = MergeDeep.mergeDeep [Store.snapshot n hb x; Store.snapshot n hb y].
Proof.
  intros Hn Horig Hx Hy Hax Hay Hdr. unfold Store.Lib.mergeDeep.
  assert (Store.isObject hb (Store.Ref orig) = true) as ->
    by (simpl; rewrite Horig; reflexivity).
  cbn [orb].
  destruct n as [|n]; [lia|].
  cbn [Store.Lib.cloneDeep]. rewrite Horig.
  change (negb (Store.isBuffer ∅) && Store.isPlainObject ∅) with true.
  cbn match.
  unfold Store.alloc. rewrite map_fold_empty. cbn [mbind option_bind].
  set (h0 := hb ++ [Store.Cell false (Store.Object ∅)]).
  set (l := length hb).
  assert (Hp0 : hb `prefix_of` h0) by (apply prefix_app_r; reflexivity).
  assert (Hr0 : realizes h0 (SObj l ∅)).
  { constructor.
    - rewrite fmap_empty. apply list_lookup_middle. reflexivity.
    - intros key s Hs. rewrite lookup_empty in Hs. discriminate Hs.
    - apply lookup_empty. }
  assert (Hs0 : sep (SObj l ∅)).
  { constructor; intros; rewrite lookup_empty in *; discriminate. }
  assert (Hpu0 : leaves is_prim (SObj l ∅)).
  { constructor; intros; rewrite lookup_empty in *; discriminate. }
  assert (Hf0 : ∀ z, z ∈ locs (SObj l ∅) → length hb ≤ z).
  { intros z Hz. apply elem_of_locs_obj in Hz as [->|(k & s & Hk & _)];
      [unfold l; lia|]. rewrite lookup_empty in Hk. discriminate Hk. }
  cbn [foldl mbind option_bind].
  destruct (mergeDeep_step (S n) hb h0 l ∅ x) as
    (h1 & fs1 & Hm1 & Hp1 & Hr1 & Hs1 & _ & Hf1 & Hpu1 & Ht1);
    try assumption; [intros H; contradiction|].
  rewrite Hm1. cbn [mbind option_bind].
  destruct (mergeDeep_step (S n) hb h1 l fs1 y) as
    (h2 & fs2 & Hm2 & Hp2 & Hr2 & Hs2 & Hl2 & Hf2 & _ & Ht2);
    try assumption; [intros _; exact Hdr|exact (Hpu1 eq_refl)|].
  rewrite Hm2. cbn [mbind option_bind].
  exists h2, l, fs2. split; [reflexivity|]. split; [exact Hp2|].
  split; [unfold l; lia|]. split; [exact Hr2|]. split; [exact Hl2|].
  cbn [tree_of]. rewrite Ht2, Ht1, fmap_empty. reflexivity.
Qed.

End MergeRefines.

(** ** The class on the heap reads as the class on trees *)

Lemma distinct_refs_prefix (n : nat) (hb h : Store.heap) :
  hb `prefix_of` h →
  ∀ v, Store.plain n hb v → distinct_refs n hb v → distinct_refs n h v.
Proof.
  intros Hp. induction n as [|n IH]; intros v Hd Hr;
    destruct v as [| | | | |l]; try exact I.
  cbn [Store.plain distinct_refs] in *.
  destruct (hb !! l) as [[fz [m|es]]|] eqn:Hl; [| |contradiction];
    rewrite (prefix_lookup_Some _ _ _ _ Hl Hp).
  - intros key x Hx.
    apply IH; [exact (proj2 (Hd key x Hx))|exact (Hr key x Hx)].
  - exact Hr.
Qed.

Lemma distinct_refsb_sound (n : nat) (h : Store.heap) (v : Store.val) :
  distinct_refsb n h v = true → distinct_refs n h v.
Proof.
  revert v. induction n as [|n IH]; intros v Hb;
    destruct v as [| | | | |l]; try exact I.
  cbn [distinct_refsb distinct_refs] in *.
  destruct (h !! l) as [[fz [m|es]]|]; [| |exact I].
  - apply bool_decide_eq_true in Hb. intros key x Hx. apply IH.
    exact (Hb key x Hx).
  - apply bool_decide_eq_true in Hb. exact Hb.
Qed.

Section ClassRefines.

Context {schema : Type} (schema_merge : schema → schema → schema).
Implicit Types h : Store.heap.
Implicit Types a b u : Store.ZodFig schema.

(** The call [mergeDeep({}, x, y)] after the literal [{}] and any objects
    made for [?? {}]: in a heap [hb] that extends [h] and holds the
    literal. *)
Lemma mergeDeep_call_refines (n : nat) hb (orig : nat) (x y : Store.val)
    (s : schema) :
  1 ≤ n →
  hb !! orig = Some (Store.Cell false (Store.Object ∅)) →
  Store.plain n hb x → Store.plain n hb y →
  Store.isArray hb x = false → Store.isArray hb y = false →
  distinct_refs n hb y →
  ∃ h' r N0,
    (Store.Lib.mergeDeep n hb (Store.Ref orig) [x; y]
       ≫= λ '(h, r), Some (Store.new_ZodFig h s r)) = Some (h', r)
    ∧ Store._schema r = s
    ∧ ∀ N, N0 ≤ N →
        Store.snapshot N h' (Store._config r)
        = MergeDeep.mergeDeep [Store.snapshot n hb x; Store.snapshot n hb y].
Proof.
  intros Hn Horig Hx Hy Hax Hay Hdr.
  destruct (mergeDeep_refines n hb orig x y Hn Horig Hx Hy Hax Hay Hdr)
    as (h' & l & fs & Hm & Hp & Hl & Hr & Hlv & Ht).
  rewrite Hm. cbn [mbind option_bind]. unfold Store.new_ZodFig.
  cbn [Store.truthy].
  eexists _, _, (ssize (SObj l fs) + n). split; [reflexivity|].
  split; [reflexivity|]. intros N HN. cbn [Store._config].
  rewrite snapshot_freeze, <- Ht.
  exact (snapshot_realizes n hb h' (SObj l fs) Hp Hr Hlv N HN).
Qed.

(** X21.  On a heap where the data of [u] and the partial value [p] are plain
    (acyclic, of depth at most [fuel], with ordinary property names) and are
    not arrays, and where no array met on the way down the fields of [p]
    holds the same object twice, [u.override(p)] on the heap returns a unit
    whose data reads back as the data of [override] on the trees that [u]'s
    data and [p] read as. *)
Theorem override_reads_as_on_trees (fuel : nat) h u (p : Store.val) :
  1 ≤ fuel →
  Store.plain fuel h (Store._config u) → Store.plain fuel h p →
  Store.isArray h (Store._config u) = false → Store.isArray h p = false →
  distinct_refs fuel h p →
  ∃ h' r N0,
    Store.override fuel h u p = Some (h', r)
    ∧ Store._schema r = Store._schema u
    ∧ ∀ N, N0 ≤ N →
        Store.snapshot N h' (Store._config r)
        = Tree._config
            (Tree.override
               (Tree.new_ZodFig (Store._schema u)
                  (Store.snapshot N h (Store._config u)))
               (Store.snapshot N h p)).
Proof.
  intros Hn Hu Hp Hau Hap Hdr. unfold Store.override, Store.alloc.
  set (hb := h ++ [Store.Cell false (Store.Object ∅)]).
  assert (Hpre : h `prefix_of` hb) by (apply prefix_app_r; reflexivity).
  destruct (mergeDeep_call_refines fuel hb (length h) (Store._config u) p
              (Store._schema u)) as (h' & r & N0 & Hm & Hs & Hsnap).
  - exact Hn.
  - apply list_lookup_middle. reflexivity.
  - eapply plain_prefix; eassumption.
  - eapply plain_prefix; eassumption.
  - rewrite (isArray_old fuel h hb _ Hpre Hu). exact Hau.
  - rewrite (isArray_old fuel h hb _ Hpre Hp). exact Hap.
  - apply (distinct_refs_prefix fuel h hb Hpre); assumption.
  - exists h', r, (N0 + fuel). split; [exact Hm|]. split; [exact Hs|].
    intros N HN. rewrite Hsnap by lia. unfold Tree.override.
    cbn [Tree._config].
    rewrite (snapshot_prefix fuel h hb Hpre _ Hu),
      (snapshot_prefix fuel h hb Hpre _ Hp).
    rewrite (snapshot_stable fuel h _ N Hu), (snapshot_stable fuel h _ N Hp)
      by lia.
    reflexivity.
Qed.

(** [x ?? {}]: the new object, if one is made, reads as a value without
    fields, as [undefined] and [null] do for merge-deep. *)
Lemma or_empty_object_reads (n : nat) h (v : Store.val) :
  1 ≤ n → Store.plain n h v → Store.isArray h v = false →
  Store.isArray (Store.or_empty_object h v).1 (Store.or_empty_object h v).2
    = false
  ∧ (distinct_refs n h v →
     distinct_refs n (Store.or_empty_object h v).1
       (Store.or_empty_object h v).2)
  ∧ merged_props
      (Store.snapshot n (Store.or_empty_object h v).1
         (Store.or_empty_object h v).2)
    = merged_props (Store.snapshot n h v).
Proof.
  intros Hn Hd Ha.
  destruct v as [| | | | |l]; cbn [Store.or_empty_object Store.alloc fst snd];
    try (split; [exact Ha|split; [auto|reflexivity]]).
  all: destruct n as [|n]; [lia|].
  all: split; [simpl; rewrite list_lookup_middle by reflexivity; reflexivity|].
  all: split;
    [intros _; cbn [distinct_refs];
     rewrite list_lookup_middle by reflexivity; apply map_Forall_empty|].
  all: cbn [Store.snapshot]; rewrite list_lookup_middle by reflexivity;
    rewrite fmap_empty; reflexivity.
Qed.

(** X22.  The same for [a.merge(b)]: on a heap where the data of [a] and of [b]
    are plain (acyclic, with ordinary property names) and are not arrays,
    and where no array met on the way down the fields of [b]'s data holds
    the same object twice, the unit that [merge] returns on the heap has
    data that reads back as the data of [merge] on the trees that the data
    of [a] and [b] read as. *)
Theorem merge_reads_as_on_trees (fuel : nat) h a b :
  1 ≤ fuel →
  Store.plain fuel h (Store._config a) →
  Store.plain fuel h (Store._config b) →
  Store.isArray h (Store._config a) = false →
  Store.isArray h (Store._config b) = false →
  distinct_refs fuel h (Store._config b) →
  ∃ h' r N0,
    Store.merge schema_merge fuel h a b = Some (h', r)
    ∧ Store._schema r = schema_merge (Store._schema a) (Store._schema b)
    ∧ ∀ N, N0 ≤ N →
        Store.snapshot N h' (Store._config r)
        = Tree._config
            (Tree.merge schema_merge
               (Tree.new_ZodFig (Store._schema a)
                  (Store.snapshot N h (Store._config a)))
               (Tree.new_ZodFig (Store._schema b)
                  (Store.snapshot N h (Store._config b)))).
Proof.
  intros Hn Ha Hb Haa Hab Hdr. unfold Store.merge, Store.alloc.
  set (h0 := h ++ [Store.Cell false (Store.Object ∅)]).
  assert (Hp0 : h `prefix_of` h0) by (apply prefix_app_r; reflexivity).
  assert (Ha0 : Store.plain fuel h0 (Store._config a))
    by (eapply plain_prefix; eassumption).
  assert (Hb0 : Store.plain fuel h0 (Store._config b))
    by (eapply plain_prefix; eassumption).
  (* [this._config ?? {}] *)
  destruct (or_empty_object_grows h0 fuel (Store._config a) Hn Ha0)
    as [Hp1 Hx].
  destruct (or_empty_object_reads fuel h0 (Store._config a) Hn Ha0)
    as (Hax & _ & Hox);
    [rewrite (isArray_old fuel h h0 _ Hp0 Ha); exact Haa|].
  destruct (Store.or_empty_object h0 (Store._config a)) as [h1 x] eqn:E1.
  cbn [fst snd] in Hp1, Hx, Hax, Hox.
  assert (Hb1 : Store.plain fuel h1 (Store._config b))
    by (eapply plain_prefix; eassumption).
  (* [merging._config ?? {}] *)
  destruct (or_empty_object_grows h1 fuel (Store._config b) Hn Hb1)
    as [Hp2 Hy].
  destruct (or_empty_object_reads fuel h1 (Store._config b) Hn Hb1)
    as (Hay & Hdy & Hoy).
  { rewrite (isArray_old fuel h0 h1 _ Hp1 Hb0),
      (isArray_old fuel h h0 _ Hp0 Hb). exact Hab. }
  destruct (Store.or_empty_object h1 (Store._config b)) as [h2 y] eqn:E2.
  cbn [fst snd] in Hp2, Hy, Hay, Hdy, Hoy.
  destruct (mergeDeep_call_refines fuel h2 (length h) x y
              (schema_merge (Store._schema a) (Store._schema b)))
    as (h' & r & N0 & Hm & Hs & Hsnap).
  - exact Hn.
  - apply (prefix_lookup_Some h0); [|etrans; eassumption].
    apply list_lookup_middle. reflexivity.
  - eapply plain_prefix; eassumption.
  - exact Hy.
  - rewrite (isArray_old fuel h1 h2 _ Hp2 Hx). exact Hax.
  - exact Hay.
  - apply Hdy. apply (distinct_refs_prefix fuel h0 h1 Hp1); [exact Hb0|].
    apply (distinct_refs_prefix fuel h h0 Hp0); assumption.
  - exists h', r, (N0 + fuel). split; [exact Hm|]. split; [exact Hs|].
    intros N HN. rewrite Hsnap by lia.
    unfold Tree.merge. cbn [Tree._config Tree._schema].
    rewrite mergeDeep_nullish_or. apply mergeDeep_by_props.
    + rewrite (snapshot_prefix fuel h1 h2 Hp2 _ Hx), Hox.
      rewrite (snapshot_prefix fuel h h0 Hp0 _ Ha).
      rewrite (snapshot_stable fuel h _ N Ha) by lia. reflexivity.
    + rewrite Hoy.
      rewrite (snapshot_prefix fuel h0 h1 Hp1 _ Hb0),
        (snapshot_prefix fuel h h0 Hp0 _ Hb).
      rewrite (snapshot_stable fuel h _ N Hb) by lia. reflexivity.
Qed.

End ClassRefines.

Lemma override_reads_as_on_trees_witness :
  ∃ h' r N0,
    Store.override 4 Examples.unshared_heap Examples.unit_a (Store.Ref 5)
      = Some (h', r)
    ∧ Store._schema r = Store._schema Examples.unit_a
    ∧ ∀ N, N0 ≤ N →
        Store.snapshot N h' (Store._config r)
        = Tree._config
            (Tree.override
               (Tree.new_ZodFig (Store._schema Examples.unit_a)
                  (Store.snapshot N Examples.unshared_heap
                     (Store._config Examples.unit_a)))
               (Store.snapshot N Examples.unshared_heap (Store.Ref 5))).
Proof.
  apply (override_reads_as_on_trees 4 Examples.unshared_heap Examples.unit_a
           (Store.Ref 5)).
  - lia.
  - apply plainb_sound. vm_compute. reflexivity.
  - apply plainb_sound. vm_compute. reflexivity.
  - reflexivity.
  - reflexivity.
  - apply distinct_refsb_sound. vm_compute. reflexivity.
Defined.

Lemma merge_reads_as_on_trees_witness :
  ∃ h' r N0,
    Store.merge Examples.no_schema_merge 4 Examples.unshared_heap
      Examples.unit_a Examples.unit_c = Some (h', r)
    ∧ Store._schema r
      = Examples.no_schema_merge (Store._schema Examples.unit_a)
          (Store._schema Examples.unit_c)
    ∧ ∀ N, N0 ≤ N →
        Store.snapshot N h' (Store._config r)
        = Tree._config
            (Tree.merge Examples.no_schema_merge
               (Tree.new_ZodFig (Store._schema Examples.unit_a)
                  (Store.snapshot N Examples.unshared_heap
                     (Store._config Examples.unit_a)))
               (Tree.new_ZodFig (Store._schema Examples.unit_c)
                  (Store.snapshot N Examples.unshared_heap
                     (Store._config Examples.unit_c)))).
Proof.
  apply (merge_reads_as_on_trees Examples.no_schema_merge 4
           Examples.unshared_heap Examples.unit_a Examples.unit_c).
  - lia.
  - apply plainb_sound. vm_compute. reflexivity.
  - apply plainb_sound. vm_compute. reflexivity.
  - reflexivity.
  - reflexivity.
  - apply distinct_refsb_sound. vm_compute. reflexivity.
Defined.
